(** * Tree-ensemble regressors as MIP constraints

    A shallow embedding of [gurobi_ml/sklearn/decisiontrees.py] and
    [gurobi_ml/sklearn/gradient_boosting_regressor.py]: the encoders that
    insert a trained scikit-learn decision tree, random forest or gradient
    boosting regressor into a gurobipy model.

    Numbers.  Feature values, thresholds, leaf values and variable values are
    rationals ([Q]), and what a solution must satisfy is read in exact
    arithmetic.  The float arithmetic of the encoder itself is kept: a float
    type is its conversion [float_type(x)], the rounded sum of one of its
    values with a Python float, and the quotient [1 / x], which may raise.
    [np.float32] and [np.float64] round to the nearest binary32 or binary64
    value, ties to even.

    The gurobipy model is a record of declared variables and constraints; the
    encoders are written in a state monad over it, in which an exception
    leaves the model as it was when the exception was raised. *)

From Stdlib Require Import String DecimalString.
From Stdlib Require Import ZArith QArith Qminmax Qround Qabs.
From Stdlib Require Import List Bool Lia Lqa.
Import ListNotations.

Close Scope Q_scope.

(* ================================================================== *)
(** ** NumPy: indexing, masks, reductions, float conversion *)
(* ================================================================== *)

Module Np.

Local Open Scope Z_scope.

(** [a[i]] on a one-dimensional array: a negative index counts from the
    end, anything outside [-n, n) is an IndexError ([None]). *)
Definition normalize_index (n : nat) (i : Z) : option nat :=
  let n' := Z.of_nat n in
  if (0 <=? i) && (i <? n') then Some (Z.to_nat i)
  else if (- n' <=? i) && (i <? 0) then Some (Z.to_nat (i + n'))
  else None.

Definition index {A : Type} (a : list A) (i : Z) : option A :=
  match normalize_index (length a) i with
  | Some j => nth_error a j
  | None => None
  end.

(** [np.flatnonzero(mask)]: the positions at which a boolean mask holds. *)
Fixpoint nonzero_from (start : nat) (mask : list bool) : list nat :=
  match mask with
  | [] => []
  | b :: mask' =>
      if b then start :: nonzero_from (S start) mask'
      else nonzero_from (S start) mask'
  end.

Definition nonzero (mask : list bool) : list nat := nonzero_from 0 mask.

(** [a[mask]]: the entries selected by a boolean mask of the same length. *)
Definition select {A : Type} (a : list A) (mask : list bool) : option (list A) :=
  if Nat.eqb (length mask) (length a)
  then Some (map snd (filter fst (combine mask a)))
  else None.

(** [np.min] and [np.max] of a flattened array; empty arrays raise. *)
Definition min (a : list Q) : option Q :=
  match a with
  | [] => None
  | x :: a' => Some (fold_left Qmin a' x)
  end.

Definition max (a : list Q) : option Q :=
  match a with
  | [] => None
  | x :: a' => Some (fold_left Qmax a' x)
  end.

(** Flattening of a three-dimensional array such as [tree.value]. *)
Definition ravel (a : list (list (list Q))) : list Q := concat (concat a).

(** *** [np.float32] and [np.float64]: rounding to a binary format *)

Definition pow2 (e : Z) : Q :=
  if 0 <=? e then inject_Z (2 ^ e) else (1 / inject_Z (2 ^ (- e)))%Q.

(** Floor of the binary logarithm of a positive rational. *)
Definition ilog2 (q : Q) : Z :=
  let k := Z.log2 (Qnum q) - Z.log2 (Zpos (Qden q)) in
  if Qle_bool (pow2 k) q then k else k - 1.

Definition round_half_even (q : Q) : Z :=
  let f := Qfloor q in
  match ((q - inject_Z f) ?= (1 # 2))%Q with
  | Lt => f
  | Gt => f + 1
  | Eq => if Z.even f then f else f + 1
  end.

(** The value nearest to [q], ties to even, among the binary
    floating-point numbers with [prec] significant bits and exponents from
    [emin] up (below it lies the subnormal range).  Magnitudes beyond the
    largest number of the format, which NumPy turns into an infinity, are
    outside this model. *)
Definition round_binary (prec emin : Z) (q : Q) : Q :=
  if Qeq_bool q 0%Q then 0%Q
  else
    let a := Qabs q in
    let e := Z.max (ilog2 a) emin in
    let ulp := pow2 (e - (prec - 1)) in
    let m := inject_Z (round_half_even (a / ulp)%Q) in
    Qred (if Qle_bool 0%Q q then m * ulp else - (m * ulp))%Q.

(** Conversion to binary32 and to binary64. *)
Definition float32 (q : Q) : Q := round_binary 24 (-126) q.
Definition float64 (q : Q) : Q := round_binary 53 (-1022) q.

End Np.

(* ================================================================== *)
(** ** Float types *)
(* ================================================================== *)

(** A float type, as far as the encoder uses one: the conversion
    [float_type(x)]; the sum [a + b] of a converted value [a] and a Python
    float [b], in the type and with the rounding that NumPy or Python give
    the result; the quotient [1 / a], [None] where it raises
    ZeroDivisionError. *)
Record FloatType := mkFloatType {
  convert :> Q -> Q;
  add_float : Q -> Q -> Q;
  one_over : Q -> option Q
}.

(** Division by zero of a NumPy scalar is an infinity with a warning, not an
    exception.  The infinity is outside [Q]; 0 stands for it. *)
Definition numpy_quotient (round : Q -> Q) (a : Q) : option Q :=
  Some (if Qeq_bool a 0 then 0%Q else round (1 / a)%Q).

(** [np.float32] under the promotion rules of NumPy 1, those in force when
    the encoders were written: the sum of a binary32 scalar and a Python
    float, and the quotient of a Python integer by a binary32 scalar, are
    computed in binary64. *)
Definition np_float32 : FloatType :=
  mkFloatType Np.float32 (fun a b => Np.float64 (a + b)%Q) (numpy_quotient Np.float64).

(** [np.float32] under the promotion rules of NumPy 2: a Python number
    takes the type of the scalar it meets, and sum and quotient are
    computed in binary32. *)
Definition np_float32_weak : FloatType :=
  mkFloatType Np.float32 (fun a b => Np.float32 (a + Np.float32 b)%Q)
    (numpy_quotient Np.float32).

(** [np.float64] *)
Definition np_float64 : FloatType :=
  mkFloatType Np.float64 (fun a b => Np.float64 (a + b)%Q) (numpy_quotient Np.float64).

(** Python's [float]: binary64, with ZeroDivisionError on division by
    zero. *)
Definition py_float : FloatType :=
  mkFloatType Np.float64 (fun a b => Np.float64 (a + b)%Q)
    (fun a => if Qeq_bool a 0 then None else Some (Np.float64 (1 / a)%Q)).

(* ================================================================== *)
(** ** scikit-learn: the trained predictors read by the encoders *)
(* ================================================================== *)

(** [sklearn.tree._tree.Tree]: parallel arrays indexed by node.  A leaf has
    a negative [children_left] entry.  [value] has shape
    (nodes, outputs, 1) and holds an entry for every node, leaf or not. *)
Record Tree := mkTree {
  capacity : nat;
  children_left : list Z;
  children_right : list Z;
  feature : list Z;
  threshold : list Q;
  value : list (list (list Q))
}.

Record DecisionTreeRegressor := mkDecisionTreeRegressor {
  tree_ : Tree;
  n_outputs_ : Z
}.

Record RandomForestRegressor := mkRandomForestRegressor {
  rf_n_estimators : nat;
  rf_estimators_ : list DecisionTreeRegressor;
  rf_n_outputs_ : Z
}.

(** [estimators_] is a two-dimensional array of trees (stages by 1);
    [init_constant_] is [init_.constant_], again two-dimensional. *)
Record GradientBoostingRegressor := mkGradientBoostingRegressor {
  gb_n_estimators_ : nat;
  gb_estimators_ : list (list DecisionTreeRegressor);
  gb_learning_rate : Q;
  gb_init_constant_ : list (list Q)
}.

Inductive Predictor :=
| PTree (p : DecisionTreeRegressor)
| PForest (p : RandomForestRegressor)
| PBoosting (p : GradientBoostingRegressor).

(** Exceptions that can leave the encoders. *)
Inductive exn :=
| NoModel (predictor : Predictor) (msg : string)
| AssertionError
| IndexError
| ValueError
| ZeroDivisionError.

(* ================================================================== *)
(** ** gurobipy: variables, linear expressions, constraints, models *)
(* ================================================================== *)

Definition var := nat.

Inductive vtype := GRB_CONTINUOUS | GRB_BINARY.

(** A bound of [None] is infinite ([-GRB.INFINITY] below, [GRB.INFINITY]
    above). *)
Record vardecl := mkVar {
  VType : vtype;
  LB : option Q;
  UB : option Q;
  VarName : string
}.

(** [LinExpr]: a sum of coefficient-variable terms plus a constant. *)
Record LinExpr := mkLin {
  terms : list (Q * var);
  constant : Q
}.

Inductive sense := LESS_EQUAL | GREATER_EQUAL | EQUAL.

Record TempConstr := mkTemp {
  lhs : LinExpr;
  csense : sense;
  rhs : LinExpr
}.

(** A linear constraint, or an indicator [(b == 1) >> c]. *)
Inductive constr :=
| Linear (c : TempConstr)
| Indicator (b : var) (c : TempConstr).

Record Model := mkModel {
  Vars : list vardecl;
  Constrs : list constr
}.

(** [MVar]: a two-dimensional array of variables with its shape. *)
Record MVar := mkMVar {
  shape0 : nat;
  shape1 : nat;
  item : nat -> nat -> var
}.

Module Lin.

Definition of_var (x : var) : LinExpr := mkLin [(1%Q, x)] 0%Q.
Definition of_const (c : Q) : LinExpr := mkLin [] c.
Definition scale (c : Q) (e : LinExpr) : LinExpr :=
  mkLin (map (fun t => (c * fst t, snd t)%Q) (terms e)) (c * constant e)%Q.
Definition add (a b : LinExpr) : LinExpr :=
  mkLin (terms a ++ terms b) (constant a + constant b)%Q.
Definition sum (xs : list var) : LinExpr :=
  mkLin (map (fun x => (1%Q, x)) xs) 0%Q.

End Lin.

(** *** Solutions *)

Section Semantics.

Variable sigma : var -> Q.

Definition eval_terms (ts : list (Q * var)) : Q :=
    fold_right (fun t acc => (fst t * sigma (snd t) + acc)%Q) 0%Q ts.

Definition eval (e : LinExpr) : Q := (eval_terms (terms e) + constant e)%Q.

Definition holds (c : TempConstr) : Prop :=
    match csense c with
    | LESS_EQUAL => (eval (lhs c) <= eval (rhs c))%Q
    | GREATER_EQUAL => (eval (rhs c) <= eval (lhs c))%Q
    | EQUAL => (eval (lhs c) == eval (rhs c))%Q
    end.

Definition sat (c : constr) : Prop :=
    match c with
    | Linear t => holds t
    | Indicator b t => (sigma b == 1)%Q -> holds t
    end.

Definition is_binary (q : Q) : Prop := (q == 0)%Q \/ (q == 1)%Q.

Definition var_ok (x : var) (d : vardecl) : Prop :=
    match LB d with Some l => (l <= sigma x)%Q | None => True end /\
    match UB d with Some u => (sigma x <= u)%Q | None => True end /\
    match VType d with GRB_BINARY => is_binary (sigma x) | GRB_CONTINUOUS => True end.

  (** A feasible solution respects every variable's type and bounds and
      every constraint of the model. *)
Definition feasible (m : Model) : Prop :=
    (forall x d, nth_error (Vars m) x = Some d -> var_ok x d) /\
    (forall c, In c (Constrs m) -> sat c).

  (** The same, as a check that computes. *)
Definition holdsb (c : TempConstr) : bool :=
    match csense c with
    | LESS_EQUAL => Qle_bool (eval (lhs c)) (eval (rhs c))
    | GREATER_EQUAL => Qle_bool (eval (rhs c)) (eval (lhs c))
    | EQUAL => Qeq_bool (eval (lhs c)) (eval (rhs c))
    end.

Definition satb (c : constr) : bool :=
    match c with
    | Linear t => holdsb t
    | Indicator b t => negb (Qeq_bool (sigma b) 1%Q) || holdsb t
    end.

Definition var_okb (x : var) (d : vardecl) : bool :=
    match LB d with Some l => Qle_bool l (sigma x) | None => true end &&
    match UB d with Some u => Qle_bool (sigma x) u | None => true end &&
    match VType d with
    | GRB_BINARY => Qeq_bool (sigma x) 0%Q || Qeq_bool (sigma x) 1%Q
    | GRB_CONTINUOUS => true
    end.

Fixpoint vars_okb (x : var) (ds : list vardecl) : bool :=
    match ds with
    | [] => true
    | d :: ds' => var_okb x d && vars_okb (S x) ds'
    end.

Definition feasibleb (m : Model) : bool :=
    vars_okb 0 (Vars m) && forallb satb (Constrs m).

End Semantics.

(* ================================================================== *)
(** ** The model-building monad *)
(* ================================================================== *)

Inductive result (A : Type) :=
| Ok (a : A)
| Raise (e : exn).
Arguments Ok {A} a.
Arguments Raise {A} e.

(** A computation reads and updates the model; on an exception the model
    keeps whatever had been added before. *)
Definition M (A : Type) : Type := Model -> result A * Model.

Definition ret {A} (a : A) : M A := fun m => (Ok a, m).

Definition bind {A B} (c : M A) (k : A -> M B) : M B :=
  fun m =>
    match c m with
    | (Ok a, m') => k a m'
    | (Raise e, m') => (Raise e, m')
    end.

Definition raise {A} (e : exn) : M A := fun m => (Raise e, m).

Declare Scope monad_scope.
Delimit Scope monad_scope with monad.
Notation "x <- c ;; k" := (bind c (fun x => k))
  (at level 61, c at next level, right associativity) : monad_scope.
Notation "c ;; k" := (bind c (fun _ => k))
  (at level 61, right associativity) : monad_scope.

Local Open Scope monad_scope.

(** An array access that may raise IndexError. *)
Definition lookup {A} (o : option A) : M A :=
  match o with
  | Some a => ret a
  | None => raise IndexError
  end.

(** An array operation that may raise ValueError (shape mismatch, empty
    reduction). *)
Definition checked {A} (o : option A) : M A :=
  match o with
  | Some a => ret a
  | None => raise ValueError
  end.

Definition assert_ (b : bool) : M unit :=
  if b then ret tt else raise AssertionError.

(** A quotient that may raise ZeroDivisionError. *)
Definition quotient {A} (o : option A) : M A :=
  match o with
  | Some a => ret a
  | None => raise ZeroDivisionError
  end.

Fixpoint forM_ {A} (l : list A) (body : A -> M unit) : M unit :=
  match l with
  | [] => ret tt
  | a :: l' => body a ;; forM_ l' body
  end.

Fixpoint forM {A B} (l : list A) (body : A -> M B) : M (list B) :=
  match l with
  | [] => ret []
  | a :: l' => b <- body a ;; bs <- forM l' body ;; ret (b :: bs)
  end.

(** *** Pure array expressions

    Expressions that only read arrays are written with [let?]; [None]
    stands for the exception that the enclosing statement raises. *)

Notation "'let?' x ':=' e 'in' k" :=
  (match e with Some x => k | None => None end)
  (at level 10, x name, e at level 100, k at level 200).

Fixpoint mapM {A B} (f : A -> option B) (l : list A) : option (list B) :=
  match l with
  | [] => Some []
  | a :: l' =>
      let? b := f a in
      let? bs := mapM f l' in
      Some (b :: bs)
  end.

(** [a[k, j]] for [k] drawn from a [range]: the column index may be
    negative, as in NumPy. *)
Definition mv_get (a : MVar) (k : nat) (j : Z) : option var :=
  let? j' := Np.normalize_index (shape1 a) j in
  if k <? shape0 a then Some (item a k j') else None.

(** [a[:, idx]] with an integer index array. *)
Definition take_cols (a : MVar) (idx : list Z) : option MVar :=
  let? cols := mapM (Np.normalize_index (shape1 a)) idx in
  Some (mkMVar (shape0 a) (length cols) (fun k j => item a k (nth j cols 0))).

(** [a[:, mask]] with a boolean mask, which must span the columns. *)
Definition take_mask (a : MVar) (mask : list bool) : option MVar :=
  if length mask =? shape1 a
  then
    let cols := Np.nonzero mask in
    Some (mkMVar (shape0 a) (length cols) (fun k j => item a k (nth j cols 0)))
  else None.

(** [a[:, i]] for [i] drawn from a [range] over the columns, as the
    (rows, 1) array the encoders work on. *)
Definition column (a : MVar) (i : nat) : MVar :=
  mkMVar (shape0 a) 1 (fun k _ => item a k i).

(** [a[:, 0]]. *)
Definition column0 (a : MVar) : option MVar :=
  if 0 <? shape1 a then Some (column a 0) else None.

(** [MLinExpr]: a two-dimensional array of linear expressions. *)
Record MLinExpr := mkMLin {
  mrows : nat;
  mcols : nat;
  mitem : nat -> nat -> LinExpr
}.

Definition of_mvar (a : MVar) : MLinExpr :=
  mkMLin (shape0 a) (shape1 a) (fun k j => Lin.of_var (item a k j)).

Definition same_shape (a b : MLinExpr) : bool :=
  (mrows a =? mrows b) && (mcols a =? mcols b).

Definition madd (a b : MLinExpr) : option MLinExpr :=
  if same_shape a b
  then Some (mkMLin (mrows a) (mcols a)
               (fun k j => Lin.add (mitem a k j) (mitem b k j)))
  else None.

Definition mscale (c : Q) (a : MLinExpr) : MLinExpr :=
  mkMLin (mrows a) (mcols a) (fun k j => Lin.scale c (mitem a k j)).

Definition madd_const (a : MLinExpr) (c : Q) : MLinExpr :=
  mkMLin (mrows a) (mcols a) (fun k j => Lin.add (mitem a k j) (Lin.of_const c)).

(** [a.sum(axis=1)], kept as one column. *)
Definition sum_axis1 (a : MVar) : MLinExpr :=
  mkMLin (shape0 a) 1 (fun k _ => Lin.sum (map (item a k) (seq 0 (shape1 a)))).

(** The constraints of a matrix comparison, row by row. *)
Definition entries (rows cols : nat) (f : nat -> nat -> constr) : list constr :=
  flat_map (fun k => map (f k) (seq 0 cols)) (seq 0 rows).

Definition compare (a : MLinExpr) (s : sense) (b : MLinExpr) : option (list constr) :=
  if same_shape a b
  then Some (entries (mrows a) (mcols a)
               (fun k j => Linear (mkTemp (mitem a k j) s (mitem b k j))))
  else None.

Definition compare_const (a : MLinExpr) (s : sense) (c : Q) : list constr :=
  entries (mrows a) (mcols a)
    (fun k j => Linear (mkTemp (mitem a k j) s (Lin.of_const c))).

(** *** Operations on the model *)

Definition default_ub (vt : vtype) : option Q :=
  match vt with
  | GRB_BINARY => Some 1%Q
  | GRB_CONTINUOUS => None
  end.

(** Decimal rendering of an integer, for ["...{}".format(n)]. *)
Definition format_int (n : Z) : string :=
  NilZero.string_of_int (Z.to_int n).

(** The name of an entry of a matrix variable: the name given to
    [addMVar], subscripted by the index of the entry, as in [node[0,2]]. *)
Definition subscript (name : string) (idx : list nat) : string :=
  (name ++ "[" ++ String.concat "," (map (fun i => format_int (Z.of_nat i)) idx)
   ++ "]")%string.

(** The declarations of the entries of a new matrix variable, in the
    order of their numbers; [index i] is the index of entry number [i]. *)
Definition new_vars (vt : vtype) (lb : option Q) (name : string)
    (index : nat -> list nat) (n : nat) : list vardecl :=
  map (fun i => mkVar vt lb (default_ub vt) (subscript name (index i))) (seq 0 n).

(** [model.addMVar((rows, cols), lb=..., vtype=..., name=...)]: fresh
    variables, numbered row by row after those already in the model. *)
Definition addMVar (rows cols : nat) (vt : vtype) (lb : option Q) (name : string)
  : M MVar :=
  fun m =>
    let base := length (Vars m) in
    (Ok (mkMVar rows cols (fun k j => base + k * cols + j)),
     mkModel (Vars m ++ new_vars vt lb name (fun i => [i / cols; i mod cols])
                          (rows * cols))
             (Constrs m)).

(** [model.addConstr(...)] on a matrix comparison adds all its entries. *)
Definition addConstr (cs : list constr) : M unit :=
  fun m => (Ok tt, mkModel (Vars m) (Constrs m ++ cs)).

(** [model.addConstrs(gen(k) for k in ...)]: the generator is consumed one
    element at a time, each constraint being added as it is produced. *)
Definition addConstrs {A} (l : list A) (gen : A -> option constr) : M unit :=
  forM_ l (fun k => c <- lookup (gen k) ;; addConstr [c]).

Definition mvar_mem (a : MVar) (x : var) : bool :=
  existsb (fun k => existsb (fun j => item a k j =? x) (seq 0 (shape1 a)))
          (seq 0 (shape0 a)).

Definition update_vars (a : MVar) (f : vardecl -> vardecl) (ds : list vardecl)
  : list vardecl :=
  map (fun xd => if mvar_mem a (fst xd) then f (snd xd) else snd xd)
      (combine (seq 0 (length ds)) ds).

(** [a.LB = v] and [a.UB = v] *)
Definition set_LB (a : MVar) (v : Q) : M unit :=
  fun m =>
    (Ok tt,
     mkModel (update_vars a (fun d => mkVar (VType d) (Some v) (UB d) (VarName d)) (Vars m))
             (Constrs m)).

Definition set_UB (a : MVar) (v : Q) : M unit :=
  fun m =>
    (Ok tt,
     mkModel (update_vars a (fun d => mkVar (VType d) (LB d) (Some v) (VarName d)) (Vars m))
             (Constrs m)).

(** Modelled from the spec: [AbstractPredictorConstr.__init__] of
    [gurobi_ml/modeling] is not among the sources.  The spec leaves the
    validation of variable shapes to that layer and has all constraints
    created at construction time: the base constructor records the model
    and the two-dimensional input and output arrays, then runs
    [_mip_model]. *)
Definition AbstractPredictorConstr_init {A} (_mip_model : MVar -> MVar -> M A)
    (input_vars output_vars : MVar) : M A :=
  _mip_model input_vars output_vars.

(* ================================================================== *)
(** ** decisiontrees.py *)
(* ================================================================== *)

(** The keyword arguments of [DecisionTreeRegressorConstr.__init__]. *)
Record TreeOptions := mkTreeOptions {
  eps : Q;
  scale : Q;
  float_type : FloatType
}.

(** The Python literal [1e-6]: the binary64 number nearest to 10^-6. *)
Definition eps_default : Q := Np.float64 (1 # 1000000).

(** [eps=1e-6, scale=1.0, float_type=np.float32] *)
Definition default_options : TreeOptions :=
  mkTreeOptions eps_default 1 np_float32.

(** The same defaults where NumPy 2 is installed. *)
Definition numpy2_options : TreeOptions :=
  mkTreeOptions eps_default 1 np_float32_weak.

(** What a [DecisionTreeRegressorConstr] object records. *)
Record DecisionTreeRegressorConstr_obj := mkTreeConstr {
  dt_options : TreeOptions;
  dt_predictor : DecisionTreeRegressor;
  dt_input : MVar;
  dt_output : MVar;
  dt_n_outputs_ : Z;
  nodevars : MVar
}.

Module DecisionTree.

Section MipModel.

Variable self : TreeOptions.
Variable predictor : DecisionTreeRegressor.
Variables _input output : MVar.

Local Abbreviation tree := (tree_ predictor).

Definition notleafs : list bool := map (fun c => (0 <=? c)%Z) (children_left tree).
Definition leafs : list bool := map (fun c => (c <? 0)%Z) (children_left tree).

  (** [nodes[:, notleafs] >= nodes[:, children[notleafs]]] *)
Definition parent_ge_child (nodes : MVar) (children : list Z) : option (list constr) :=
    let? a := take_mask nodes notleafs in
    let? idx := Np.select children notleafs in
    let? b := take_cols nodes idx in
    compare (of_mvar a) GREATER_EQUAL (of_mvar b).

  (** [nodes[:, children_right[notleafs]] + nodes[:, children_left[notleafs]]] *)
Definition children_sum (nodes : MVar) : option MLinExpr :=
    let? ridx := Np.select (children_right tree) notleafs in
    let? r := take_cols nodes ridx in
    let? lidx := Np.select (children_left tree) notleafs in
    let? l := take_cols nodes lidx in
    madd (of_mvar r) (of_mvar l).

Definition parent_le_children (nodes : MVar) : option (list constr) :=
    let? a := take_mask nodes notleafs in
    let? s := children_sum nodes in
    compare (of_mvar a) LESS_EQUAL s.

Definition children_exclusive (nodes : MVar) : option (list constr) :=
    let? s := children_sum nodes in
    Some (compare_const s LESS_EQUAL 1).

  (** [(nodes[k, child].item() == 1) >> (scale * _input[k, feature[node]] <sense> bound)] *)
Definition branch_indicator (nodes : MVar) (node : nat) (child : Z)
      (scale : Q) (s : sense) (bound : Q) (k : nat) : option constr :=
    let? b := mv_get nodes k child in
    let? f := Np.index (feature tree) (Z.of_nat node) in
    let? x := mv_get _input k f in
    Some (Indicator b (mkTemp (Lin.scale scale (Lin.of_var x)) s (Lin.of_const bound))).

  (** [(nodes[k, node].item() == 1) >> (output[k, 0] == tree.value[node][0][0])] *)
Definition leaf_indicator (nodes : MVar) (node : nat) (k : nat) : option constr :=
    let? b := mv_get nodes k (Z.of_nat node) in
    let? o := mv_get output k 0 in
    let? v1 := Np.index (value tree) (Z.of_nat node) in
    let? v2 := Np.index v1 0 in
    let? v := Np.index v2 0 in
    Some (Indicator b (mkTemp (Lin.of_var o) EQUAL (Lin.of_const v))).

  (** One pass of the [for node in range(tree.capacity)] loop.  The scale
      computed from the threshold is rebound to 1 on the next line, as in
      the source, so that only an exception of [1 / threshold] can be
      observed.  [scale * threshold] with [scale = 1] is exact in every
      float format; [... + self.eps] is the sum of the float type. *)
Definition split_node (nodes : MVar) (node : nat) : M unit :=
    let nex := shape0 _input in
    left <- lookup (Np.index (children_left tree) (Z.of_nat node)) ;;
    right <- lookup (Np.index (children_right tree) (Z.of_nat node)) ;;
    t <- lookup (Np.index (threshold tree) (Z.of_nat node)) ;;
    let threshold := float_type self t in
    q <- quotient (one_over (float_type self) threshold) ;;
    let scale := Qmax (Qabs q) (scale self) in
    let scale := 1%Q in
    if (0 <=? left)%Z then
      addConstrs (seq 0 nex)
        (branch_indicator nodes node left scale LESS_EQUAL (scale * threshold)%Q) ;;
      addConstrs (seq 0 nex)
        (branch_indicator nodes node right scale GREATER_EQUAL
           (add_float (float_type self) (scale * threshold)%Q (eps self)))
    else
      addConstrs (seq 0 nex) (leaf_indicator nodes node).

  (** [nodes[:, leafs].sum(axis=1) == 1] *)
Definition one_leaf (nodes : MVar) : option (list constr) :=
    let? l := take_mask nodes leafs in
    Some (compare_const (sum_axis1 l) EQUAL 1).

  (** [DecisionTreeRegressorConstr._mip_model] *)
Definition _mip_model : M MVar :=
    let outdim := shape1 output in
    assert_ (Z.of_nat outdim =? n_outputs_ predictor)%Z ;;
    let nex := shape0 _input in
    nodes <- addMVar nex (capacity tree) GRB_BINARY (Some 0%Q) "node" ;;
    c <- lookup (parent_ge_child nodes (children_left tree)) ;;
    addConstr c ;;
    c <- lookup (parent_ge_child nodes (children_right tree)) ;;
    addConstr c ;;
    c <- lookup (parent_le_children nodes) ;;
    addConstr c ;;
    c <- lookup (children_exclusive nodes) ;;
    addConstr c ;;
    forM_ (seq 0 (capacity tree)) (split_node nodes) ;;
    c <- lookup (one_leaf nodes) ;;
    addConstr c ;;
    lo <- checked (Np.min (Np.ravel (value tree))) ;;
    set_LB output lo ;;
    hi <- checked (Np.max (Np.ravel (value tree))) ;;
    set_UB output hi ;;
    ret nodes.

End MipModel.

End DecisionTree.

(** [DecisionTreeRegressorConstr.__init__] *)
Definition DecisionTreeRegressorConstr (options : TreeOptions)
    (predictor : DecisionTreeRegressor) (input_vars output_vars : MVar)
  : M DecisionTreeRegressorConstr_obj :=
  if negb (n_outputs_ predictor =? 1)%Z then
    raise (NoModel (PTree predictor)
             ("Can only deal with 1-dimensional regression trees. Output dimension "
              ++ format_int (n_outputs_ predictor)))
  else
    nodes <- AbstractPredictorConstr_init
               (DecisionTree._mip_model options predictor) input_vars output_vars ;;
    ret (mkTreeConstr options predictor input_vars output_vars
           (n_outputs_ predictor) nodes).

(** What the ensemble encoders record: [self.estimators_]. *)
Record EnsembleConstr_obj := mkEnsembleConstr {
  en_n_outputs_ : Z;
  estimators_ : list DecisionTreeRegressorConstr_obj
}.

Module GradientBoosting.

Section MipModel.

Variable predictor : GradientBoostingRegressor.
Variables _input output : MVar.

  (** [predictor.estimators_[i]] followed by [tree[0]] *)
Definition stage (i : nat) : option DecisionTreeRegressor :=
    let? tree := Np.index (gb_estimators_ predictor) (Z.of_nat i) in
    Np.index tree 0.

  (** [constant[0][0]] *)
Definition constant00 : option Q :=
    let? c0 := Np.index (gb_init_constant_ predictor) 0 in
    Np.index c0 0.

  (** [GradientBoostingRegressorConstr._mip_model] *)
Definition _mip_model : M (list DecisionTreeRegressorConstr_obj) :=
    let nex := shape0 _input in
    let outdim := shape1 output in
    if negb (outdim =? 1) then
      raise (NoModel (PBoosting predictor)
               ("Can only deal with 1-dimensional regression. Output dimension "
                ++ format_int (Z.of_nat outdim)))
    else
      treevars <- addMVar nex (gb_n_estimators_ predictor) GRB_CONTINUOUS None "estimator" ;;
      estimators <-
        forM (seq 0 (gb_n_estimators_ predictor)) (fun i =>
          tree0 <- lookup (stage i) ;;
          DecisionTreeRegressorConstr default_options tree0 _input (column treevars i)) ;;
      out0 <- lookup (column0 output) ;;
      c <- lookup constant00 ;;
      cs <- checked (compare (of_mvar out0) EQUAL
                       (madd_const (mscale (gb_learning_rate predictor) (sum_axis1 treevars)) c)) ;;
      addConstr cs ;;
      ret estimators.

End MipModel.

End GradientBoosting.

(** [GradientBoostingRegressorConstr.__init__] of [decisiontrees.py] *)
Definition GradientBoostingRegressorConstr (predictor : GradientBoostingRegressor)
    (input_vars output_vars : MVar) : M EnsembleConstr_obj :=
  estimators <- AbstractPredictorConstr_init
                  (GradientBoosting._mip_model predictor) input_vars output_vars ;;
  ret (mkEnsembleConstr 1 estimators).

Module RandomForest.

Section MipModel.

Variable predictor : RandomForestRegressor.
Variables _input output : MVar.

  (** [RandomForestRegressorConstr._mip_model] *)
Definition _mip_model : M (list DecisionTreeRegressorConstr_obj) :=
    let nex := shape0 _input in
    treevars <- addMVar nex (rf_n_estimators predictor) GRB_CONTINUOUS None "estimator" ;;
    estimators <-
      forM (seq 0 (rf_n_estimators predictor)) (fun i =>
        tree <- lookup (Np.index (rf_estimators_ predictor) (Z.of_nat i)) ;;
        DecisionTreeRegressorConstr default_options tree _input (column treevars i)) ;;
    out0 <- lookup (column0 output) ;;
    cs <- checked (compare (mscale (inject_Z (Z.of_nat (rf_n_estimators predictor))) (of_mvar out0))
                     EQUAL (sum_axis1 treevars)) ;;
    addConstr cs ;;
    ret estimators.

End MipModel.

End RandomForest.

(** [RandomForestRegressorConstr.__init__] *)
Definition RandomForestRegressorConstr (predictor : RandomForestRegressor)
    (input_vars output_vars : MVar) : M EnsembleConstr_obj :=
  if negb (rf_n_outputs_ predictor =? 1)%Z then
    raise (NoModel (PForest predictor)
             ("Can only deal with 1-dimensional regression trees. Output dimension "
              ++ format_int (rf_n_outputs_ predictor)))
  else
    estimators <- AbstractPredictorConstr_init
                    (RandomForest._mip_model predictor) input_vars output_vars ;;
    ret (mkEnsembleConstr (rf_n_outputs_ predictor) estimators).

(* ================================================================== *)
(** ** gradient_boosting_regressor.py *)
(* ================================================================== *)

(** [MVar] of three dimensions, as [addMVar((n0, n1, n2), ...)] makes. *)
Record MVar3 := mkMVar3 {
  dim0 : nat;
  dim1 : nat;
  dim2 : nat;
  item3 : nat -> nat -> nat -> var
}.

Definition addMVar3 (n0 n1 n2 : nat) (vt : vtype) (lb : option Q) (name : string)
  : M MVar3 :=
  fun m =>
    let base := length (Vars m) in
    (Ok (mkMVar3 n0 n1 n2 (fun k i j => base + (k * n1 + i) * n2 + j)),
     mkModel (Vars m ++ new_vars vt lb name
                          (fun x => [x / (n1 * n2); (x / n2) mod n1; x mod n2])
                          (n0 * n1 * n2))
             (Constrs m)).

(** [a[:, i, :]] *)
Definition slice1 (a : MVar3) (i : nat) : MVar :=
  mkMVar (dim0 a) (dim2 a) (fun k j => item3 a k i j).

(** [a.sum(axis=1)] *)
Definition sum3_axis1 (a : MVar3) : MLinExpr :=
  mkMLin (dim0 a) (dim2 a)
    (fun k j => Lin.sum (map (fun i => item3 a k i j) (seq 0 (dim1 a)))).

Module GradientBoosting2.

Section MipModel.

  (** The single-tree encoder this module imports from
      [.decision_tree_regressor], which is not among the sources, and the
      keyword arguments handed through to it. *)
Variable Kwargs : Type.
Variable TreeConstr : Type.
Variable add_decision_tree_regressor_constr :
    Kwargs -> DecisionTreeRegressor -> MVar -> MVar -> M TreeConstr.

Variable predictor : GradientBoostingRegressor.
Variables _input output : MVar.
Variable kwargs : Kwargs.

  (** [GradientBoostingRegressorConstr._mip_model] *)
Definition _mip_model : M (list TreeConstr) :=
    let nex := shape0 _input in
    let outdim := shape1 output in
    assert_ (outdim =? 1) ;;
    treevars <- addMVar3 nex (gb_n_estimators_ predictor) 1 GRB_CONTINUOUS None "estimator" ;;
    estimators <-
      forM (seq 0 (gb_n_estimators_ predictor)) (fun i =>
        tree0 <- lookup (GradientBoosting.stage predictor i) ;;
        add_decision_tree_regressor_constr kwargs tree0 _input (slice1 treevars i)) ;;
    c <- lookup (GradientBoosting.constant00 predictor) ;;
    cs <- checked (compare (of_mvar output) EQUAL
                     (madd_const (mscale (gb_learning_rate predictor) (sum3_axis1 treevars)) c)) ;;
    addConstr cs ;;
    ret estimators.

  (** [GradientBoostingRegressorConstr.__init__] *)
Definition GradientBoostingRegressorConstr : M (list TreeConstr) :=
    AbstractPredictorConstr_init (fun _ _ => _mip_model) _input output.

End MipModel.

End GradientBoosting2.

(* ================================================================== *)
(** ** Reference semantics: direct evaluation of a tree *)
(* ================================================================== *)

(** The descent through a tree on one sample: starting from a node, go
    left when the split feature is at most the threshold and right
    otherwise, until a leaf.  [conv] is applied to each threshold before
    the comparison.  [Tree.apply] of scikit-learn is this descent with the
    thresholds as stored, on the sample converted to binary32 ([predict]
    below); the encoding follows it with converted thresholds on the
    values of the input variables. *)
Fixpoint apply_from (conv : Q -> Q) (t : Tree) (X : list Q) (fuel node : nat)
  : option nat :=
  match fuel with
  | 0 => None
  | S fuel' =>
      let? left := Np.index (children_left t) (Z.of_nat node) in
      if (left <? 0)%Z then Some node
      else
        let? right := Np.index (children_right t) (Z.of_nat node) in
        let? f := Np.index (feature t) (Z.of_nat node) in
        let? thr := Np.index (threshold t) (Z.of_nat node) in
        let? x := Np.index X f in
        if Qle_bool x (conv thr)
        then apply_from conv t X fuel' (Z.to_nat left)
        else apply_from conv t X fuel' (Z.to_nat right)
  end.

(** [tree.value[node][0][0]] *)
Definition value00 (t : Tree) (node : nat) : option Q :=
  let? v1 := Np.index (value t) (Z.of_nat node) in
  let? v2 := Np.index v1 0 in
  Np.index v2 0.

Definition predict_with (conv : Q -> Q) (t : Tree) (X : list Q) : option Q :=
  let? leaf := apply_from conv t X (capacity t) 0 in
  value00 t leaf.

(** Direct tree evaluation: scikit-learn converts the sample to binary32
    before it descends the tree. *)
Definition predict (t : Tree) (X : list Q) : option Q :=
  predict_with (fun thr => thr) t (map Np.float32 X).

(** *** Well-formed trees

    The arrays span the nodes; the children of a split node come later in
    the arrays than the node itself (scikit-learn numbers nodes in the order
    it creates them); there is a root; every other node is a child of a split node;
    split features are columns of the input; every node has a value. *)
Definition is_leaf (t : Tree) (n : nat) : bool :=
  (nth n (children_left t) (-1) <? 0)%Z.

Definition child_ok (t : Tree) (n : nat) (c : Z) : bool :=
  (Z.of_nat n <? c)%Z && (c <? Z.of_nat (capacity t))%Z.

Definition node_ok (t : Tree) (n_features : nat) (n : nat) : bool :=
  match value00 t n with Some _ => true | None => false end &&
  (is_leaf t n
   || (child_ok t n (nth n (children_left t) (-1)%Z)
       && child_ok t n (nth n (children_right t) (-1)%Z)
       && (0 <=? nth n (feature t) (-2))%Z
       && (nth n (feature t) (-2) <? Z.of_nat n_features)%Z)).

Definition has_parent (t : Tree) (n : nat) : bool :=
  existsb (fun p =>
             negb (is_leaf t p)
             && ((nth p (children_left t) (-1) =? Z.of_nat n)%Z
                 || (nth p (children_right t) (-1) =? Z.of_nat n)%Z))
          (seq 0 (capacity t)).

Definition tree_wf (t : Tree) (n_features : nat) : bool :=
  (0 <? capacity t)
  && (length (children_left t) =? capacity t)
  && (length (children_right t) =? capacity t)
  && (length (feature t) =? capacity t)
  && (length (threshold t) =? capacity t)
  && forallb (node_ok t n_features) (seq 0 (capacity t))
  && forallb (has_parent t) (seq 1 (capacity t - 1)).

(* ================================================================== *)
(** ** What a run adds to the model *)
(* ================================================================== *)

(** The model after appending constraints. *)
Definition with_constrs (m : Model) (cs : list constr) : Model :=
  mkModel (Vars m) (Constrs m ++ cs).

(** A computation that, when it completes, has appended exactly the
    constraints [o] computes, and that completes exactly when [o] does. *)
Definition emits (c : M unit) (o : option (list constr)) : Prop :=
  forall m u m',
    c m = (Ok u, m') <-> exists cs, o = Some cs /\ m' = with_constrs m cs.

Section TreeConstraints.

Variable self : TreeOptions.
Variable predictor : DecisionTreeRegressor.
Variables _input output : MVar.

Local Abbreviation tree := (tree_ predictor).

(** The constraints one pass of the node loop adds when it completes. *)
Definition node_constraints (nodes : MVar) (node : nat) : option (list constr) :=
  let nex := shape0 _input in
  let? left := Np.index (children_left tree) (Z.of_nat node) in
  let? right := Np.index (children_right tree) (Z.of_nat node) in
  let? t := Np.index (threshold tree) (Z.of_nat node) in
  let threshold := float_type self t in
  if (0 <=? left)%Z then
    let? a := mapM (DecisionTree.branch_indicator predictor _input nodes node left
                      1 LESS_EQUAL (1 * threshold)%Q) (seq 0 nex) in
    let? b := mapM (DecisionTree.branch_indicator predictor _input nodes node right
                      1 GREATER_EQUAL
                      (add_float (float_type self) (1 * threshold)%Q (eps self)))
                   (seq 0 nex) in
    Some (a ++ b)
  else
    mapM (DecisionTree.leaf_indicator predictor output nodes node) (seq 0 nex).

(** [1 / threshold] of one pass of the node loop. *)
Definition node_quotient (node : nat) : option Q :=
  let? t := Np.index (threshold tree) (Z.of_nat node) in
  one_over (float_type self) (float_type self t).

(** The constraints a complete run of the single-tree encoder adds, in the
    order of its statements. *)
Definition tree_constraints (nodes : MVar) : option (list constr) :=
  let? c1 := DecisionTree.parent_ge_child predictor nodes (children_left tree) in
  let? c2 := DecisionTree.parent_ge_child predictor nodes (children_right tree) in
  let? c3 := DecisionTree.parent_le_children predictor nodes in
  let? c4 := DecisionTree.children_exclusive predictor nodes in
  let? css := mapM (node_constraints nodes) (seq 0 (capacity tree)) in
  let? c5 := DecisionTree.one_leaf predictor nodes in
  Some (c1 ++ c2 ++ c3 ++ c4 ++ concat css ++ c5).

(** The node variables a run creates in model [m]. *)
Definition fresh_nodes (m : Model) : MVar :=
  mkMVar (shape0 _input) (capacity tree)
    (fun k j => length (Vars m) + k * capacity tree + j).

(** The declarations of the node variables, [node[k,j]]. *)
Definition node_decls : list vardecl :=
  new_vars GRB_BINARY (Some 0%Q) "node"
    (fun i => [i / capacity tree; i mod capacity tree])
    (shape0 _input * capacity tree).

Definition with_LB (v : Q) (d : vardecl) : vardecl :=
  mkVar (VType d) (Some v) (UB d) (VarName d).

Definition with_UB (v : Q) (d : vardecl) : vardecl :=
  mkVar (VType d) (LB d) (Some v) (VarName d).

(** The variables of the model after a complete run. *)
Definition tree_vars (m : Model) (lo hi : Q) : list vardecl :=
  update_vars output (with_UB hi)
    (update_vars output (with_LB lo)
       (Vars m ++ node_decls)).

End TreeConstraints.

(** No pass of the node loop raises ZeroDivisionError: [1 / threshold] is
    defined at every threshold of the tree. *)
Definition no_zero_division (self : TreeOptions) (t : Tree) : Prop :=
  forall thr, In thr (threshold t) ->
    one_over (float_type self) (float_type self thr) <> None.

(** Children, split feature and converted threshold of a split node of a
    well-formed tree, by position. *)
Definition left_child (t : Tree) (n : nat) : nat :=
  Z.to_nat (nth n (children_left t) (-1)%Z).

Definition right_child (t : Tree) (n : nat) : nat :=
  Z.to_nat (nth n (children_right t) (-1)%Z).

Definition split_feature (t : Tree) (n : nat) : nat :=
  Z.to_nat (nth n (feature t) (-2)%Z).

Definition stored_threshold (t : Tree) (n : nat) : Q :=
  nth n (threshold t) 0%Q.

(** The leaves, in increasing order. *)
Definition leaf_nodes (t : Tree) : list nat :=
  Np.nonzero (map (fun c => (c <? 0)%Z) (children_left t)).

(** Shorthand for the constraints the encoder writes. *)
Definition ge_constr (x y : var) : constr :=
  Linear (mkTemp (Lin.of_var x) GREATER_EQUAL (Lin.of_var y)).

Definition le_sum_constr (x r l : var) : constr :=
  Linear (mkTemp (Lin.of_var x) LESS_EQUAL (Lin.add (Lin.of_var r) (Lin.of_var l))).

Definition sum_le_one_constr (r l : var) : constr :=
  Linear (mkTemp (Lin.add (Lin.of_var r) (Lin.of_var l)) LESS_EQUAL (Lin.of_const 1)).

Definition left_constr (self : TreeOptions) (b x : var) (t : Q) : constr :=
  Indicator b (mkTemp (Lin.scale 1 (Lin.of_var x)) LESS_EQUAL
                 (Lin.of_const (1 * float_type self t)%Q)).

(** The constant of the right branch of a split node with stored
    threshold [t]: the float sum of the converted threshold and [eps]. *)
Definition right_constant (self : TreeOptions) (t : Q) : Q :=
  add_float (float_type self) (1 * float_type self t)%Q (eps self).

Definition right_constr (self : TreeOptions) (b x : var) (t : Q) : constr :=
  Indicator b (mkTemp (Lin.scale 1 (Lin.of_var x)) GREATER_EQUAL
                 (Lin.of_const (right_constant self t))).

Definition leaf_constr (b o : var) (v : Q) : constr :=
  Indicator b (mkTemp (Lin.of_var o) EQUAL (Lin.of_const v)).

Definition one_leaf_constr (xs : list var) : constr :=
  Linear (mkTemp (Lin.sum xs) EQUAL (Lin.of_const 1)).

(** The constraints of the single-tree encoding of a well-formed tree, by
    kind: for every example [k], the four relations between a split node
    and its children, the two branch conditions of a split node, the value
    of a leaf, and the choice of one leaf. *)
Inductive tree_constr (self : TreeOptions) (t : Tree) (_input output nodes : MVar)
  : constr -> Prop :=
| TC_ge_left k n :
    k < shape0 _input -> n < capacity t -> is_leaf t n = false ->
    tree_constr self t _input output nodes
      (ge_constr (item nodes k n) (item nodes k (left_child t n)))
| TC_ge_right k n :
    k < shape0 _input -> n < capacity t -> is_leaf t n = false ->
    tree_constr self t _input output nodes
      (ge_constr (item nodes k n) (item nodes k (right_child t n)))
| TC_le_sum k n :
    k < shape0 _input -> n < capacity t -> is_leaf t n = false ->
    tree_constr self t _input output nodes
      (le_sum_constr (item nodes k n)
         (item nodes k (right_child t n)) (item nodes k (left_child t n)))
| TC_exclusive k n :
    k < shape0 _input -> n < capacity t -> is_leaf t n = false ->
    tree_constr self t _input output nodes
      (sum_le_one_constr
         (item nodes k (right_child t n)) (item nodes k (left_child t n)))
| TC_left k n :
    k < shape0 _input -> n < capacity t -> is_leaf t n = false ->
    tree_constr self t _input output nodes
      (left_constr self (item nodes k (left_child t n))
         (item _input k (split_feature t n)) (stored_threshold t n))
| TC_right k n :
    k < shape0 _input -> n < capacity t -> is_leaf t n = false ->
    tree_constr self t _input output nodes
      (right_constr self (item nodes k (right_child t n))
         (item _input k (split_feature t n)) (stored_threshold t n))
| TC_leaf k n v :
    k < shape0 _input -> n < capacity t -> is_leaf t n = true ->
    value00 t n = Some v ->
    tree_constr self t _input output nodes
      (leaf_constr (item nodes k n) (item output k 0) v)
| TC_one_leaf k :
    k < shape0 _input ->
    tree_constr self t _input output nodes
      (one_leaf_constr (map (item nodes k) (leaf_nodes t))).

(** Every split node is the logical or of its children, which exclude
    each other: for every example, the activation of a split node is the
    maximum of the activations of its two children, and these are not both
    1. *)
Definition or_of_children (t : Tree) (rows : nat) (nodes : MVar) (sigma : var -> Q)
  : Prop :=
  forall k n,
    k < rows -> n < capacity t -> is_leaf t n = false ->
    (sigma (item nodes k n) ==
     Qmax (sigma (item nodes k (left_child t n)))
          (sigma (item nodes k (right_child t n))))%Q /\
    (sigma (item nodes k (left_child t n)) +
     sigma (item nodes k (right_child t n)) <= 1)%Q.

(** The margin is kept: at every split node the constant of the right
    branch lies above the constant of the left branch, the converted
    threshold.  It is lost where the float sum absorbs [eps]. *)
Definition margin_kept (self : TreeOptions) (t : Tree) : Prop :=
  forall n, n < capacity t -> is_leaf t n = false ->
    (float_type self (stored_threshold t n)
     < right_constant self (stored_threshold t n))%Q.

(** The margin is kept with the default options.  The ensemble encoders
    build their members with the defaults, whose float sum depends on the
    NumPy installed: the margin is asked for under the promotion rules of
    NumPy 1 and of NumPy 2. *)
Definition default_margin_kept (t : Tree) : Prop :=
  margin_kept default_options t /\ margin_kept numpy2_options t.

Definition Qsum (l : list Q) : Q := fold_right Qplus 0%Q l.

(** What a solution of a later model still owes to an earlier one: the
    constraints of the earlier model and the binary variables among its
    variables. *)
Definition respects (sigma : var -> Q) (m : Model) : Prop :=
  (forall x d, nth_error (Vars m) x = Some d -> VType d = GRB_BINARY ->
               is_binary (sigma x)) /\
  (forall c, In c (Constrs m) -> sat sigma c).

(** A model that keeps the constraints of [m] and the variables of [m] with
    their types. *)
Definition extends (m m' : Model) : Prop :=
  (forall x d, nth_error (Vars m) x = Some d ->
               exists d', nth_error (Vars m') x = Some d' /\ VType d' = VType d) /\
  (forall c, In c (Constrs m) -> In c (Constrs m')).

(* ================================================================== *)
(** ** Concrete trees and models used in examples *)
(* ================================================================== *)

Module Examples.

(** A model holding one input variable (0) and one output variable (1). *)
Definition m0 : Model :=
  mkModel [mkVar GRB_CONTINUOUS None None "x"; mkVar GRB_CONTINUOUS None None "y"] [].

Definition inp : MVar := mkMVar 1 1 (fun _ _ => 0).
Definition out : MVar := mkMVar 1 1 (fun _ _ => 1).

(** A stump: the root splits feature 0 at [thr]; node 1 is the left leaf,
    node 2 the right leaf; [vroot] is the value stored at the root. *)
Definition stump (thr vroot vleft vright : Q) : Tree :=
  mkTree 3 [1; -1; -1]%Z [2; -1; -1]%Z [0; -2; -2]%Z [thr; (-2)%Q; (-2)%Q]
         [[[vroot]]; [[vleft]]; [[vright]]].

(** A threshold that binary32 represents exactly. *)
Definition exact_tree : DecisionTreeRegressor :=
  mkDecisionTreeRegressor (stump (1 # 2) (3 # 2) 1 2) 1.

(** The midpoint of the neighbouring binary32 values 32 and 32 + 2^-18:
    a binary64 number that [np.float32] rounds down to 32. *)
Definition midpoint : Q := 16777217 # 524288.

Definition midpoint_tree : DecisionTreeRegressor :=
  mkDecisionTreeRegressor (stump midpoint (3 # 2) 1 2) 1.

(** The midpoint of the neighbouring binary32 values 1/2 and 1/2 + 2^-24:
    [np.float32] rounds it down to 1/2, and the float sum with [eps] keeps
    the margin there under the promotion rules of NumPy 1 and NumPy 2. *)
Definition small_midpoint : Q := 16777217 # 33554432.

Definition small_midpoint_tree : DecisionTreeRegressor :=
  mkDecisionTreeRegressor (stump small_midpoint (3 # 2) 1 2) 1.

(** A threshold that binary32 represents exactly and at which the float
    sum absorbs [eps]: 2^40. *)
Definition large_threshold : Q := inject_Z (2 ^ 40).

Definition large_tree : DecisionTreeRegressor :=
  mkDecisionTreeRegressor (stump large_threshold (3 # 2) 1 2) 1.

(** A split at zero. *)
Definition zero_tree : DecisionTreeRegressor :=
  mkDecisionTreeRegressor (stump 0 (3 # 2) 1 2) 1.

(** A stage of a boosted ensemble whose leaves were updated after fitting:
    the root keeps a value outside the range of the leaf values. *)
Definition updated_tree : DecisionTreeRegressor :=
  mkDecisionTreeRegressor (stump (1 # 2) 0 5 7) 1.

(** A tree with two outputs. *)
Definition two_output_tree : DecisionTreeRegressor :=
  mkDecisionTreeRegressor (stump (1 # 2) (3 # 2) 1 2) 2.

(** Values for the variables 0 (input), 1 (output) and 2, 3, 4 (the nodes
    of a stump): an assignment that takes the right branch. *)
Definition goes_right (x y : Q) : var -> Q :=
  fun v =>
    match v with
    | 0 => x
    | 1 => y
    | 2 => 1%Q
    | 3 => 0%Q
    | _ => 1%Q
    end.

Definition goes_left (x y : Q) : var -> Q :=
  fun v =>
    match v with
    | 0 => x
    | 1 => y
    | 2 => 1%Q
    | 3 => 1%Q
    | _ => 0%Q
    end.

(** A forest of two stumps and its encoding. *)
Definition forest : RandomForestRegressor :=
  mkRandomForestRegressor 2 [exact_tree; updated_tree] 1.

Abbreviation forest_run := (RandomForestRegressorConstr forest inp out m0).

Abbreviation forest_model := (snd forest_run).

Abbreviation forest_obj :=
  (match fst forest_run with
   | Ok o => o
   | Raise _ => mkEnsembleConstr 0 []
   end).

(** A boosted ensemble of two stages, learning rate 1/10, initial
    constant 3, and its encodings by the two modules. *)
Definition boosting : GradientBoostingRegressor :=
  mkGradientBoostingRegressor 2 [[exact_tree]; [updated_tree]] (1 # 10) [[3%Q]].

Abbreviation boosting_run := (GradientBoostingRegressorConstr boosting inp out m0).

Abbreviation boosting_model := (snd boosting_run).

Abbreviation boosting_obj :=
  (match fst boosting_run with
   | Ok o => o
   | Raise _ => mkEnsembleConstr 0 []
   end).

Abbreviation boosting2_run :=
  (GradientBoosting2.GradientBoostingRegressorConstr TreeOptions
     DecisionTreeRegressorConstr_obj DecisionTreeRegressorConstr
     boosting inp out default_options m0).

Abbreviation boosting2_model := (snd boosting2_run).

Abbreviation boosting2_estimators :=
  (match fst boosting2_run with
   | Ok o => o
   | Raise _ => @nil DecisionTreeRegressorConstr_obj
   end).

(** An output array with two columns (variables 1 and 0). *)
Definition out2 : MVar := mkMVar 1 2 (fun _ j => 1 - j).

End Examples.

(** The values stored at the leaves of a tree. *)
Definition leaf_values (t : Tree) : list Q :=
  flat_map (fun n => match value00 t n with Some v => [v] | None => [] end)
           (leaf_nodes t).

(** The declarations of the auxiliary variables of the ensemble encoders,
    [estimator[k,i]]. *)
Definition aux_decls (rows cols : nat) : list vardecl :=
  new_vars GRB_CONTINUOUS None "estimator" (fun i => [i / cols; i mod cols])
    (rows * cols).

(** The array [addMVar] returns for a two-dimensional shape in model [m]. *)
Definition fresh_matrix (m : Model) (rows cols : nat) : MVar :=
  mkMVar rows cols (fun k j => length (Vars m) + k * cols + j).



(** The sum of the auxiliary variables of example [k] in a solution. *)
Definition aux_sum (sigma : var -> Q) (cols : nat) (aux : nat -> nat -> var) (k : nat)
  : Q :=
  Qsum (map (fun i => sigma (aux k i)) (seq 0 cols)).


(** The messages of the NoModel errors. *)
Definition tree_shape_message (n : Z) : string :=
  "Can only deal with 1-dimensional regression trees. Output dimension "
  ++ format_int n.

Definition regression_shape_message (n : Z) : string :=
  "Can only deal with 1-dimensional regression. Output dimension "
  ++ format_int n.

(** Whether a run ended without an exception. *)
Definition is_ok {A} (r : result A) : bool :=
  match r with
  | Ok _ => true
  | Raise _ => false
  end.

(* ================================================================== *)
(** ** Further definitions *)
(* ================================================================== *)

(** The encoding of [Examples.exact_tree] in [Examples.m0] and a solution
    of it that follows the left branch. *)
Abbreviation exact_obj :=
  (mkTreeConstr default_options Examples.exact_tree Examples.inp Examples.out 1
     (fresh_nodes Examples.exact_tree Examples.inp Examples.m0)).

Abbreviation exact_model :=
  (snd (DecisionTreeRegressorConstr default_options Examples.exact_tree
          Examples.inp Examples.out Examples.m0)).

Abbreviation left_solution := (Examples.goes_left (1 # 2) 1).

(** What a member tree predicts for the sample [X] when its thresholds are
    converted to binary32, as the ensemble encoders of [decisiontrees.py]
    have the single-tree encoder do. *)
Definition member_prediction (X : list Q) (tree : DecisionTreeRegressor) : Q :=
  match predict_with Np.float32 (tree_ tree) X with
  | Some v => v
  | None => 0%Q
  end.

(** The same for a stage of a boosted ensemble, a row [tree] of
    [estimators_] of which the encoder takes [tree[0]]. *)
Definition stage_prediction (X : list Q) (stage : list DecisionTreeRegressor) : Q :=
  match Np.index stage 0 with
  | Some tree => member_prediction X tree
  | None => 0%Q
  end.

(** A solution of the encoding of [Examples.forest] with the input fixed
    to 1/2: both stumps go left (values 1 and 5), the output is 3.
    Variables 2 and 3 are the auxiliary outputs, 4 to 6 and 7 to 9 the
    nodes of the two stumps. *)
Definition forest_solution : var -> Q :=
  fun v =>
    match v with
    | 0 => (1 # 2)%Q
    | 1 => 3%Q
    | 2 => 1%Q
    | 3 => 5%Q
    | 4 => 1%Q
    | 5 => 1%Q
    | 6 => 0%Q
    | 7 => 1%Q
    | 8 => 1%Q
    | _ => 0%Q
    end.

(** The same for [Examples.boosting]: the output is 3 + (1 + 5) / 10. *)
Definition boosting_solution : var -> Q :=
  fun v =>
    match v with
    | 1 => (18 # 5)%Q
    | _ => forest_solution v
    end.

(** The split nodes of a tree, in increasing order. *)
Definition split_nodes (t : Tree) : list nat :=
  Np.nonzero (map (fun c => (0 <=? c)%Z) (children_left t)).

(* ================================================================== *)
(** ** gradient_boosting_regressor.py: [print_stats] *)
(* ================================================================== *)

Module Report.

Local Open Scope string_scope.

(** [c * n] for a one-character string [c]. *)
Fixpoint times (c : Ascii.ascii) (n : nat) : string :=
  match n with
  | 0 => EmptyString
  | S n' => String c (times c n')
  end.

Definition space : Ascii.ascii := Ascii.Ascii false false false false false true false false.

Inductive align := AlignLeft | AlignRight | AlignCenter.

(** [format(s, spec)] for a string and a spec made of an alignment and a
    width: the string is padded with spaces to the width, never cut; a
    centred string gets the smaller half of the padding on its left. *)
Definition fmt (a : align) (width : nat) (s : string) : string :=
  let pad := width - String.length s in
  match a with
  | AlignLeft => s ++ times space pad
  | AlignRight => times space pad ++ s
  | AlignCenter => times space (pad / 2) ++ s ++ times space (pad - pad / 2)
  end.

Definition newline : string :=
  String (Ascii.Ascii false true false true false false false false) EmptyString.

(** [print(s, file=file)] appends [s] and a newline to the stream. *)
Definition print (s : string) (stream : string) : string := stream ++ s ++ newline.

(** [f"{'Estimator':13} {'Output Shape':>14} {'Variables':>12} {'Constraints':^38}"] *)
Definition header : string :=
  fmt AlignLeft 13 "Estimator" ++ " " ++ fmt AlignRight 14 "Output Shape" ++ " "
  ++ fmt AlignRight 12 "Variables" ++ " " ++ fmt AlignCenter 38 "Constraints".

(** [f"{' '*41} {'Linear':>12} {'Quadratic':>12} {'General':>12}"] *)
Definition subheader : string :=
  times space 41 ++ " " ++ fmt AlignRight 12 "Linear" ++ " "
  ++ fmt AlignRight 12 "Quadratic" ++ " " ++ fmt AlignRight 12 "General".

Definition dash : Ascii.ascii := Ascii.Ascii true false true true false true false false.
Definition equals : Ascii.ascii := Ascii.Ascii true false true true true true false false.

Section PrintStats.

(** What is not among the sources: [print_stats] of the base class, and
    [print_stats] of the recorded single-tree encoders; each writes to the
    stream it is given. *)
Variable Estimator : Type.
Variable super_print_stats : bool -> string -> string.
Variable estimator_print_stats : Estimator -> bool -> string -> string.

(** The loop [for estimator in self.estimators_]. *)
Fixpoint print_estimators (estimators : list Estimator) (stream : string) : string :=
  match estimators with
  | [] => stream
  | estimator :: rest =>
      print_estimators rest
        (print EmptyString (estimator_print_stats estimator true stream))
  end.

(** [GradientBoostingRegressorConstr.print_stats] *)
Definition print_stats (estimators_ : list Estimator) (abbrev : bool)
    (stream : string) : string :=
  let stream := super_print_stats abbrev stream in
  if abbrev then stream
  else
    let stream := print EmptyString stream in
    let stream := print (times dash (String.length header)) stream in
    let stream := print header stream in
    let stream := print subheader stream in
    let stream := print (times equals (String.length header)) stream in
    let stream := print_estimators estimators_ stream in
    print (times dash (String.length header)) stream.

End PrintStats.

(** The text written for the estimators when each abbreviated summary is
    the text [text estimator]: every summary followed by a newline. *)
Fixpoint estimator_lines {Estimator : Type} (text : Estimator -> string)
    (estimators : list Estimator) : string :=
  match estimators with
  | [] => EmptyString
  | estimator :: rest => text estimator ++ newline ++ estimator_lines text rest
  end.

End Report.

(* ================================================================== *)
(** ** The path of a sample *)
(* ================================================================== *)

(** The child [Tree.apply] moves to from a split node. *)
Definition chosen_child (conv : Q -> Q) (t : Tree) (X : list Q) (n : nat) : nat :=
  if Qle_bool (nth (split_feature t n) X 0%Q) (conv (stored_threshold t n))
  then left_child t n
  else right_child t n.

(** The nodes [apply_from] visits, in order. *)
Fixpoint path_from (conv : Q -> Q) (t : Tree) (X : list Q) (fuel node : nat)
  : list nat :=
  match fuel with
  | 0 => []
  | S fuel' =>
      if is_leaf t node then [node]
      else node :: path_from conv t X fuel' (chosen_child conv t X node)
  end.

Definition path (conv : Q -> Q) (t : Tree) (X : list Q) : list nat :=
  path_from conv t X (capacity t) 0.

(** No node is the child of two split nodes or twice the child of one:
    the arrays describe a tree rather than a graph with shared nodes. *)
Definition children_apart (t : Tree) (n n' : nat) : bool :=
  negb (left_child t n =? left_child t n')
  && negb (left_child t n =? right_child t n')
  && negb (right_child t n =? left_child t n')
  && negb (right_child t n =? right_child t n').

Definition distinct_children (t : Tree) : bool :=
  forallb
    (fun n =>
       is_leaf t n
       || (negb (left_child t n =? right_child t n)
           && forallb (fun n' => is_leaf t n' || (n =? n') || children_apart t n n')
                      (seq 0 (capacity t))))
    (seq 0 (capacity t)).

(* ================================================================== *)
(** ** Reasoning about runs *)
(* ================================================================== *)

Lemma bind_Ok {A B} (c : M A) (k : A -> M B) m b m' :
  bind c k m = (Ok b, m') <->
  exists a m1, c m = (Ok a, m1) /\ k a m1 = (Ok b, m').
Proof.
  unfold bind. destruct (c m) as [[a|e] m1]; split.
  - intros H. exists a, m1. auto.
  - intros (a' & m2 & H1 & H2). inversion H1; subst. exact H2.
  - discriminate.
  - intros (a' & m2 & H1 & _). discriminate.
Qed.

Lemma lookup_Ok {A} (o : option A) m a m' :
  lookup o m = (Ok a, m') <-> o = Some a /\ m' = m.
Proof.
  destruct o; simpl; unfold ret, raise; split.
  - intros H; inversion H; auto.
  - intros [H1 H2]; inversion H1; subst; reflexivity.
  - discriminate.
  - intros [H _]; discriminate.
Qed.

Lemma checked_Ok {A} (o : option A) m a m' :
  checked o m = (Ok a, m') <-> o = Some a /\ m' = m.
Proof.
  destruct o; simpl; unfold ret, raise; split.
  - intros H; inversion H; auto.
  - intros [H1 H2]; inversion H1; subst; reflexivity.
  - discriminate.
  - intros [H _]; discriminate.
Qed.

Lemma assert_Ok (b : bool) m u m' :
  assert_ b m = (Ok u, m') <-> b = true /\ m' = m.
Proof.
  destruct b, u; simpl; unfold ret, raise; split.
  - intros H; inversion H; auto.
  - intros [_ ->]; reflexivity.
  - discriminate.
  - intros [H _]; discriminate.
Qed.

Lemma ret_Ok {A} (a : A) m b m' :
  ret a m = (Ok b, m') <-> b = a /\ m' = m.
Proof.
  unfold ret; split.
  - intros H; inversion H; auto.
  - intros [-> ->]; reflexivity.
Qed.

Lemma with_constrs_nil m : with_constrs m [] = m.
Proof. destruct m; unfold with_constrs; simpl. now rewrite app_nil_r. Qed.

Lemma with_constrs_app m cs1 cs2 :
  with_constrs (with_constrs m cs1) cs2 = with_constrs m (cs1 ++ cs2).
Proof. unfold with_constrs; simpl. now rewrite app_assoc. Qed.

Lemma emits_lookup_addConstr (o : option (list constr)) :
  emits (c <- lookup o ;; addConstr c) o.
Proof.
  intros m u m'. rewrite bind_Ok. split.
  - intros (cs & m1 & H1 & H2). apply lookup_Ok in H1 as [-> ->].
    exists cs. split; [reflexivity|]. unfold addConstr in H2. now inversion H2.
  - intros (cs & -> & ->). exists cs, m. split; [reflexivity|].
    destruct u. reflexivity.
Qed.

Lemma emits_seq (c1 c2 : M unit) o1 o2 :
  emits c1 o1 -> emits c2 o2 ->
  emits (c1 ;; c2) (let? a := o1 in let? b := o2 in Some (a ++ b)).
Proof.
  intros E1 E2 m u m'. rewrite bind_Ok. split.
  - intros (u1 & m1 & H1 & H2).
    apply E1 in H1 as (cs1 & -> & ->). apply E2 in H2 as (cs2 & -> & ->).
    exists (cs1 ++ cs2). now rewrite with_constrs_app.
  - intros (cs & H & ->). destruct o1 as [cs1|]; [|discriminate].
    destruct o2 as [cs2|]; [|discriminate]. inversion H; subst.
    exists tt, (with_constrs m cs1). split.
    + apply E1. eauto.
    + apply E2. exists cs2. now rewrite with_constrs_app.
Qed.

Lemma emits_forM_ {A} (body : A -> M unit) (g : A -> option (list constr)) l :
  (forall a, emits (body a) (g a)) ->
  emits (forM_ l body) (let? css := mapM g l in Some (concat css)).
Proof.
  intros E. induction l as [|a l IH]; simpl.
  - intros m u m'. unfold ret. split.
    + intros H; inversion H. exists []. now rewrite with_constrs_nil.
    + intros (cs & H & ->). inversion H. rewrite with_constrs_nil. now destruct u.
  - intros m u m'. pose proof (emits_seq _ _ _ _ (E a) IH m u m') as H.
    rewrite H. clear H. destruct (g a) as [cs1|].
    + destruct (mapM g l) as [css|]; simpl; [reflexivity|].
      split; intros (cs & H & _); discriminate.
    + split; intros (cs & H & _); discriminate.
Qed.

Lemma emits_ext (c : M unit) o1 o2 : o1 = o2 -> emits c o1 -> emits c o2.
Proof. now intros ->. Qed.

Lemma emits_addConstrs {A} (l : list A) (gen : A -> option constr) :
  emits (addConstrs l gen) (mapM gen l).
Proof.
  unfold addConstrs.
  eapply emits_ext;
    [|apply (emits_forM_ _ (fun k => let? c := gen k in Some [c]))].
  - induction l as [|a l IH]; simpl; [reflexivity|].
    destruct (gen a) as [c|]; [|reflexivity].
    destruct (mapM gen l) as [cs|].
    + destruct (mapM _ l) as [css|]; [|discriminate].
      simpl. now inversion IH.
    + destruct (mapM _ l) as [css|]; [discriminate|reflexivity].
  - intros a m u m'. rewrite bind_Ok. split.
    + intros (c & m1 & H1 & H2). apply lookup_Ok in H1 as [-> ->].
      exists [c]. split; [reflexivity|]. unfold addConstr in H2. now inversion H2.
    + intros (cs & H & ->). destruct (gen a) as [c|]; [|discriminate].
      inversion H; subst. exists c, m. split; [reflexivity|]. now destruct u.
Qed.

(** *** [mapM] *)

Lemma mapM_In {A B} (f : A -> option B) l bs :
  mapM f l = Some bs ->
  forall b, In b bs <-> exists a, In a l /\ f a = Some b.
Proof.
  revert bs. induction l as [|a l IH]; simpl; intros bs H b.
  - inversion H; subst. split; [intros []|intros (a & [] & _)].
  - destruct (f a) as [b0|] eqn:Ea; [|discriminate].
    destruct (mapM f l) as [bs0|]; [|discriminate].
    inversion H; subst. simpl. rewrite (IH bs0 eq_refl b). split.
    + intros [<-|(a' & Hin & Hf)]; eauto.
    + intros (a' & [<-|Hin] & Hf); [left; congruence|right; eauto].
Qed.

Lemma mapM_map_Some {A B C} (f : B -> option C) (g : A -> B) (h : A -> C) l :
  (forall a, In a l -> f (g a) = Some (h a)) ->
  mapM f (map g l) = Some (map h l).
Proof.
  induction l as [|a l IH]; simpl; intros H; [reflexivity|].
  rewrite (H a (or_introl eq_refl)), IH; auto.
Qed.

Lemma mapM_Some {A B} (f : A -> option B) (h : A -> B) l :
  (forall a, In a l -> f a = Some (h a)) ->
  mapM f l = Some (map h l).
Proof.
  intros H. rewrite <- (map_id l) at 1. now apply mapM_map_Some.
Qed.

Lemma emits_lookup_bind {A} (o : option A) (k : A -> M unit) g :
  (forall a, emits (k a) (g a)) ->
  emits (a <- lookup o ;; k a) (let? a := o in g a).
Proof.
  intros E m u m'. rewrite bind_Ok. split.
  - intros (a & m1 & H1 & H2). apply lookup_Ok in H1 as [-> ->].
    now apply E in H2.
  - intros (cs & H & ->). destruct o as [a|]; [|discriminate].
    exists a, m. split; [reflexivity|]. apply E. eauto.
Qed.

Lemma emits_quotient_bind {A} (o : option A) (k : A -> M unit) g :
  (forall a, emits (k a) (g a)) ->
  emits (a <- quotient o ;; k a) (let? a := o in g a).
Proof.
  intros E m u m'. rewrite bind_Ok. split.
  - intros (a & m1 & H1 & H2). destruct o as [a'|]; [|discriminate].
    apply ret_Ok in H1 as [-> ->]. now apply E in H2.
  - intros (cs & H & ->). destruct o as [a|]; [|discriminate].
    exists a, m. split; [reflexivity|]. apply E. eauto.
Qed.

Lemma split_node_steps self p inp out nodes node :
  emits (DecisionTree.split_node self p inp out nodes node)
        (let? left := Np.index (children_left (tree_ p)) (Z.of_nat node) in
         let? right := Np.index (children_right (tree_ p)) (Z.of_nat node) in
         let? t := Np.index (threshold (tree_ p)) (Z.of_nat node) in
         let? q := one_over (float_type self) (float_type self t) in
         let threshold := float_type self t in
         if (0 <=? left)%Z then
           let? a := mapM (DecisionTree.branch_indicator p inp nodes node left
                             1 LESS_EQUAL (1 * threshold)%Q) (seq 0 (shape0 inp)) in
           let? b := mapM (DecisionTree.branch_indicator p inp nodes node right
                             1 GREATER_EQUAL
                             (add_float (float_type self) (1 * threshold)%Q (eps self)))
                          (seq 0 (shape0 inp)) in
           Some (a ++ b)
         else
           mapM (DecisionTree.leaf_indicator p out nodes node) (seq 0 (shape0 inp))).
Proof.
  unfold DecisionTree.split_node.
  apply emits_lookup_bind; intros left.
  apply emits_lookup_bind; intros right.
  apply emits_lookup_bind; intros t.
  cbv zeta. apply emits_quotient_bind; intros q.
  destruct (0 <=? left)%Z.
  - apply emits_seq; apply emits_addConstrs.
  - apply emits_addConstrs.
Qed.

(** One pass of the node loop completes when its quotient is defined, and
    then adds the constraints of the node. *)
Lemma split_node_emits self p inp out nodes node :
  emits (DecisionTree.split_node self p inp out nodes node)
        (let? q := node_quotient self p node in
         node_constraints self p inp out nodes node).
Proof.
  eapply emits_ext; [|apply split_node_steps].
  unfold node_quotient, node_constraints.
  destruct (Np.index (children_left (tree_ p)) (Z.of_nat node)) as [left|];
    destruct (Np.index (children_right (tree_ p)) (Z.of_nat node)) as [right|];
    destruct (Np.index (threshold (tree_ p)) (Z.of_nat node)) as [t|];
    try reflexivity;
    destruct (one_over (float_type self) (float_type self t)); reflexivity.
Qed.

(** A guarded loop body completes on a list when the guard and the body
    do on each element. *)
Lemma mapM_guard {A B C} (guard : A -> option C) (f : A -> option B) l bs :
  mapM (fun a => let? q := guard a in f a) l = Some bs <->
  (forall a, In a l -> guard a <> None) /\ mapM f l = Some bs.
Proof.
  revert bs. induction l as [|a l IH]; intros bs; simpl.
  - split; [intros H; split; [intros a []|exact H]|tauto].
  - destruct (guard a) as [q|] eqn:Eg.
    + destruct (f a) as [b|].
      * destruct (mapM (fun a0 => let? q0 := guard a0 in f a0) l) as [bs0|] eqn:E0.
        -- destruct (proj1 (IH bs0) eq_refl) as [Hg Hm]. rewrite Hm.
           split; [intros H; split; [|exact H]|tauto].
           intros a' [<-|Ha]; [congruence|auto].
        -- split; [discriminate|]. intros [Hg Hm].
           destruct (mapM f l) as [bs0|] eqn:Em; [|discriminate].
           assert (H : None = Some bs0); [|discriminate].
           apply IH. split; [auto|reflexivity].
      * split; [discriminate|tauto].
    + split; [discriminate|]. intros [Hg _]. exfalso.
      apply (Hg a); [auto|exact Eg].
Qed.

Lemma addConstr_Ok cs m u m' :
  addConstr cs m = (Ok u, m') <-> m' = with_constrs m cs.
Proof.
  unfold addConstr, with_constrs. destruct u. split.
  - intros H; now inversion H.
  - now intros ->.
Qed.

(** A complete run of the single-tree encoder: what it checks, what it
    returns and the model it leaves. *)
Lemma mip_model_Ok self p inp out m nodes m' :
  DecisionTree._mip_model self p inp out m = (Ok nodes, m') ->
  Z.of_nat (shape1 out) = n_outputs_ p /\
  nodes = fresh_nodes p inp m /\
  exists cs lo hi,
    tree_constraints self p inp out nodes = Some cs /\
    Np.min (Np.ravel (value (tree_ p))) = Some lo /\
    Np.max (Np.ravel (value (tree_ p))) = Some hi /\
    m' = mkModel (tree_vars p inp out m lo hi) (Constrs m ++ cs).
Proof.
  unfold DecisionTree._mip_model, tree_constraints.
  - intros H.
    apply bind_Ok in H as (u0 & m0 & H0 & H). apply assert_Ok in H0 as [Hd ->].
    apply bind_Ok in H as (nd & m1 & H1 & H).
    unfold addMVar in H1. inversion H1; subst nd m1; clear H1.
    fold (fresh_nodes p inp m) in H. set (N := fresh_nodes p inp m) in *.
    apply bind_Ok in H as (c1 & m1 & H1 & H). apply lookup_Ok in H1 as [E1 ->].
    apply bind_Ok in H as (u1 & m1 & H1 & H). apply addConstr_Ok in H1 as ->.
    apply bind_Ok in H as (c2 & m1 & H1 & H). apply lookup_Ok in H1 as [E2 ->].
    apply bind_Ok in H as (u2 & m1 & H1 & H). apply addConstr_Ok in H1 as ->.
    apply bind_Ok in H as (c3 & m1 & H1 & H). apply lookup_Ok in H1 as [E3 ->].
    apply bind_Ok in H as (u3 & m1 & H1 & H). apply addConstr_Ok in H1 as ->.
    apply bind_Ok in H as (c4 & m1 & H1 & H). apply lookup_Ok in H1 as [E4 ->].
    apply bind_Ok in H as (u4 & m1 & H1 & H). apply addConstr_Ok in H1 as ->.
    apply bind_Ok in H as (u5 & m1 & H1 & H).
    apply (emits_forM_ _ _ _ (split_node_emits self p inp out N)) in H1
      as (cs5 & E5 & ->).
    destruct (mapM _ _) as [css|] eqn:Ecss; [|discriminate].
    inversion E5; subst cs5; clear E5.
    apply mapM_guard in Ecss as [_ Ecss].
    apply bind_Ok in H as (c6 & m1 & H1 & H). apply lookup_Ok in H1 as [E6 ->].
    apply bind_Ok in H as (u6 & m1 & H1 & H). apply addConstr_Ok in H1 as ->.
    apply bind_Ok in H as (lo & m1 & H1 & H). apply checked_Ok in H1 as [Elo ->].
    apply bind_Ok in H as (u7 & m1 & H1 & H).
    unfold set_LB in H1. inversion H1; subst u7 m1; clear H1.
    apply bind_Ok in H as (hi & m1 & H1 & H). apply checked_Ok in H1 as [Ehi ->].
    apply bind_Ok in H as (u8 & m1 & H1 & H).
    unfold set_UB in H1. inversion H1; subst u8 m1; clear H1.
    apply ret_Ok in H as [-> ->].
    split; [now apply Z.eqb_eq|]. split; [reflexivity|].
    exists (c1 ++ c2 ++ c3 ++ c4 ++ concat css ++ c6), lo, hi.
    rewrite E1, E2, E3, E4, Ecss, E6.
    split; [reflexivity|]. split; [assumption|]. split; [assumption|].
    unfold tree_vars, with_constrs; simpl. f_equal.
    now rewrite <- !app_assoc.
Qed.

(** Conversely, the run completes when no quotient raises and nothing
    else does. *)
Lemma mip_model_complete self p inp out m cs lo hi :
  (forall node, In node (seq 0 (capacity (tree_ p))) ->
                node_quotient self p node <> None) ->
  Z.of_nat (shape1 out) = n_outputs_ p ->
  tree_constraints self p inp out (fresh_nodes p inp m) = Some cs ->
  Np.min (Np.ravel (value (tree_ p))) = Some lo ->
  Np.max (Np.ravel (value (tree_ p))) = Some hi ->
  DecisionTree._mip_model self p inp out m =
  (Ok (fresh_nodes p inp m),
   mkModel (tree_vars p inp out m lo hi) (Constrs m ++ cs)).
Proof.
  unfold DecisionTree._mip_model, tree_constraints.
  - intros Hq Hd Hcs Elo Ehi.
    set (N := fresh_nodes p inp m) in *.
    destruct (DecisionTree.parent_ge_child p N (children_left (tree_ p))) as [c1|] eqn:E1;
      [|discriminate].
    destruct (DecisionTree.parent_ge_child p N (children_right (tree_ p))) as [c2|] eqn:E2;
      [|discriminate].
    destruct (DecisionTree.parent_le_children p N) as [c3|] eqn:E3; [|discriminate].
    destruct (DecisionTree.children_exclusive p N) as [c4|] eqn:E4; [|discriminate].
    destruct (mapM _ _) as [css|] eqn:Ecss; [|discriminate].
    destruct (DecisionTree.one_leaf p N) as [c6|] eqn:E6; [|discriminate].
    inversion Hcs; subst cs; clear Hcs.
    apply bind_Ok. exists tt, m. split; [apply assert_Ok; split; [now apply Z.eqb_eq|reflexivity]|].
    apply bind_Ok. eexists N, _. split; [reflexivity|].
    apply bind_Ok. eexists c1, _. split; [apply lookup_Ok; split; [exact E1|reflexivity]|].
    apply bind_Ok. eexists tt, _. split; [apply addConstr_Ok; reflexivity|].
    apply bind_Ok. eexists c2, _. split; [apply lookup_Ok; split; [exact E2|reflexivity]|].
    apply bind_Ok. eexists tt, _. split; [apply addConstr_Ok; reflexivity|].
    apply bind_Ok. eexists c3, _. split; [apply lookup_Ok; split; [exact E3|reflexivity]|].
    apply bind_Ok. eexists tt, _. split; [apply addConstr_Ok; reflexivity|].
    apply bind_Ok. eexists c4, _. split; [apply lookup_Ok; split; [exact E4|reflexivity]|].
    apply bind_Ok. eexists tt, _. split; [apply addConstr_Ok; reflexivity|].
    apply bind_Ok. eexists tt, _. split.
    { apply (emits_forM_ _ _ _ (split_node_emits self p inp out N)).
      exists (concat css).
      rewrite (proj2 (mapM_guard _ _ _ css) (conj Hq Ecss)). split; reflexivity. }
    apply bind_Ok. eexists c6, _. split; [apply lookup_Ok; split; [exact E6|reflexivity]|].
    apply bind_Ok. eexists tt, _. split; [apply addConstr_Ok; reflexivity|].
    apply bind_Ok. eexists lo, _. split; [apply checked_Ok; split; [exact Elo|reflexivity]|].
    apply bind_Ok. eexists tt, _. split; [reflexivity|].
    apply bind_Ok. eexists hi, _. split; [apply checked_Ok; split; [exact Ehi|reflexivity]|].
    apply bind_Ok. eexists tt, _. split; [reflexivity|].
    apply ret_Ok. split; [reflexivity|].
    unfold tree_vars, with_constrs; simpl. f_equal.
    now rewrite <- !app_assoc.
Qed.

(** *** Arrays *)

Lemma In_entries rows cols f c :
  In c (entries rows cols f) <->
  exists k j, k < rows /\ j < cols /\ c = f k j.
Proof.
  unfold entries. rewrite in_flat_map. split.
  - intros (k & Hk & Hc). apply in_map_iff in Hc as (j & <- & Hj).
    apply in_seq in Hk, Hj. exists k, j. repeat split; lia.
  - intros (k & j & Hk & Hj & ->). exists k. split.
    + apply in_seq; lia.
    + apply in_map, in_seq; lia.
Qed.

Lemma nonzero_from_In mask s n :
  In n (Np.nonzero_from s mask) <-> s <= n /\ nth (n - s) mask false = true.
Proof.
  revert s. induction mask as [|b mask IH]; intros s; simpl.
  - split; [intros []|]. intros [_ H]. destruct (n - s); discriminate.
  - assert (Hstep : In n (Np.nonzero_from (S s) mask) <->
                    S s <= n /\ nth (n - S s) mask false = true) by apply IH.
    destruct b; simpl; rewrite Hstep; split.
    + intros [<-|[H1 H2]].
      * rewrite Nat.sub_diag. auto.
      * split; [lia|]. replace (n - s) with (S (n - S s)) by lia. exact H2.
    + intros [H1 H2]. destruct (n - s) as [|d] eqn:E.
      * left; lia.
      * right. split; [lia|]. replace (n - S s) with d by lia. exact H2.
    + intros [H1 H2]. split; [lia|].
      replace (n - s) with (S (n - S s)) by lia. exact H2.
    + intros [H1 H2]. destruct (n - s) as [|d] eqn:E; [discriminate|].
      split; [lia|]. replace (n - S s) with d by lia. exact H2.
Qed.

Lemma nonzero_In mask n :
  In n (Np.nonzero mask) <-> nth n mask false = true.
Proof.
  unfold Np.nonzero. rewrite nonzero_from_In, Nat.sub_0_r.
  split; [tauto|]. split; [lia|assumption].
Qed.

Lemma nonzero_lt mask n : In n (Np.nonzero mask) -> n < length mask.
Proof.
  rewrite nonzero_In. intros H.
  destruct (Nat.lt_ge_cases n (length mask)) as [|Hge]; [assumption|].
  rewrite (nth_overflow _ _ Hge) in H. discriminate.
Qed.

Lemma select_from {A} (d : A) mask : forall (a : list A) s,
  length mask = length a ->
  map snd (filter fst (combine mask a)) =
  map (fun n => nth (n - s) a d) (Np.nonzero_from s mask).
Proof.
  induction mask as [|b mask IH]; intros [|x a] s Hlen; simpl in *;
    try discriminate; [reflexivity|].
  injection Hlen as Hlen.
  assert (Htail : map (fun n => nth (n - S s) a d) (Np.nonzero_from (S s) mask) =
                  map (fun n => nth (n - s) (x :: a) d) (Np.nonzero_from (S s) mask)).
  { apply map_ext_in. intros n Hn. apply nonzero_from_In in Hn as [Hn _].
    replace (n - s) with (S (n - S s)) by lia. reflexivity. }
  destruct b; simpl; rewrite (IH a (S s) Hlen), Htail; [|reflexivity].
  now rewrite Nat.sub_diag.
Qed.

Lemma select_nonzero {A} (d : A) (a : list A) mask :
  length mask = length a ->
  Np.select a mask = Some (map (fun n => nth n a d) (Np.nonzero mask)).
Proof.
  intros Hlen. unfold Np.select. rewrite Hlen, Nat.eqb_refl.
  rewrite (select_from d mask a 0 Hlen). f_equal.
  apply map_ext. intros n. now rewrite Nat.sub_0_r.
Qed.

Lemma normalize_index_nonneg n i :
  (0 <= i < Z.of_nat n)%Z -> Np.normalize_index n i = Some (Z.to_nat i).
Proof.
  intros [H1 H2]. unfold Np.normalize_index.
  apply Z.leb_le in H1. apply Z.ltb_lt in H2. now rewrite H1, H2.
Qed.

Lemma normalize_index_nat n j :
  j < n -> Np.normalize_index n (Z.of_nat j) = Some j.
Proof.
  intros H. rewrite normalize_index_nonneg by lia. now rewrite Nat2Z.id.
Qed.

Lemma index_nat {A} (d : A) (a : list A) n :
  n < length a -> Np.index a (Z.of_nat n) = Some (nth n a d).
Proof.
  intros H. unfold Np.index. rewrite normalize_index_nat by assumption.
  now apply nth_error_nth'.
Qed.

Lemma index_nonneg {A} (d : A) (a : list A) i :
  (0 <= i < Z.of_nat (length a))%Z -> Np.index a i = Some (nth (Z.to_nat i) a d).
Proof.
  intros H. rewrite <- (Z2Nat.id i) at 1 by lia. apply index_nat. lia.
Qed.

Lemma mv_get_nonneg a k j :
  k < shape0 a -> (0 <= j < Z.of_nat (shape1 a))%Z ->
  mv_get a k j = Some (item a k (Z.to_nat j)).
Proof.
  intros Hk Hj. unfold mv_get. rewrite normalize_index_nonneg by assumption.
  apply Nat.ltb_lt in Hk. now rewrite Hk.
Qed.

Lemma entries_ext rows cols f g :
  (forall k j, k < rows -> j < cols -> f k j = g k j) ->
  entries rows cols f = entries rows cols g.
Proof.
  intros H. unfold entries.
  assert (G : forall l, (forall k, In k l -> k < rows) ->
              flat_map (fun k => map (f k) (seq 0 cols)) l =
              flat_map (fun k => map (g k) (seq 0 cols)) l).
  { induction l as [|k l IH]; simpl; intros Hl; [reflexivity|].
    rewrite IH by auto. f_equal. apply map_ext_in. intros j Hj.
    apply in_seq in Hj. apply H; [auto|lia]. }
  apply G. intros k Hk. apply in_seq in Hk. lia.
Qed.

(** Entries taken along a list of columns: one per row and listed column. *)
Lemma In_entries_cols rows (cols : list nat) (F : nat -> nat -> constr) c :
  In c (entries rows (length cols) (fun k j => F k (nth j cols 0))) <->
  exists k n, k < rows /\ In n cols /\ c = F k n.
Proof.
  rewrite In_entries. split.
  - intros (k & j & Hk & Hj & ->). exists k, (nth j cols 0).
    repeat split; auto. now apply nth_In.
  - intros (k & n & Hk & Hn & ->).
    destruct (In_nth _ _ 0 Hn) as (j & Hj & <-). exists k, j. auto.
Qed.

Lemma nth_map_lt {A B} (f : A -> B) l n d d' :
  n < length l -> nth n (map f l) d' = f (nth n l d).
Proof.
  intros H. rewrite (nth_indep _ d' (f d)) by now rewrite length_map.
  apply map_nth.
Qed.

(** *** Well-formed trees *)

Section WellFormed.

Variable t : Tree.
Variable n_features : nat.
Hypothesis Hwf : tree_wf t n_features = true.

Lemma wf_parts :
  0 < capacity t /\
  length (children_left t) = capacity t /\
  length (children_right t) = capacity t /\
  length (feature t) = capacity t /\
  length (threshold t) = capacity t /\
  forallb (node_ok t n_features) (seq 0 (capacity t)) = true /\
  forallb (has_parent t) (seq 1 (capacity t - 1)) = true.
Proof.
  unfold tree_wf in Hwf. repeat (apply andb_prop in Hwf as [Hwf ?]).
  repeat split; try (now apply Nat.eqb_eq); try assumption.
  now apply Nat.ltb_lt.
Qed.

Lemma wf_capacity : 0 < capacity t.
Proof. apply wf_parts. Qed.

Lemma wf_length_left : length (children_left t) = capacity t.
Proof. apply wf_parts. Qed.

Lemma wf_length_right : length (children_right t) = capacity t.
Proof. apply wf_parts. Qed.

Lemma wf_length_feature : length (feature t) = capacity t.
Proof. apply wf_parts. Qed.

Lemma wf_length_threshold : length (threshold t) = capacity t.
Proof. apply wf_parts. Qed.

Lemma wf_value n : n < capacity t -> exists v, value00 t n = Some v.
Proof.
  intros Hn. destruct wf_parts as (_ & _ & _ & _ & _ & H & _).
  rewrite forallb_forall in H. specialize (H n). 
  assert (Hin : In n (seq 0 (capacity t))) by (apply in_seq; lia).
  apply H in Hin. unfold node_ok in Hin. apply andb_prop in Hin as [Hv _].
  destruct (value00 t n) as [v|]; [eauto|discriminate].
Qed.

Lemma wf_split n :
  n < capacity t -> is_leaf t n = false ->
  (Z.of_nat n < nth n (children_left t) (-1) < Z.of_nat (capacity t))%Z /\
  (Z.of_nat n < nth n (children_right t) (-1) < Z.of_nat (capacity t))%Z /\
  (0 <= nth n (feature t) (-2) < Z.of_nat n_features)%Z.
Proof.
  intros Hn Hl. destruct wf_parts as (_ & _ & _ & _ & _ & H & _).
  rewrite forallb_forall in H. specialize (H n). 
  assert (Hin : In n (seq 0 (capacity t))) by (apply in_seq; lia).
  apply H in Hin. unfold node_ok in Hin. apply andb_prop in Hin as [_ Hs].
  rewrite Hl in Hs. simpl in Hs. unfold child_ok in Hs.
  repeat (apply andb_prop in Hs as [Hs ?]).
  repeat match goal with
         | H : (_ <? _)%Z = true |- _ => apply Z.ltb_lt in H
         | H : (_ <=? _)%Z = true |- _ => apply Z.leb_le in H
         end.
  lia.
Qed.

Lemma wf_children n :
  n < capacity t -> is_leaf t n = false ->
  n < left_child t n < capacity t /\ n < right_child t n < capacity t /\
  split_feature t n < n_features.
Proof.
  intros Hn Hl. destruct (wf_split n Hn Hl) as (H1 & H2 & H3).
  unfold left_child, right_child, split_feature. lia.
Qed.

Lemma wf_parent n :
  0 < n < capacity t ->
  exists p, p < capacity t /\ is_leaf t p = false /\
            (left_child t p = n \/ right_child t p = n).
Proof.
  intros Hn. destruct wf_parts as (_ & _ & _ & _ & _ & _ & H).
  rewrite forallb_forall in H. specialize (H n).
  assert (Hin : In n (seq 1 (capacity t - 1))) by (apply in_seq; lia).
  apply H in Hin. unfold has_parent in Hin.
  apply existsb_exists in Hin as (p & Hp & Hc). apply in_seq in Hp.
  apply andb_prop in Hc as [Hl Hc]. apply negb_true_iff in Hl.
  exists p. split; [lia|]. split; [assumption|].
  unfold left_child, right_child.
  apply orb_prop in Hc as [Hc|Hc]; apply Z.eqb_eq in Hc; rewrite Hc, Nat2Z.id; auto.
Qed.

Lemma notleafs_In p n :
  tree_ p = t ->
  In n (Np.nonzero (DecisionTree.notleafs p)) <->
  n < capacity t /\ is_leaf t n = false.
Proof.
  intros Ht. rewrite nonzero_In. unfold DecisionTree.notleafs, is_leaf.
  rewrite Ht.
  destruct (Nat.lt_ge_cases n (capacity t)) as [Hlt|Hge].
  - rewrite (nth_map_lt _ _ _ (-1)%Z) by (rewrite wf_length_left; exact Hlt).
    split.
    + intros H. split; [assumption|]. apply Z.leb_le in H. apply Z.ltb_ge. lia.
    + intros [_ H]. apply Z.ltb_ge in H. apply Z.leb_le. lia.
  - rewrite nth_overflow by (rewrite length_map, wf_length_left; exact Hge).
    split; [discriminate|lia].
Qed.

Lemma leaf_nodes_In n :
  In n (leaf_nodes t) <-> n < capacity t /\ is_leaf t n = true.
Proof.
  unfold leaf_nodes. rewrite nonzero_In. unfold is_leaf.
  destruct (Nat.lt_ge_cases n (capacity t)) as [Hlt|Hge].
  - rewrite (nth_map_lt _ _ _ (-1)%Z) by (rewrite wf_length_left; exact Hlt).
    tauto.
  - rewrite nth_overflow by (rewrite length_map, wf_length_left; exact Hge).
    split; [discriminate|lia].
Qed.

End WellFormed.

Lemma map_nth_seq {A B} (f : A -> B) (l : list A) d :
  map (fun j => f (nth j l d)) (seq 0 (length l)) = map f l.
Proof.
  induction l as [|a l IH]; simpl; [reflexivity|].
  f_equal. rewrite <- seq_shift, map_map. exact IH.
Qed.

(** *** The constraints a well-formed tree gives rise to *)

Section WellFormedConstraints.

Variable self : TreeOptions.
Variable p : DecisionTreeRegressor.
Variables inp out nodes : MVar.

Local Abbreviation t := (tree_ p).

Hypothesis Hwf : tree_wf t (shape1 inp) = true.
Hypothesis Hrows : shape0 nodes = shape0 inp.
Hypothesis Hcols : shape1 nodes = capacity t.

Lemma take_mask_notleafs :
  take_mask nodes (DecisionTree.notleafs p) =
  Some (mkMVar (shape0 nodes) (length (Np.nonzero (DecisionTree.notleafs p)))
          (fun k j => item nodes k (nth j (Np.nonzero (DecisionTree.notleafs p)) 0))).
Proof.
  unfold take_mask. unfold DecisionTree.notleafs at 1.
  rewrite length_map, (wf_length_left _ _ Hwf), Hcols, Nat.eqb_refl. reflexivity.
Qed.

Lemma select_children (ch : list Z) :
  length ch = capacity t ->
  Np.select ch (DecisionTree.notleafs p) =
  Some (map (fun n => nth n ch (-1)%Z) (Np.nonzero (DecisionTree.notleafs p))).
Proof.
  intros Hlen. apply select_nonzero. unfold DecisionTree.notleafs.
  now rewrite length_map, (wf_length_left _ _ Hwf), Hlen.
Qed.

Lemma take_children (ch : list Z) :
  (forall n, n < capacity t -> is_leaf t n = false ->
             (0 <= nth n ch (-1) < Z.of_nat (capacity t))%Z) ->
  take_cols nodes
    (map (fun n => nth n ch (-1)%Z) (Np.nonzero (DecisionTree.notleafs p))) =
  Some (mkMVar (shape0 nodes) (length (Np.nonzero (DecisionTree.notleafs p)))
          (fun k j => item nodes k
             (nth j (map (fun n => Z.to_nat (nth n ch (-1)%Z))
                       (Np.nonzero (DecisionTree.notleafs p))) 0))).
Proof.
  intros Hch. unfold take_cols.
  rewrite (mapM_map_Some _ _ (fun n => Z.to_nat (nth n ch (-1)%Z))).
  - now rewrite length_map.
  - intros n Hn. apply (notleafs_In _ _ Hwf p n eq_refl) in Hn as [Hn Hl].
    apply normalize_index_nonneg. rewrite Hcols. now apply Hch.
Qed.

Lemma parent_ge_child_wf (ch : list Z) :
  length ch = capacity t ->
  (forall n, n < capacity t -> is_leaf t n = false ->
             (0 <= nth n ch (-1) < Z.of_nat (capacity t))%Z) ->
  exists cs,
    DecisionTree.parent_ge_child p nodes ch = Some cs /\
    forall c, In c cs <->
      exists k n, k < shape0 inp /\ n < capacity t /\ is_leaf t n = false /\
        c = ge_constr (item nodes k n) (item nodes k (Z.to_nat (nth n ch (-1)%Z))).
Proof.
  intros Hlen Hch. unfold DecisionTree.parent_ge_child.
  rewrite take_mask_notleafs, (select_children ch Hlen), (take_children ch Hch).
  unfold compare, same_shape; simpl. rewrite !Nat.eqb_refl; simpl.
  eexists. split; [reflexivity|]. intros c.
  set (nz := Np.nonzero (DecisionTree.notleafs p)).
  rewrite (entries_ext _ _ _
             (fun k j => (fun k n => ge_constr (item nodes k n)
                            (item nodes k (Z.to_nat (nth n ch (-1)%Z))))
                         k (nth j nz 0))).
  - rewrite (In_entries_cols (shape0 nodes) nz
               (fun k n => ge_constr (item nodes k n)
                             (item nodes k (Z.to_nat (nth n ch (-1)%Z)))) c).
    rewrite Hrows. split.
    + intros (k & n & Hk & Hn & ->).
      apply (notleafs_In _ _ Hwf p n eq_refl) in Hn as [Hn Hl]. eauto 8.
    + intros (k & n & Hk & Hn & Hl & ->). exists k, n.
      repeat split; auto. apply (notleafs_In _ _ Hwf p n eq_refl). auto.
  - intros k j Hk Hj. unfold ge_constr. do 4 f_equal.
    rewrite (nth_map_lt _ _ _ 0) by exact Hj. reflexivity.
Qed.

Lemma children_sum_wf :
  DecisionTree.children_sum p nodes =
  Some (mkMLin (shape0 nodes) (length (Np.nonzero (DecisionTree.notleafs p)))
          (fun k j =>
             Lin.add
               (Lin.of_var (item nodes k
                  (nth j (map (right_child t) (Np.nonzero (DecisionTree.notleafs p))) 0)))
               (Lin.of_var (item nodes k
                  (nth j (map (left_child t) (Np.nonzero (DecisionTree.notleafs p))) 0))))).
Proof.
  unfold DecisionTree.children_sum.
  rewrite (select_children _ (wf_length_right _ _ Hwf)).
  rewrite take_children
    by (intros n Hn Hlf; pose proof (wf_split _ _ Hwf n Hn Hlf); lia).
  rewrite (select_children _ (wf_length_left _ _ Hwf)).
  rewrite take_children
    by (intros n Hn Hlf; pose proof (wf_split _ _ Hwf n Hn Hlf); lia).
  unfold madd, same_shape; simpl. now rewrite !Nat.eqb_refl.
Qed.

Lemma nth_children (f : nat -> nat) j :
  j < length (Np.nonzero (DecisionTree.notleafs p)) ->
  nth j (map f (Np.nonzero (DecisionTree.notleafs p))) 0 =
  f (nth j (Np.nonzero (DecisionTree.notleafs p)) 0).
Proof. intros Hj. now apply nth_map_lt. Qed.

Lemma notleafs_split c (F : nat -> nat -> constr) :
  (exists k n, k < shape0 nodes /\
               In n (Np.nonzero (DecisionTree.notleafs p)) /\ c = F k n) <->
  (exists k n, k < shape0 inp /\ n < capacity t /\ is_leaf t n = false /\
               c = F k n).
Proof.
  rewrite Hrows. split.
  - intros (k & n & Hk & Hn & ->).
    apply (notleafs_In _ _ Hwf p n eq_refl) in Hn as [Hn Hl]. eauto 8.
  - intros (k & n & Hk & Hn & Hl & ->). exists k, n.
    repeat split; auto. apply (notleafs_In _ _ Hwf p n eq_refl). auto.
Qed.

Lemma parent_le_children_wf :
  exists cs,
    DecisionTree.parent_le_children p nodes = Some cs /\
    forall c, In c cs <->
      exists k n, k < shape0 inp /\ n < capacity t /\ is_leaf t n = false /\
        c = le_sum_constr (item nodes k n)
              (item nodes k (right_child t n)) (item nodes k (left_child t n)).
Proof.
  unfold DecisionTree.parent_le_children.
  rewrite take_mask_notleafs, children_sum_wf.
  unfold compare, same_shape; simpl. rewrite !Nat.eqb_refl; simpl.
  eexists. split; [reflexivity|]. intros c.
  set (nz := Np.nonzero (DecisionTree.notleafs p)).
  set (F := fun k n => le_sum_constr (item nodes k n)
              (item nodes k (right_child t n)) (item nodes k (left_child t n))).
  rewrite (entries_ext _ _ _ (fun k j => F k (nth j nz 0))).
  - rewrite (In_entries_cols (shape0 nodes) nz F c). apply notleafs_split.
  - intros k j Hk Hj. unfold F, le_sum_constr. subst nz.
    now rewrite !nth_children by exact Hj.
Qed.

Lemma children_exclusive_wf :
  exists cs,
    DecisionTree.children_exclusive p nodes = Some cs /\
    forall c, In c cs <->
      exists k n, k < shape0 inp /\ n < capacity t /\ is_leaf t n = false /\
        c = sum_le_one_constr
              (item nodes k (right_child t n)) (item nodes k (left_child t n)).
Proof.
  unfold DecisionTree.children_exclusive. rewrite children_sum_wf.
  unfold compare_const; simpl.
  eexists. split; [reflexivity|]. intros c.
  set (nz := Np.nonzero (DecisionTree.notleafs p)).
  set (F := fun k n => sum_le_one_constr
              (item nodes k (right_child t n)) (item nodes k (left_child t n))).
  rewrite (entries_ext _ _ _ (fun k j => F k (nth j nz 0))).
  - rewrite (In_entries_cols (shape0 nodes) nz F c). apply notleafs_split.
  - intros k j Hk Hj. unfold F, sum_le_one_constr. subst nz.
    now rewrite !nth_children by exact Hj.
Qed.

Lemma one_leaf_wf :
  exists cs,
    DecisionTree.one_leaf p nodes = Some cs /\
    forall c, In c cs <->
      exists k, k < shape0 inp /\
        c = one_leaf_constr (map (item nodes k) (leaf_nodes t)).
Proof.
  unfold DecisionTree.one_leaf, take_mask. unfold DecisionTree.leafs at 1.
  rewrite length_map, (wf_length_left _ _ Hwf), Hcols, Nat.eqb_refl.
  eexists. split; [reflexivity|]. intros c.
  unfold compare_const, sum_axis1; simpl. rewrite In_entries.
  fold (leaf_nodes t). rewrite Hrows. split.
  - intros (k & j & Hk & Hj & ->). exists k. split; [assumption|].
    unfold one_leaf_constr. now rewrite (map_nth_seq (item nodes k)).
  - intros (k & Hk & ->). exists k, 0. repeat split; [assumption|lia|].
    unfold one_leaf_constr. now rewrite (map_nth_seq (item nodes k)).
Qed.

Hypothesis Hout_rows : shape0 inp <= shape0 out.
Hypothesis Hout_cols : 0 < shape1 out.

Lemma node_constraints_wf n :
  n < capacity t ->
  node_constraints self p inp out nodes n =
  Some (if is_leaf t n
        then map (fun k => match value00 t n with
                           | Some v => leaf_constr (item nodes k n) (item out k 0) v
                           | None => leaf_constr (item nodes k n) (item out k 0) 0
                           end) (seq 0 (shape0 inp))
        else map (fun k => left_constr self (item nodes k (left_child t n))
                             (item inp k (split_feature t n)) (stored_threshold t n))
                 (seq 0 (shape0 inp))
             ++ map (fun k => right_constr self (item nodes k (right_child t n))
                             (item inp k (split_feature t n)) (stored_threshold t n))
                 (seq 0 (shape0 inp))).
Proof.
  intros Hn. unfold node_constraints.
  rewrite (index_nat (-1)%Z) by (now rewrite (wf_length_left _ _ Hwf)).
  rewrite (index_nat (-1)%Z) by (now rewrite (wf_length_right _ _ Hwf)).
  rewrite (index_nat 0%Q) by (now rewrite (wf_length_threshold _ _ Hwf)).
  cbv zeta. fold (stored_threshold t n).
  destruct (is_leaf t n) eqn:Hl.
  - unfold is_leaf in Hl. apply Z.ltb_lt in Hl.
    destruct (0 <=? nth n (children_left t) (-1))%Z eqn:Hc;
      [apply Z.leb_le in Hc; lia|].
    apply mapM_Some. intros k Hk. apply in_seq in Hk.
    unfold DecisionTree.leaf_indicator.
    rewrite <- (Nat2Z.id n) at 2.
    rewrite mv_get_nonneg by (rewrite ?Hrows, ?Hcols; lia).
    rewrite Nat2Z.id.
    rewrite mv_get_nonneg by lia. simpl.
    destruct (wf_value _ _ Hwf n Hn) as (v & Hv). rewrite Hv.
    unfold value00 in Hv.
    destruct (Np.index (value t) (Z.of_nat n)) as [v1|]; [|discriminate].
    destruct (Np.index v1 0) as [v2|]; [|discriminate].
    now rewrite Hv.
  - destruct (wf_split _ _ Hwf n Hn Hl) as (H1 & H2 & H3).
    destruct (wf_children _ _ Hwf n Hn Hl) as (G1 & G2 & G3).
    destruct (0 <=? nth n (children_left t) (-1))%Z eqn:Hc;
      [|apply Z.leb_gt in Hc; lia].
    rewrite (mapM_Some _ (fun k => left_constr self (item nodes k (left_child t n))
                             (item inp k (split_feature t n)) (stored_threshold t n))).
    + rewrite (mapM_Some _ (fun k => right_constr self (item nodes k (right_child t n))
                             (item inp k (split_feature t n)) (stored_threshold t n))).
      * reflexivity.
      * intros k Hk. apply in_seq in Hk. unfold DecisionTree.branch_indicator.
        rewrite mv_get_nonneg by (rewrite ?Hrows, ?Hcols; lia).
        rewrite (index_nat (-2)%Z) by (now rewrite (wf_length_feature _ _ Hwf)).
        rewrite mv_get_nonneg by lia. reflexivity.
    + intros k Hk. apply in_seq in Hk. unfold DecisionTree.branch_indicator.
      rewrite mv_get_nonneg by (rewrite ?Hrows, ?Hcols; lia).
      rewrite (index_nat (-2)%Z) by (now rewrite (wf_length_feature _ _ Hwf)).
      rewrite mv_get_nonneg by lia. reflexivity.
Qed.

(** A run on a well-formed tree adds exactly the constraints of
    [tree_constr]. *)
Lemma tree_constraints_wf :
  exists cs,
    tree_constraints self p inp out nodes = Some cs /\
    forall c, In c cs <-> tree_constr self t inp out nodes c.
Proof.
  unfold tree_constraints.
  destruct (parent_ge_child_wf (children_left t) (wf_length_left _ _ Hwf))
    as (c1 & E1 & I1).
  { intros n Hn Hl. pose proof (wf_split _ _ Hwf n Hn Hl). lia. }
  destruct (parent_ge_child_wf (children_right t) (wf_length_right _ _ Hwf))
    as (c2 & E2 & I2).
  { intros n Hn Hl. pose proof (wf_split _ _ Hwf n Hn Hl). lia. }
  destruct parent_le_children_wf as (c3 & E3 & I3).
  destruct children_exclusive_wf as (c4 & E4 & I4).
  destruct one_leaf_wf as (c5 & E5 & I5).
  rewrite E1, E2, E3, E4, E5.
  rewrite (mapM_Some _ (fun n =>
             if is_leaf t n
             then map (fun k => match value00 t n with
                                | Some v => leaf_constr (item nodes k n) (item out k 0) v
                                | None => leaf_constr (item nodes k n) (item out k 0) 0
                                end) (seq 0 (shape0 inp))
             else map (fun k => left_constr self (item nodes k (left_child t n))
                                  (item inp k (split_feature t n)) (stored_threshold t n))
                      (seq 0 (shape0 inp))
                  ++ map (fun k => right_constr self (item nodes k (right_child t n))
                                  (item inp k (split_feature t n)) (stored_threshold t n))
                      (seq 0 (shape0 inp))))
    by (intros n Hn; apply in_seq in Hn; apply node_constraints_wf; lia).
  eexists. split; [reflexivity|]. intros c.
  rewrite !in_app_iff, I1, I2, I3, I4, I5, in_concat. split.
  - intros [H|[H|[H|[H|[H|H]]]]].
    + destruct H as (k & n & Hk & Hn & Hl & ->). now apply TC_ge_left.
    + destruct H as (k & n & Hk & Hn & Hl & ->). now apply TC_ge_right.
    + destruct H as (k & n & Hk & Hn & Hl & ->). now apply TC_le_sum.
    + destruct H as (k & n & Hk & Hn & Hl & ->). now apply TC_exclusive.
    + destruct H as (l & Hl & Hc). apply in_map_iff in Hl as (n & <- & Hn).
      apply in_seq in Hn. destruct (is_leaf t n) eqn:Hlf.
      * apply in_map_iff in Hc as (k & <- & Hk). apply in_seq in Hk.
        destruct (wf_value _ _ Hwf n) as (v & Hv); [lia|]. rewrite Hv.
        apply TC_leaf; auto; lia.
      * apply in_app_iff in Hc as [Hc|Hc];
          apply in_map_iff in Hc as (k & <- & Hk); apply in_seq in Hk.
        -- apply TC_left; auto; lia.
        -- apply TC_right; auto; lia.
    + destruct H as (k & Hk & ->). now apply TC_one_leaf.
  - intros H. destruct H as [k n Hk Hn Hl|k n Hk Hn Hl|k n Hk Hn Hl|k n Hk Hn Hl
                            |k n Hk Hn Hl|k n Hk Hn Hl|k n v Hk Hn Hl Hv|k Hk].
    + left. eauto 8.
    + right; left. eauto 8.
    + right; right; left. eauto 8.
    + right; right; right; left. eauto 8.
    + right; right; right; right; left. eexists. split.
      * apply in_map_iff. exists n. split; [reflexivity|]. apply in_seq; lia.
      * cbv beta. rewrite Hl. apply in_app_iff. left.
        apply in_map_iff. exists k. split; [reflexivity|]. apply in_seq; lia.
    + right; right; right; right; left. eexists. split.
      * apply in_map_iff. exists n. split; [reflexivity|]. apply in_seq; lia.
      * cbv beta. rewrite Hl. apply in_app_iff. right.
        apply in_map_iff. exists k. split; [reflexivity|]. apply in_seq; lia.
    + right; right; right; right; left. eexists. split.
      * apply in_map_iff. exists n. split; [reflexivity|]. apply in_seq; lia.
      * cbv beta. rewrite Hl, Hv.
        apply in_map_iff. exists k. split; [reflexivity|]. apply in_seq; lia.
    + right; right; right; right; right. eauto.
Qed.

End WellFormedConstraints.

(** *** What the constraints say about a solution *)

Section Satisfaction.

Variable sigma : var -> Q.

Lemma eval_sum xs : (eval sigma (Lin.sum xs) == Qsum (map sigma xs))%Q.
Proof.
  unfold eval, Lin.sum; simpl.
  assert (H : (eval_terms sigma (map (fun x => (1%Q, x)) xs) == Qsum (map sigma xs))%Q).
  { induction xs as [|x xs IH]; simpl; [reflexivity|]. rewrite IH. ring. }
  rewrite H. ring.
Qed.

Lemma sat_ge x y : sat sigma (ge_constr x y) <-> (sigma y <= sigma x)%Q.
Proof. unfold ge_constr, sat, holds, eval; simpl. split; intros; lra. Qed.

Lemma sat_le_sum x r l :
  sat sigma (le_sum_constr x r l) <-> (sigma x <= sigma r + sigma l)%Q.
Proof. unfold le_sum_constr, sat, holds, eval; simpl. split; intros; lra. Qed.

Lemma sat_sum_le_one r l :
  sat sigma (sum_le_one_constr r l) <-> (sigma r + sigma l <= 1)%Q.
Proof. unfold sum_le_one_constr, sat, holds, eval; simpl. split; intros; lra. Qed.

Lemma sat_left self b x t :
  sat sigma (left_constr self b x t) <->
  ((sigma b == 1)%Q -> (sigma x <= float_type self t)%Q).
Proof.
  unfold left_constr, sat, holds, eval. cbn [csense lhs rhs terms constant
    Lin.scale Lin.of_var Lin.of_const map eval_terms fold_right fst snd].
  generalize (convert (float_type self) t). intros T.
  split; intros H Hb; specialize (H Hb); lra.
Qed.

Lemma sat_right self b x t :
  sat sigma (right_constr self b x t) <->
  ((sigma b == 1)%Q -> (right_constant self t <= sigma x)%Q).
Proof.
  unfold right_constr, sat, holds, eval. cbn [csense lhs rhs terms constant
    Lin.scale Lin.of_var Lin.of_const map eval_terms fold_right fst snd].
  generalize (right_constant self t). intros R.
  split; intros H Hb; specialize (H Hb); lra.
Qed.

Lemma sat_leaf b o v :
  sat sigma (leaf_constr b o v) <-> ((sigma b == 1)%Q -> (sigma o == v)%Q).
Proof.
  unfold leaf_constr, sat, holds, eval; simpl.
  split; intros H Hb; specialize (H Hb); lra.
Qed.

Lemma sat_one_leaf xs :
  sat sigma (one_leaf_constr xs) <-> (Qsum (map sigma xs) == 1)%Q.
Proof.
  unfold one_leaf_constr, sat, holds. cbn [csense lhs rhs].
  rewrite eval_sum. unfold eval; simpl. split; intros; lra.
Qed.

Lemma binary_cases q : is_binary q -> (q == 0)%Q \/ (q == 1)%Q.
Proof. auto. Qed.

(** Binary values that add up to one: one of them is one. *)
Lemma Qsum_binary_one {A} (f : A -> Q) (l : list A) :
  (forall a, In a l -> is_binary (f a)) ->
  (Qsum (map f l) == 1)%Q ->
  exists a, In a l /\ (f a == 1)%Q.
Proof.
  induction l as [|a l IH]; simpl; intros Hb Hs.
  - lra.
  - destruct (Hb a (or_introl eq_refl)) as [H0|H1].
    + destruct IH as (a' & Hin & Ha'); [auto| lra |eauto].
    + eauto.
Qed.

(** ... and all the others are zero. *)
Lemma Qsum_binary_nonneg {A} (f : A -> Q) (l : list A) :
  (forall a, In a l -> is_binary (f a)) -> (0 <= Qsum (map f l))%Q.
Proof.
  induction l as [|a l IH]; simpl; intros Hb; [lra|].
  specialize (IH (fun a' H => Hb a' (or_intror H))).
  destruct (Hb a (or_introl eq_refl)); lra.
Qed.

Lemma Qsum_binary_unique {A} (f : A -> Q) (l : list A) :
  NoDup l ->
  (forall a, In a l -> is_binary (f a)) ->
  (Qsum (map f l) == 1)%Q ->
  forall a b, In a l -> In b l -> (f a == 1)%Q -> (f b == 1)%Q -> a = b.
Proof.
  induction l as [|x l IH]; simpl; intros Hnd Hb Hs a b Ha Hb' Fa Fb; [tauto|].
  inversion Hnd as [|? ? Hx Hnd']; subst.
  pose proof (Qsum_binary_nonneg f l (fun a' H => Hb a' (or_intror H))) as Hnn.
  assert (Hone : forall c, In c l -> (f c == 1)%Q -> (f x == 0)%Q /\ (Qsum (map f l) == 1)%Q).
  { intros c Hc Fc.
    assert (Hge : (1 <= Qsum (map f l))%Q).
    { clear - Hc Fc Hb. induction l as [|y l IHl]; simpl in *; [tauto|].
      pose proof (Qsum_binary_nonneg f l (fun a' H => Hb a' (or_intror (or_intror H)))).
      destruct Hc as [->|Hc].
      - lra.
      - assert (1 <= Qsum (map f l))%Q.
        { apply IHl; auto. intros a' [H'|H']; auto. }
        destruct (Hb y (or_intror (or_introl eq_refl))); lra. }
    destruct (Hb x (or_introl eq_refl)); lra. }
  destruct Ha as [<-|Ha], Hb' as [<-|Hb'].
  - reflexivity.
  - destruct (Hone b Hb' Fb). lra.
  - destruct (Hone a Ha Fa). lra.
  - destruct (Hone a Ha Fa) as [_ Hs']. apply IH; auto.
Qed.

End Satisfaction.

(** *** Routing: the active nodes are the path of the sample *)

Section Routing.

Variable t : Tree.
Variable n_features : nat.
Hypothesis Hwf : tree_wf t n_features = true.

Variable conv : Q -> Q.
Variable right_of : Q -> Q.
Variable act : nat -> Q.
Variable X : list Q.
Variable y : Q.

Hypothesis HX : length X = n_features.
Hypothesis Hmargin : forall n,
  n < capacity t -> is_leaf t n = false ->
  (conv (stored_threshold t n) < right_of (stored_threshold t n))%Q.
Hypothesis Hbin : forall n, n < capacity t -> is_binary (act n).
Hypothesis Hge_left : forall n,
  n < capacity t -> is_leaf t n = false -> (act (left_child t n) <= act n)%Q.
Hypothesis Hge_right : forall n,
  n < capacity t -> is_leaf t n = false -> (act (right_child t n) <= act n)%Q.
Hypothesis Hle_sum : forall n,
  n < capacity t -> is_leaf t n = false ->
  (act n <= act (right_child t n) + act (left_child t n))%Q.
Hypothesis Hleft : forall n,
  n < capacity t -> is_leaf t n = false ->
  (act (left_child t n) == 1)%Q ->
  (nth (split_feature t n) X 0 <= conv (stored_threshold t n))%Q.
Hypothesis Hright : forall n,
  n < capacity t -> is_leaf t n = false ->
  (act (right_child t n) == 1)%Q ->
  (right_of (stored_threshold t n) <= nth (split_feature t n) X 0)%Q.
Hypothesis Hleaf : forall n v,
  n < capacity t -> is_leaf t n = true -> value00 t n = Some v ->
  (act n == 1)%Q -> (y == v)%Q.
Hypothesis Hone : (Qsum (map act (leaf_nodes t)) == 1)%Q.

Lemma some_leaf_active : exists n, n < capacity t /\ (act n == 1)%Q.
Proof.
  destruct (Qsum_binary_one act (leaf_nodes t)) as (n & Hn & Ha).
  - intros n Hn. apply (leaf_nodes_In _ _ Hwf) in Hn. now apply Hbin.
  - exact Hone.
  - apply (leaf_nodes_In _ _ Hwf) in Hn. exists n. tauto.
Qed.

Lemma active_up n : n < capacity t -> (act n == 1)%Q -> (act 0 == 1)%Q.
Proof.
  induction n as [n IH] using (well_founded_induction lt_wf). intros Hn Ha.
  destruct n as [|n']; [exact Ha|].
  destruct (wf_parent _ _ Hwf (S n')) as (q & Hq & Hl & Hc); [lia|].
  destruct (wf_children _ _ Hwf q Hq Hl) as (G1 & G2 & _).
  assert (Hact : (act q == 1)%Q).
  { destruct (Hbin q Hq) as [H0|H1]; [|exact H1].
    destruct Hc as [Hc|Hc].
    - pose proof (Hge_left q Hq Hl) as H. rewrite Hc in H. lra.
    - pose proof (Hge_right q Hq Hl) as H. rewrite Hc in H. lra. }
  apply (IH q); [destruct Hc; lia|assumption|assumption].
Qed.

Lemma root_active : (act 0 == 1)%Q.
Proof.
  destruct some_leaf_active as (n & Hn & Ha). exact (active_up n Hn Ha).
Qed.

Lemma descend fuel : forall n,
  n < capacity t -> capacity t - n <= fuel -> (act n == 1)%Q ->
  exists leaf v,
    apply_from conv t X fuel n = Some leaf /\
    value00 t leaf = Some v /\ (y == v)%Q.
Proof.
  induction fuel as [|fuel IH]; intros n Hn Hf Ha; [lia|].
  simpl.
  rewrite (index_nat (-1)%Z) by (now rewrite (wf_length_left _ _ Hwf)).
  destruct (nth n (children_left t) (-1) <? 0)%Z eqn:Hl.
  - destruct (wf_value _ _ Hwf n Hn) as (v & Hv).
    exists n, v. split; [reflexivity|]. split; [assumption|].
    now apply (Hleaf n v).
  - fold (is_leaf t n) in Hl.
    destruct (wf_split _ _ Hwf n Hn Hl) as (S1 & S2 & S3).
    destruct (wf_children _ _ Hwf n Hn Hl) as (G1 & G2 & G3).
    rewrite (index_nat (-1)%Z) by (now rewrite (wf_length_right _ _ Hwf)).
    rewrite (index_nat (-2)%Z) by (now rewrite (wf_length_feature _ _ Hwf)).
    rewrite (index_nat 0%Q) by (now rewrite (wf_length_threshold _ _ Hwf)).
    rewrite (index_nonneg 0%Q) by (rewrite HX; lia).
    fold (split_feature t n) (stored_threshold t n)
         (left_child t n) (right_child t n).
    pose proof (Hle_sum n Hn Hl) as Hsum.
    pose proof (Hmargin n Hn Hl) as Hm.
    destruct (Qle_bool (nth (split_feature t n) X 0%Q)
                       (conv (stored_threshold t n))) eqn:Hc.
    + apply Qle_bool_iff in Hc. apply IH; [lia|lia|].
      destruct (Hbin (right_child t n)) as [R0|R1]; [lia| |].
      * destruct (Hbin (left_child t n)) as [L0|L1]; [lia| |assumption]. lra.
      * pose proof (Hright n Hn Hl R1). lra.
    + assert (Hgt : ~ (nth (split_feature t n) X 0%Q
                         <= conv (stored_threshold t n))%Q).
      { intros H. apply Qle_bool_iff in H. congruence. }
      apply IH; [lia|lia|].
      destruct (Hbin (left_child t n)) as [L0|L1]; [lia| |].
      * destruct (Hbin (right_child t n)) as [R0|R1]; [lia| |assumption]. lra.
      * pose proof (Hleft n Hn Hl L1). tauto.
Qed.

(** The output is the value of the leaf the sample reaches. *)
Lemma routed :
  exists v, predict_with conv t X = Some v /\ (y == v)%Q.
Proof.
  destruct (descend (capacity t) 0) as (leaf & v & Ha & Hv & Hy).
  - exact (wf_capacity _ _ Hwf).
  - lia.
  - exact root_active.
  - exists v. unfold predict_with. rewrite Ha. auto.
Qed.

End Routing.

(** *** Variables and extensions of a model *)

Lemma nth_error_combine_seq {A} (ds : list A) : forall s x,
  nth_error (combine (seq s (length ds)) ds) x =
  option_map (fun d => (s + x, d)) (nth_error ds x).
Proof.
  induction ds as [|d ds IH]; intros s [|x]; simpl; try reflexivity.
  - now rewrite Nat.add_0_r.
  - rewrite IH. destruct (nth_error ds x); simpl; [|reflexivity].
    do 2 f_equal. lia.
Qed.

Lemma nth_error_update_vars a f ds x :
  nth_error (update_vars a f ds) x =
  option_map (fun d => if mvar_mem a x then f d else d) (nth_error ds x).
Proof.
  unfold update_vars. rewrite nth_error_map, nth_error_combine_seq.
  destruct (nth_error ds x); reflexivity.
Qed.

Lemma extends_refl m : extends m m.
Proof. split; eauto. Qed.

Lemma extends_trans m1 m2 m3 : extends m1 m2 -> extends m2 m3 -> extends m1 m3.
Proof.
  intros [V1 C1] [V2 C2]. split; [|auto].
  intros x d Hd. destruct (V1 x d Hd) as (d1 & H1 & T1).
  destruct (V2 x d1 H1) as (d2 & H2 & T2). exists d2. split; congruence.
Qed.

Lemma feasible_respects sigma m m' :
  extends m m' -> feasible sigma m' -> respects sigma m.
Proof.
  intros [V C] [FV FC]. split; [|auto].
  intros x d Hd Hb. destruct (V x d Hd) as (d' & Hd' & Ht).
  destruct (FV x d' Hd') as (_ & _ & H). rewrite Ht, Hb in H. exact H.
Qed.

Lemma length_new_vars vt lb name index n :
  length (new_vars vt lb name index n) = n.
Proof. unfold new_vars. now rewrite length_map, length_seq. Qed.

Lemma nth_error_new_vars vt lb name index n i :
  i < n ->
  nth_error (new_vars vt lb name index n) i =
  Some (mkVar vt lb (default_ub vt) (subscript name (index i))).
Proof.
  intros Hi. unfold new_vars. rewrite nth_error_map, nth_error_seq.
  apply Nat.ltb_lt in Hi. now rewrite Hi.
Qed.

Lemma In_new_vars vt lb name index n d :
  In d (new_vars vt lb name index n) ->
  VType d = vt /\ LB d = lb /\ UB d = default_ub vt.
Proof.
  unfold new_vars. intros H. apply in_map_iff in H as (i & <- & _). auto.
Qed.

Lemma tree_vars_nth p inp out m lo hi x :
  nth_error (tree_vars p inp out m lo hi) x =
  option_map (fun d => if mvar_mem out x then with_UB hi (with_LB lo d) else d)
    (nth_error (Vars m ++ node_decls p inp) x).
Proof.
  unfold tree_vars. rewrite !nth_error_update_vars.
  destruct (nth_error _ x); simpl; [|reflexivity].
  now destruct (mvar_mem out x).
Qed.

Lemma tree_vars_extends p inp out m lo hi cs :
  extends m (mkModel (tree_vars p inp out m lo hi) (Constrs m ++ cs)).
Proof.
  split; simpl.
  - intros x d Hd. rewrite tree_vars_nth.
    rewrite nth_error_app1 by (apply nth_error_Some; congruence).
    rewrite Hd. simpl. eexists. split; [reflexivity|].
    now destruct (mvar_mem out x).
  - intros c Hc. apply in_app_iff. auto.
Qed.

Lemma fresh_nodes_binary p inp out m lo hi k n :
  k < shape0 inp -> n < capacity (tree_ p) ->
  exists d,
    nth_error (tree_vars p inp out m lo hi) (item (fresh_nodes p inp m) k n) = Some d /\
    VType d = GRB_BINARY.
Proof.
  intros Hk Hn. rewrite tree_vars_nth. simpl.
  rewrite nth_error_app2 by lia.
  replace (length (Vars m) + k * capacity (tree_ p) + n - length (Vars m))
    with (k * capacity (tree_ p) + n) by lia.
  assert (Hlt : k * capacity (tree_ p) + n < shape0 inp * capacity (tree_ p)) by nia.
  unfold node_decls. rewrite nth_error_new_vars by exact Hlt.
  simpl. eexists. split; [reflexivity|].
  now destruct (mvar_mem out _).
Qed.

(** *** The constructor of the single-tree encoder *)

Lemma DecisionTreeRegressorConstr_Ok self p inp out m obj m' :
  DecisionTreeRegressorConstr self p inp out m = (Ok obj, m') <->
  n_outputs_ p = 1%Z /\
  DecisionTree._mip_model self p inp out m = (Ok (nodevars obj), m') /\
  obj = mkTreeConstr self p inp out (n_outputs_ p) (nodevars obj).
Proof.
  unfold DecisionTreeRegressorConstr, AbstractPredictorConstr_init.
  destruct (n_outputs_ p =? 1)%Z eqn:E; simpl.
  - apply Z.eqb_eq in E. rewrite bind_Ok. split.
    + intros (nodes & m1 & H1 & H2). apply ret_Ok in H2 as [-> ->].
      simpl. auto.
    + intros (_ & H & ->). simpl in *. eexists _, _. split; [exact H|].
      reflexivity.
  - apply Z.eqb_neq in E. unfold raise. split; [discriminate|tauto].
Qed.

(** A complete construction on a well-formed tree, with matching shapes. *)
Lemma DecisionTreeRegressorConstr_wf self p inp out m :
  tree_wf (tree_ p) (shape1 inp) = true ->
  n_outputs_ p = 1%Z -> shape1 out = 1 -> shape0 inp <= shape0 out ->
  no_zero_division self (tree_ p) ->
  exists cs lo hi,
    DecisionTreeRegressorConstr self p inp out m =
      (Ok (mkTreeConstr self p inp out 1 (fresh_nodes p inp m)),
       mkModel (tree_vars p inp out m lo hi) (Constrs m ++ cs)) /\
    Np.min (Np.ravel (value (tree_ p))) = Some lo /\
    Np.max (Np.ravel (value (tree_ p))) = Some hi /\
    forall c, In c cs <->
      tree_constr self (tree_ p) inp out (fresh_nodes p inp m) c.
Proof.
  intros Hwf Hno Hcols Hrows Hdiv.
  destruct (tree_constraints_wf self p inp out (fresh_nodes p inp m) Hwf)
    as (cs & Hcs & Hin); try reflexivity; try lia.
  assert (Hne : Np.ravel (value (tree_ p)) <> []).
  { destruct (wf_value _ _ Hwf 0 (wf_capacity _ _ Hwf)) as (v & Hv).
    unfold value00, Np.index in Hv.
    destruct (Np.normalize_index _ _) as [j1|]; [|discriminate].
    destruct (nth_error (value (tree_ p)) j1) as [v1|] eqn:E1; [|discriminate].
    destruct (Np.normalize_index (length v1) 0) as [j2|]; [|discriminate].
    destruct (nth_error v1 j2) as [v2|] eqn:E2; [|discriminate].
    destruct (Np.normalize_index (length v2) 0) as [j3|]; [|discriminate].
    apply nth_error_In in E1, E2, Hv.
    intros Hnil. assert (Hi : In v (Np.ravel (value (tree_ p)))).
    { unfold Np.ravel. apply in_concat. exists v2. split; [|assumption].
      apply in_concat. eauto. }
    rewrite Hnil in Hi. destruct Hi. }
  destruct (Np.ravel (value (tree_ p))) as [|x xs] eqn:Er; [congruence|].
  exists cs, (fold_left Qmin xs x), (fold_left Qmax xs x).
  split; [|split; [reflexivity|split; [reflexivity|exact Hin]]].
  apply DecisionTreeRegressorConstr_Ok. simpl. split; [assumption|].
  split; [|now rewrite Hno].
  apply mip_model_complete; try assumption;
    [|rewrite Hcols, Hno; reflexivity|rewrite Er; reflexivity
     |rewrite Er; reflexivity].
  intros node Hnode. apply in_seq in Hnode. unfold node_quotient.
  rewrite (index_nat 0%Q) by (rewrite (wf_length_threshold _ _ Hwf); lia).
  apply Hdiv, nth_In. rewrite (wf_length_threshold _ _ Hwf). lia.
Qed.

(** A complete run on a well-formed tree, read from the run itself. *)
Lemma DecisionTreeRegressorConstr_run self p inp out m obj m' :
  tree_wf (tree_ p) (shape1 inp) = true ->
  n_outputs_ p = 1%Z -> shape1 out = 1 -> shape0 inp <= shape0 out ->
  DecisionTreeRegressorConstr self p inp out m = (Ok obj, m') ->
  exists cs lo hi,
    DecisionTreeRegressorConstr self p inp out m =
      (Ok (mkTreeConstr self p inp out 1 (fresh_nodes p inp m)),
       mkModel (tree_vars p inp out m lo hi) (Constrs m ++ cs)) /\
    Np.min (Np.ravel (value (tree_ p))) = Some lo /\
    Np.max (Np.ravel (value (tree_ p))) = Some hi /\
    forall c, In c cs <->
      tree_constr self (tree_ p) inp out (fresh_nodes p inp m) c.
Proof.
  intros Hwf Hno Hcols Hrows Hrun.
  destruct (tree_constraints_wf self p inp out (fresh_nodes p inp m) Hwf)
    as (cs & Hcs & Hin); try reflexivity; try lia.
  pose proof Hrun as Hshape.
  apply DecisionTreeRegressorConstr_Ok in Hshape as (_ & Hmip & Hobj).
  apply mip_model_Ok in Hmip as (_ & Hn & cs' & lo & hi & Hcs' & Hlo & Hhi & ->).
  rewrite Hn in Hcs'. rewrite Hcs in Hcs'. inversion Hcs'; subst cs'.
  exists cs, lo, hi. split; [|auto].
  rewrite Hrun, Hobj, Hn, Hno. reflexivity.
Qed.

(** *** Solutions of the single-tree encoding *)

Section TreeSolutions.

Variable self : TreeOptions.
Variable p : DecisionTreeRegressor.
Variables inp out : MVar.
Variable m : Model.

Hypothesis Hwf : tree_wf (tree_ p) (shape1 inp) = true.
Hypothesis Hno : n_outputs_ p = 1%Z.
Hypothesis Hcols : shape1 out = 1.
Hypothesis Hrows : shape0 inp <= shape0 out.

Variable obj : DecisionTreeRegressorConstr_obj.
Variable m' : Model.
Hypothesis Hrun : DecisionTreeRegressorConstr self p inp out m = (Ok obj, m').

Variable sigma : var -> Q.
Hypothesis Hsol : respects sigma m'.

Lemma run_nodevars : nodevars obj = fresh_nodes p inp m.
Proof.
  destruct (DecisionTreeRegressorConstr_run self p inp out m obj m' Hwf Hno Hcols Hrows Hrun)
    as (cs & lo & hi & Hr & _).
  rewrite Hr in Hrun. now inversion Hrun.
Qed.

Lemma run_sat c :
  tree_constr self (tree_ p) inp out (nodevars obj) c -> sat sigma c.
Proof.
  destruct (DecisionTreeRegressorConstr_run self p inp out m obj m' Hwf Hno Hcols Hrows Hrun)
    as (cs & lo & hi & Hr & _ & _ & Hin).
  rewrite Hr in Hrun. inversion Hrun; subst obj m'. simpl.
  intros Hc. apply Hsol. simpl. apply in_app_iff. right. now apply Hin.
Qed.

Lemma run_binary k n :
  k < shape0 inp -> n < capacity (tree_ p) ->
  is_binary (sigma (item (nodevars obj) k n)).
Proof.
  intros Hk Hn.
  destruct (DecisionTreeRegressorConstr_run self p inp out m obj m' Hwf Hno Hcols Hrows Hrun)
    as (cs & lo & hi & Hr & _).
  rewrite Hr in Hrun. inversion Hrun; subst obj m'. simpl.
  destruct (fresh_nodes_binary p inp out m lo hi k n Hk Hn) as (d & Hd & Hb).
  exact (proj1 Hsol _ d Hd Hb).
Qed.

Lemma run_extends : extends m m'.
Proof.
  destruct (DecisionTreeRegressorConstr_run self p inp out m obj m' Hwf Hno Hcols Hrows Hrun)
    as (cs & lo & hi & Hr & _).
  rewrite Hr in Hrun. inversion Hrun; subst obj m'. apply tree_vars_extends.
Qed.

(** With the inputs of example [k] fixed to [X], the output of example [k]
    is the value of the leaf that [X] reaches when every threshold is
    converted by [float_type]. *)
Lemma run_routed (X : list Q) k :
  margin_kept self (tree_ p) -> length X = shape1 inp -> k < shape0 inp ->
  (forall f, f < shape1 inp -> (sigma (item inp k f) == nth f X 0)%Q) ->
  exists v,
    predict_with (float_type self) (tree_ p) X = Some v /\
    (sigma (item out k 0) == v)%Q.
Proof.
  intros He HX Hk Hfix.
  apply (routed (tree_ p) (shape1 inp) Hwf (float_type self) (right_constant self)
           (fun n => sigma (item (nodevars obj) k n))); try assumption.
  - intros n Hn. now apply run_binary.
  - intros n Hn Hl. apply sat_ge, run_sat. now apply TC_ge_left.
  - intros n Hn Hl. apply sat_ge, run_sat. now apply TC_ge_right.
  - intros n Hn Hl. apply sat_le_sum, run_sat. now apply TC_le_sum.
  - intros n Hn Hl Ha.
    destruct (wf_children _ _ Hwf n Hn Hl) as (_ & _ & Hf).
    rewrite <- (Hfix _ Hf).
    apply (sat_left sigma self (item (nodevars obj) k (left_child (tree_ p) n)));
      [|exact Ha].
    apply run_sat. now apply TC_left.
  - intros n Hn Hl Ha.
    destruct (wf_children _ _ Hwf n Hn Hl) as (_ & _ & Hf).
    rewrite <- (Hfix _ Hf).
    apply (sat_right sigma self (item (nodevars obj) k (right_child (tree_ p) n)));
      [|exact Ha].
    apply run_sat. now apply TC_right.
  - intros n v Hn Hl Hv Ha.
    apply (sat_leaf sigma (item (nodevars obj) k n)); [|exact Ha].
    apply run_sat. now apply TC_leaf.
  - assert (H : sat sigma (one_leaf_constr
                           (map (item (nodevars obj) k) (leaf_nodes (tree_ p)))))
      by (apply run_sat; now apply TC_one_leaf).
    apply sat_one_leaf in H. rewrite map_map in H. exact H.
Qed.

End TreeSolutions.

(** Evaluation depends on the thresholds and on the sample only through
    their values. *)
Lemma index_Forall2 (X1 X2 : list Q) i :
  Forall2 Qeq X1 X2 ->
  match Np.index X1 i, Np.index X2 i with
  | Some a, Some b => (a == b)%Q
  | None, None => True
  | _, _ => False
  end.
Proof.
  intros H. unfold Np.index. rewrite <- (Forall2_length H).
  destruct (Np.normalize_index (length X1) i) as [j|]; [|exact I].
  revert j. induction H as [|a b X1 X2 Hab H IH]; intros [|j]; simpl; auto.
  apply IH.
Qed.

Lemma apply_from_ext conv1 conv2 t X1 X2 :
  (forall q, In q (threshold t) -> (conv1 q == conv2 q)%Q) ->
  Forall2 Qeq X1 X2 ->
  forall fuel n, apply_from conv1 t X1 fuel n = apply_from conv2 t X2 fuel n.
Proof.
  intros Hc HX. induction fuel as [|fuel IH]; intros n; simpl; [reflexivity|].
  destruct (Np.index (children_left t) (Z.of_nat n)) as [left|]; [|reflexivity].
  destruct (left <? 0)%Z; [reflexivity|].
  destruct (Np.index (children_right t) (Z.of_nat n)) as [right|]; [|reflexivity].
  destruct (Np.index (feature t) (Z.of_nat n)) as [f|]; [|reflexivity].
  destruct (Np.index (threshold t) (Z.of_nat n)) as [thr|] eqn:Et; [|reflexivity].
  pose proof (index_Forall2 X1 X2 f HX) as Hx.
  destruct (Np.index X1 f) as [x1|], (Np.index X2 f) as [x2|];
    try contradiction; [|reflexivity].
  assert (Hin : In thr (threshold t)).
  { unfold Np.index in Et. destruct (Np.normalize_index _ _); [|discriminate].
    eapply nth_error_In; eauto. }
  assert (Hb : Qle_bool x1 (conv1 thr) = Qle_bool x2 (conv2 thr)).
  { specialize (Hc thr Hin).
    destruct (Qle_bool x1 (conv1 thr)) eqn:E1, (Qle_bool x2 (conv2 thr)) eqn:E2;
      try reflexivity.
    - apply Qle_bool_iff in E1. rewrite Hc, Hx in E1.
      apply Qle_bool_iff in E1. congruence.
    - apply Qle_bool_iff in E2. rewrite <- Hc, <- Hx in E2.
      apply Qle_bool_iff in E2. congruence. }
  rewrite Hb, !IH. reflexivity.
Qed.

(** Evaluation with converted thresholds on the sample as given is direct
    evaluation when the conversion leaves the thresholds of the tree as
    they are and the conversion to binary32 leaves the sample as it is. *)
Lemma predict_with_unchanged conv t X :
  (forall q, In q (threshold t) -> (conv q == q)%Q) ->
  (forall x, In x X -> (Np.float32 x == x)%Q) ->
  predict_with conv t X = predict t X.
Proof.
  intros Hc Hx. unfold predict, predict_with.
  rewrite (apply_from_ext conv (fun thr => thr) t X (map Np.float32 X) Hc);
    [reflexivity|].
  clear Hc. induction X as [|x X IH]; simpl; constructor.
  - symmetry. apply Hx. simpl. auto.
  - apply IH. intros x' Hx'. apply Hx. simpl. auto.
Qed.


(** *** The computable check is sound *)

Lemma holdsb_sound sigma c : holdsb sigma c = true -> holds sigma c.
Proof.
  unfold holdsb, holds. destruct (csense c); intros H.
  - now apply Qle_bool_iff.
  - now apply Qle_bool_iff.
  - now apply Qeq_bool_iff.
Qed.

Lemma satb_sound sigma c : satb sigma c = true -> sat sigma c.
Proof.
  destruct c as [t|b t]; simpl; intros H.
  - now apply holdsb_sound.
  - intros Hb. apply orb_prop in H as [H|H].
    + apply negb_true_iff in H. apply Qeq_bool_iff in Hb. congruence.
    + now apply holdsb_sound.
Qed.

Lemma var_okb_sound sigma x d : var_okb sigma x d = true -> var_ok sigma x d.
Proof.
  unfold var_okb, var_ok. intros H.
  apply andb_prop in H as [H H3]. apply andb_prop in H as [H1 H2].
  repeat split.
  - destruct (LB d); [now apply Qle_bool_iff|exact I].
  - destruct (UB d); [now apply Qle_bool_iff|exact I].
  - destruct (VType d); [exact I|].
    apply orb_prop in H3 as [H3|H3]; apply Qeq_bool_iff in H3; [left|right]; exact H3.
Qed.

Lemma vars_okb_sound sigma ds : forall s,
  vars_okb sigma s ds = true ->
  forall x d, nth_error ds x = Some d -> var_ok sigma (s + x) d.
Proof.
  induction ds as [|d0 ds IH]; intros s H x d Hd; [now destruct x|].
  simpl in H. apply andb_prop in H as [H0 H]. destruct x as [|x]; simpl in Hd.
  - inversion Hd; subst. rewrite Nat.add_0_r. now apply var_okb_sound.
  - replace (s + S x) with (S s + x) by lia. now apply (IH (S s)).
Qed.

Lemma feasibleb_sound sigma m : feasibleb sigma m = true -> feasible sigma m.
Proof.
  unfold feasibleb. intros H. apply andb_prop in H as [Hv Hc]. split.
  - intros x d Hd. exact (vars_okb_sound sigma (Vars m) 0 Hv x d Hd).
  - intros c Hin. rewrite forallb_forall in Hc. apply satb_sound. auto.
Qed.

Lemma feasible_respects_self sigma m : feasible sigma m -> respects sigma m.
Proof. apply feasible_respects, extends_refl. Qed.

(** *** Any complete run *)

Lemma NoDup_nonzero_from mask : forall s, NoDup (Np.nonzero_from s mask).
Proof.
  induction mask as [|b mask IH]; intros s; simpl; [constructor|].
  destruct b; [|apply IH]. constructor; [|apply IH].
  intros H. apply nonzero_from_In in H. lia.
Qed.

Lemma NoDup_leaf_nodes t : NoDup (leaf_nodes t).
Proof. apply NoDup_nonzero_from. Qed.

Lemma leaf_nodes_lt t n : In n (leaf_nodes t) -> n < length (children_left t).
Proof.
  intros H. apply nonzero_lt in H. now rewrite length_map in H.
Qed.

(** The choice of one leaf, for any tree on which the encoder completes. *)
Lemma run_one_leaf self p inp out m nodes m' :
  DecisionTree._mip_model self p inp out m = (Ok nodes, m') ->
  length (children_left (tree_ p)) = capacity (tree_ p) /\
  forall k, k < shape0 inp ->
    In (one_leaf_constr (map (item nodes k) (leaf_nodes (tree_ p)))) (Constrs m').
Proof.
  intros H. apply mip_model_Ok in H as (_ & Hn & cs & lo & hi & Hcs & _ & _ & ->).
  unfold tree_constraints in Hcs.
  destruct (DecisionTree.parent_ge_child _ _ (children_left _)) as [c1|]; [|discriminate].
  destruct (DecisionTree.parent_ge_child _ _ _) as [c2|]; [|discriminate].
  destruct (DecisionTree.parent_le_children _ _) as [c3|]; [|discriminate].
  destruct (DecisionTree.children_exclusive _ _) as [c4|]; [|discriminate].
  destruct (mapM _ _) as [css|]; [|discriminate].
  destruct (DecisionTree.one_leaf p nodes) as [c5|] eqn:E5; [|discriminate].
  inversion Hcs; subst cs; clear Hcs.
  unfold DecisionTree.one_leaf, take_mask in E5.
  destruct (length (DecisionTree.leafs p) =? shape1 nodes) eqn:El; [|discriminate].
  apply Nat.eqb_eq in El. unfold DecisionTree.leafs in El.
  rewrite length_map in El. rewrite Hn in El. simpl in El.
  split; [exact El|]. intros k Hk. simpl.
  rewrite !in_app_iff. do 6 right.
  inversion E5; subst c5; clear E5.
  unfold compare_const, sum_axis1; simpl. apply In_entries.
  exists k, 0. split; [rewrite Hn; exact Hk|]. split; [lia|].
  unfold one_leaf_constr. fold (leaf_nodes (tree_ p)).
  now rewrite (map_nth_seq (item nodes k)).
Qed.

Lemma run_nodes_binary self p inp out m nodes m' sigma k n :
  DecisionTree._mip_model self p inp out m = (Ok nodes, m') ->
  respects sigma m' ->
  k < shape0 inp -> n < capacity (tree_ p) ->
  is_binary (sigma (item nodes k n)).
Proof.
  intros H Hs Hk Hn.
  apply mip_model_Ok in H as (_ & -> & cs & lo & hi & _ & _ & _ & ->).
  destruct (fresh_nodes_binary p inp out m lo hi k n Hk Hn) as (d & Hd & Hb).
  exact (proj1 Hs _ d Hd Hb).
Qed.

Lemma run_extends_any self p inp out m obj m' :
  DecisionTreeRegressorConstr self p inp out m = (Ok obj, m') -> extends m m'.
Proof.
  intros H. apply DecisionTreeRegressorConstr_Ok in H as (_ & H & _).
  apply mip_model_Ok in H as (_ & _ & cs & lo & hi & _ & _ & _ & ->).
  apply tree_vars_extends.
Qed.

(** *** Reductions *)

Lemma fold_min_le_init l : forall x, (fold_left Qmin l x <= x)%Q.
Proof.
  induction l as [|a l IH]; intros x; simpl; [apply Qle_refl|].
  eapply Qle_trans; [apply IH|apply Q.le_min_l].
Qed.

Lemma fold_min_le l : forall x y, In y (x :: l) -> (fold_left Qmin l x <= y)%Q.
Proof.
  induction l as [|a l IH]; intros x y Hy; simpl.
  - destruct Hy as [<-|[]]. apply Qle_refl.
  - destruct Hy as [<-|[<-|Hy]].
    + eapply Qle_trans; [apply fold_min_le_init|apply Q.le_min_l].
    + eapply Qle_trans; [apply fold_min_le_init|apply Q.le_min_r].
    + apply IH. now right.
Qed.

Lemma fold_max_ge_init l : forall x, (x <= fold_left Qmax l x)%Q.
Proof.
  induction l as [|a l IH]; intros x; simpl; [apply Qle_refl|].
  eapply Qle_trans; [apply Q.le_max_l|apply IH].
Qed.

Lemma fold_max_ge l : forall x y, In y (x :: l) -> (y <= fold_left Qmax l x)%Q.
Proof.
  induction l as [|a l IH]; intros x y Hy; simpl.
  - destruct Hy as [<-|[]]. apply Qle_refl.
  - destruct Hy as [<-|[<-|Hy]].
    + eapply Qle_trans; [apply Q.le_max_l|apply fold_max_ge_init].
    + eapply Qle_trans; [apply Q.le_max_r|apply fold_max_ge_init].
    + apply IH. now right.
Qed.

Lemma np_min_le a lo y : Np.min a = Some lo -> In y a -> (lo <= y)%Q.
Proof.
  destruct a as [|x l]; [discriminate|]. intros H Hy. inversion H; subst.
  now apply fold_min_le.
Qed.

Lemma np_max_ge a hi y : Np.max a = Some hi -> In y a -> (y <= hi)%Q.
Proof.
  destruct a as [|x l]; [discriminate|]. intros H Hy. inversion H; subst.
  now apply fold_max_ge.
Qed.

Lemma index_In {A} (a : list A) i x : Np.index a i = Some x -> In x a.
Proof.
  unfold Np.index. destruct (Np.normalize_index _ _); [|discriminate].
  apply nth_error_In.
Qed.

Lemma value00_In t n v : value00 t n = Some v -> In v (Np.ravel (value t)).
Proof.
  unfold value00. intros H.
  destruct (Np.index (value t) (Z.of_nat n)) as [v1|] eqn:E1; [|discriminate].
  destruct (Np.index v1 0) as [v2|] eqn:E2; [|discriminate].
  apply index_In in E1, E2, H. unfold Np.ravel.
  apply in_concat. exists v2. split; [|assumption]. apply in_concat. eauto.
Qed.

Lemma mvar_mem_item a k j :
  k < shape0 a -> j < shape1 a -> mvar_mem a (item a k j) = true.
Proof.
  intros Hk Hj. unfold mvar_mem. apply existsb_exists. exists k. split.
  - apply in_seq; lia.
  - apply existsb_exists. exists j. split; [apply in_seq; lia|].
    apply Nat.eqb_refl.
Qed.

(* ================================================================== *)
(** ** The single-tree encoder *)
(* ================================================================== *)

(** C1, as amended.  Take a well-formed tree with one output, options
    under which no quotient [1 / threshold] raises and the margin is kept
    (at every split node the float sum of the converted threshold and [eps]
    lies above the converted threshold), and an example [k] whose inputs
    are fixed to the sample [X].  The encoder completes, and every feasible
    solution of the model it leaves gives the output of example [k] the
    value of the leaf that [X] reaches when each split compares the feature
    with the threshold converted by [float_type].  That leaf is the one
    direct evaluation reaches whenever the conversion leaves the thresholds
    of the tree as they are and the conversion to binary32, which direct
    evaluation applies to the sample, leaves the sample as it is. *)
Theorem tree_encoding_round_trip self p inp out m (X : list Q) k :
  tree_wf (tree_ p) (shape1 inp) = true ->
  n_outputs_ p = 1%Z -> shape1 out = 1 -> shape0 inp <= shape0 out ->
  no_zero_division self (tree_ p) -> margin_kept self (tree_ p) ->
  length X = shape1 inp -> k < shape0 inp ->
  exists obj m',
    DecisionTreeRegressorConstr self p inp out m = (Ok obj, m') /\
    forall sigma,
      feasible sigma m' ->
      (forall f, f < shape1 inp -> (sigma (item inp k f) == nth f X 0)%Q) ->
      exists v,
        predict_with (float_type self) (tree_ p) X = Some v /\
        (sigma (item out k 0) == v)%Q /\
        ((forall q, In q (threshold (tree_ p)) -> (float_type self q == q)%Q) ->
         (forall x, In x X -> (Np.float32 x == x)%Q) ->
         predict (tree_ p) X = Some v).
Proof.
  intros Hwf Hno Hcols Hrows Hdiv Hmargin HX Hk.
  destruct (DecisionTreeRegressorConstr_wf self p inp out m Hwf Hno Hcols Hrows Hdiv)
    as (cs & lo & hi & Hrun & _).
  eexists _, _. split; [exact Hrun|].
  intros sigma Hf Hfix.
  destruct (run_routed self p inp out m Hwf Hno Hcols Hrows _ _ Hrun sigma
              (feasible_respects_self _ _ Hf) X k Hmargin HX Hk Hfix) as (v & Hp & Hv).
  exists v. repeat split; try assumption.
  intros Hc Hx. now rewrite <- (predict_with_unchanged (float_type self)).
Qed.

Lemma tree_encoding_round_trip_witness :
  exists obj m',
    DecisionTreeRegressorConstr default_options Examples.exact_tree
      Examples.inp Examples.out Examples.m0 = (Ok obj, m') /\
    forall sigma,
      feasible sigma m' ->
      (forall f, f < 1 -> (sigma (item Examples.inp 0 f) == nth f [(1 # 2)%Q] 0)%Q) ->
      exists v,
        predict_with Np.float32 (tree_ Examples.exact_tree) [(1 # 2)%Q] = Some v /\
        (sigma (item Examples.out 0 0) == v)%Q /\
        ((forall q, In q (threshold (tree_ Examples.exact_tree)) ->
                    (Np.float32 q == q)%Q) ->
         (forall x, In x [(1 # 2)%Q] -> (Np.float32 x == x)%Q) ->
         predict (tree_ Examples.exact_tree) [(1 # 2)%Q] = Some v).
Proof.
  apply (tree_encoding_round_trip default_options Examples.exact_tree
           Examples.inp Examples.out Examples.m0 [(1 # 2)%Q] 0).
  - reflexivity.
  - reflexivity.
  - reflexivity.
  - simpl. lia.
  - intros thr _. discriminate.
  - intros n Hn Hl. destruct n as [|[|[|n]]];
      [vm_compute; reflexivity|discriminate Hl|discriminate Hl|simpl in Hn; lia].
  - reflexivity.
  - simpl. lia.
Defined.

(** C1 as stated fails: a threshold that [np.float32] rounds down by more
    than [eps], and an input between the rounded and the stored threshold.
    Direct evaluation goes left (value 1); the encoding only admits the
    right leaf (value 2). *)
Lemma round_trip_with_stored_thresholds_fails :
  ~ (forall sigma,
       feasible sigma
         (snd (DecisionTreeRegressorConstr default_options Examples.midpoint_tree
                 Examples.inp Examples.out Examples.m0)) ->
       (forall f, f < 1 ->
          (sigma (item Examples.inp 0 f) == nth f [Examples.midpoint] 0)%Q) ->
       exists v,
         predict (tree_ Examples.midpoint_tree) [Examples.midpoint] = Some v /\
         (sigma (item Examples.out 0 0) == v)%Q).
Proof.
  intros H.
  destruct (H (Examples.goes_right Examples.midpoint 2)) as (v & Hp & Hv).
  - apply feasibleb_sound. vm_compute. reflexivity.
  - intros f Hf. replace f with 0 by lia. simpl. reflexivity.
  - vm_compute in Hp. inversion Hp; subst v. vm_compute in Hv. discriminate.
Qed.

(** C2.  Whenever the encoder completes, every feasible solution of the
    model it leaves has, for each example, exactly one leaf whose
    activation is 1: the activations of the leaves are binary and add up
    to 1. *)
Theorem exactly_one_leaf_active self p inp out m obj m' sigma k :
  DecisionTreeRegressorConstr self p inp out m = (Ok obj, m') ->
  feasible sigma m' ->
  k < shape0 inp ->
  (Qsum (map (fun n => sigma (item (nodevars obj) k n)) (leaf_nodes (tree_ p)))
   == 1)%Q /\
  exists leaf,
    In leaf (leaf_nodes (tree_ p)) /\
    (sigma (item (nodevars obj) k leaf) == 1)%Q /\
    forall n, In n (leaf_nodes (tree_ p)) ->
              (sigma (item (nodevars obj) k n) == 1)%Q -> n = leaf.
Proof.
  intros Hrun Hf Hk.
  apply DecisionTreeRegressorConstr_Ok in Hrun as (_ & Hrun & _).
  destruct (run_one_leaf _ _ _ _ _ _ _ Hrun) as (Hlen & Hone).
  pose proof (proj2 Hf _ (Hone k Hk)) as Hs.
  apply sat_one_leaf in Hs. rewrite map_map in Hs.
  assert (Hb : forall n, In n (leaf_nodes (tree_ p)) ->
                         is_binary (sigma (item (nodevars obj) k n))).
  { intros n Hn. apply leaf_nodes_lt in Hn. rewrite Hlen in Hn.
    exact (run_nodes_binary _ _ _ _ _ _ _ sigma k n Hrun
             (feasible_respects_self _ _ Hf) Hk Hn). }
  split; [exact Hs|].
  destruct (Qsum_binary_one _ _ Hb Hs) as (leaf & Hin & Hact).
  exists leaf. repeat split; try assumption.
  intros n Hn Hn1.
  exact (Qsum_binary_unique _ _ (NoDup_leaf_nodes _) Hb Hs n leaf Hn Hin Hn1 Hact).
Qed.

Lemma exactly_one_leaf_active_witness :
  (Qsum (map (fun n => Examples.goes_left (1 # 2) 1 (2 + n)%nat)
             (leaf_nodes (tree_ Examples.exact_tree))) == 1)%Q /\
  exists leaf,
    In leaf (leaf_nodes (tree_ Examples.exact_tree)) /\
    (Examples.goes_left (1 # 2) 1 (2 + leaf)%nat == 1)%Q /\
    forall n, In n (leaf_nodes (tree_ Examples.exact_tree)) ->
              (Examples.goes_left (1 # 2) 1 (2 + n)%nat == 1)%Q -> n = leaf.
Proof.
  apply (exactly_one_leaf_active default_options Examples.exact_tree
           Examples.inp Examples.out Examples.m0
           (mkTreeConstr default_options Examples.exact_tree Examples.inp
              Examples.out 1 (fresh_nodes Examples.exact_tree Examples.inp Examples.m0))
           (snd (DecisionTreeRegressorConstr default_options Examples.exact_tree
                   Examples.inp Examples.out Examples.m0))
           (Examples.goes_left (1 # 2) 1) 0).
  - reflexivity.
  - apply feasibleb_sound. vm_compute. reflexivity.
  - simpl. lia.
Defined.

(** The four bulk statements on any array of node variables of the right
    shape: what they produce holds under binary activations exactly when
    every split node is the maximum of its children and the children
    exclude each other. *)
Lemma bulk_statements_or p inp nodes :
  tree_wf (tree_ p) (shape1 inp) = true ->
  shape0 nodes = shape0 inp -> shape1 nodes = capacity (tree_ p) ->
  exists c1 c2 c3 c4,
    DecisionTree.parent_ge_child p nodes (children_left (tree_ p)) = Some c1 /\
    DecisionTree.parent_ge_child p nodes (children_right (tree_ p)) = Some c2 /\
    DecisionTree.parent_le_children p nodes = Some c3 /\
    DecisionTree.children_exclusive p nodes = Some c4 /\
    forall sigma,
      (forall k n, k < shape0 inp -> n < capacity (tree_ p) ->
                   is_binary (sigma (item nodes k n))) ->
      ((forall c, In c (c1 ++ c2 ++ c3 ++ c4) -> sat sigma c) <->
       or_of_children (tree_ p) (shape0 inp) nodes sigma).
Proof.
  unfold or_of_children. intros Hwf Hrows Hcols.
  destruct (parent_ge_child_wf p inp nodes Hwf Hrows Hcols
              (children_left (tree_ p)) (wf_length_left _ _ Hwf))
    as (c1 & E1 & I1).
  { intros n Hn Hl. pose proof (wf_split _ _ Hwf n Hn Hl). lia. }
  destruct (parent_ge_child_wf p inp nodes Hwf Hrows Hcols
              (children_right (tree_ p)) (wf_length_right _ _ Hwf))
    as (c2 & E2 & I2).
  { intros n Hn Hl. pose proof (wf_split _ _ Hwf n Hn Hl). lia. }
  destruct (parent_le_children_wf p inp nodes Hwf Hrows Hcols) as (c3 & E3 & I3).
  destruct (children_exclusive_wf p inp nodes Hwf Hrows Hcols) as (c4 & E4 & I4).
  exists c1, c2, c3, c4. repeat (split; [assumption|]).
  intros sigma Hbin. split.
  - intros Hsat k n Hk Hn Hl.
    destruct (wf_children _ _ Hwf n Hn Hl) as (G1 & G2 & _).
    assert (H1 : sat sigma (ge_constr (item nodes k n)
                              (item nodes k (left_child (tree_ p) n)))).
    { apply Hsat. rewrite !in_app_iff. left. apply I1. eauto 8. }
    assert (H2 : sat sigma (ge_constr (item nodes k n)
                              (item nodes k (right_child (tree_ p) n)))).
    { apply Hsat. rewrite !in_app_iff. right; left. apply I2. eauto 8. }
    assert (H3 : sat sigma (le_sum_constr (item nodes k n)
                              (item nodes k (right_child (tree_ p) n))
                              (item nodes k (left_child (tree_ p) n)))).
    { apply Hsat. rewrite !in_app_iff. right; right; left. apply I3. eauto 8. }
    assert (H4 : sat sigma (sum_le_one_constr
                              (item nodes k (right_child (tree_ p) n))
                              (item nodes k (left_child (tree_ p) n)))).
    { apply Hsat. rewrite !in_app_iff. right; right; right. apply I4. eauto 8. }
    apply sat_ge in H1, H2. apply sat_le_sum in H3. apply sat_sum_le_one in H4.
    split; [|lra].
    destruct (Hbin k (left_child (tree_ p) n) Hk) as [L|L]; [lia| |];
      destruct (Hbin k (right_child (tree_ p) n) Hk) as [R|R]; try lia;
      destruct (Q.max_spec (sigma (item nodes k (left_child (tree_ p) n)))
                           (sigma (item nodes k (right_child (tree_ p) n))))
        as [[Hlt E]|[Hle E]]; rewrite E; lra.
  - intros Hor c Hc. rewrite !in_app_iff in Hc.
    destruct Hc as [Hc|[Hc|[Hc|Hc]]];
      [apply I1 in Hc|apply I2 in Hc|apply I3 in Hc|apply I4 in Hc];
      destruct Hc as (k & n & Hk & Hn & Hl & ->);
      destruct (Hor k n Hk Hn Hl) as [Hmax Hex];
      destruct (wf_children _ _ Hwf n Hn Hl) as (G1 & G2 & _);
      pose proof (Q.le_max_l (sigma (item nodes k (left_child (tree_ p) n)))
                             (sigma (item nodes k (right_child (tree_ p) n))));
      pose proof (Q.le_max_r (sigma (item nodes k (left_child (tree_ p) n)))
                             (sigma (item nodes k (right_child (tree_ p) n)))).
    + apply sat_ge. fold (left_child (tree_ p) n). lra.
    + apply sat_ge. fold (right_child (tree_ p) n). lra.
    + apply sat_le_sum.
      destruct (Hbin k (left_child (tree_ p) n) Hk) as [L|L]; [lia| |];
        destruct (Hbin k (right_child (tree_ p) n) Hk) as [R|R]; try lia;
        destruct (Q.max_spec (sigma (item nodes k (left_child (tree_ p) n)))
                             (sigma (item nodes k (right_child (tree_ p) n))))
          as [[_ E]|[_ E]]; lra.
    + apply sat_sum_le_one. lra.
Qed.

(** C3.  Whenever the single-tree encoder completes on a well-formed tree,
    the first constraints it appends to the model are those of its four
    bulk statements on the node variables, in order.  Under binary
    activations these constraints hold exactly when, for every example and
    every split node, the activation of the node is the maximum of the
    activations of its two children and the two children are not both
    active; and this is so in every feasible solution of the model the
    encoder leaves. *)
Theorem parent_is_or_of_children self p inp out m obj m' :
  tree_wf (tree_ p) (shape1 inp) = true ->
  DecisionTreeRegressorConstr self p inp out m = (Ok obj, m') ->
  exists c1 c2 c3 c4 rest,
    DecisionTree.parent_ge_child p (nodevars obj) (children_left (tree_ p)) = Some c1 /\
    DecisionTree.parent_ge_child p (nodevars obj) (children_right (tree_ p)) = Some c2 /\
    DecisionTree.parent_le_children p (nodevars obj) = Some c3 /\
    DecisionTree.children_exclusive p (nodevars obj) = Some c4 /\
    Constrs m' = Constrs m ++ c1 ++ c2 ++ c3 ++ c4 ++ rest /\
    (forall sigma,
       (forall k n, k < shape0 inp -> n < capacity (tree_ p) ->
                    is_binary (sigma (item (nodevars obj) k n))) ->
       ((forall c, In c (c1 ++ c2 ++ c3 ++ c4) -> sat sigma c) <->
        or_of_children (tree_ p) (shape0 inp) (nodevars obj) sigma)) /\
    (forall sigma,
       feasible sigma m' ->
       or_of_children (tree_ p) (shape0 inp) (nodevars obj) sigma).
Proof.
  intros Hwf Hrun.
  apply DecisionTreeRegressorConstr_Ok in Hrun as (_ & Hrun & _).
  pose proof Hrun as Hmip.
  apply mip_model_Ok in Hmip as (_ & Hn & cs & lo & hi & Hcs & _ & _ & ->).
  destruct (bulk_statements_or p inp (nodevars obj) Hwf)
    as (c1 & c2 & c3 & c4 & E1 & E2 & E3 & E4 & Hor);
    [rewrite Hn; reflexivity|rewrite Hn; reflexivity|].
  unfold tree_constraints in Hcs. rewrite E1, E2, E3, E4 in Hcs.
  destruct (mapM _ _) as [css|]; [|discriminate].
  destruct (DecisionTree.one_leaf p (nodevars obj)) as [c5|]; [|discriminate].
  inversion Hcs; subst cs; clear Hcs.
  exists c1, c2, c3, c4, (concat css ++ c5).
  repeat (split; [assumption|]). split; [reflexivity|]. split; [exact Hor|].
  intros sigma Hf. apply Hor.
  - intros k n Hk Hn'.
    exact (run_nodes_binary _ _ _ _ _ _ _ sigma k n Hrun
             (feasible_respects_self _ _ Hf) Hk Hn').
  - intros c Hc. apply (proj2 Hf). simpl.
    rewrite !in_app_iff in Hc. rewrite !in_app_iff. tauto.
Qed.

Lemma parent_is_or_of_children_witness :
  exists c1 c2 c3 c4 rest,
    DecisionTree.parent_ge_child Examples.exact_tree (nodevars exact_obj)
      (children_left (tree_ Examples.exact_tree)) = Some c1 /\
    DecisionTree.parent_ge_child Examples.exact_tree (nodevars exact_obj)
      (children_right (tree_ Examples.exact_tree)) = Some c2 /\
    DecisionTree.parent_le_children Examples.exact_tree (nodevars exact_obj) = Some c3 /\
    DecisionTree.children_exclusive Examples.exact_tree (nodevars exact_obj) = Some c4 /\
    Constrs exact_model = Constrs Examples.m0 ++ c1 ++ c2 ++ c3 ++ c4 ++ rest /\
    (forall sigma,
       (forall k n, k < 1 -> n < 3 ->
                    is_binary (sigma (item (nodevars exact_obj) k n))) ->
       ((forall c, In c (c1 ++ c2 ++ c3 ++ c4) -> sat sigma c) <->
        or_of_children (tree_ Examples.exact_tree) 1 (nodevars exact_obj) sigma)) /\
    (forall sigma,
       feasible sigma exact_model ->
       or_of_children (tree_ Examples.exact_tree) 1 (nodevars exact_obj) sigma).
Proof.
  apply (parent_is_or_of_children default_options Examples.exact_tree Examples.inp
           Examples.out Examples.m0 exact_obj exact_model).
  - reflexivity.
  - reflexivity.
Defined.

(** C4, as amended.  Take a split node of a well-formed tree, options
    under which no quotient [1 / threshold] raises, and suppose the margin
    is kept at the node: the constant of its right branch, the float sum of
    the converted threshold and [eps], lies above the converted threshold.
    Then an example whose split feature is fixed exactly to the threshold
    the left branch carries, the stored threshold converted by
    [float_type], cannot activate the right child; if the node is active
    its left child is. *)
Theorem converted_threshold_routes_left self p inp out m n k :
  tree_wf (tree_ p) (shape1 inp) = true ->
  n_outputs_ p = 1%Z -> shape1 out = 1 -> shape0 inp <= shape0 out ->
  no_zero_division self (tree_ p) ->
  n < capacity (tree_ p) -> is_leaf (tree_ p) n = false -> k < shape0 inp ->
  (float_type self (stored_threshold (tree_ p) n)
   < right_constant self (stored_threshold (tree_ p) n))%Q ->
  exists obj m',
    DecisionTreeRegressorConstr self p inp out m = (Ok obj, m') /\
    forall sigma,
      feasible sigma m' ->
      (sigma (item inp k (split_feature (tree_ p) n)) ==
       float_type self (stored_threshold (tree_ p) n))%Q ->
      (sigma (item (nodevars obj) k (right_child (tree_ p) n)) == 0)%Q /\
      ((sigma (item (nodevars obj) k n) == 1)%Q ->
       (sigma (item (nodevars obj) k (left_child (tree_ p) n)) == 1)%Q).
Proof.
  intros Hwf Hno Hcols Hrows Hdiv Hn Hl Hk Hm.
  destruct (DecisionTreeRegressorConstr_wf self p inp out m Hwf Hno Hcols Hrows Hdiv)
    as (cs & lo & hi & Hrun & _).
  eexists _, _. split; [exact Hrun|]. intros sigma Hf Hx.
  pose proof (feasible_respects_self _ _ Hf) as Hs.
  destruct (wf_children _ _ Hwf n Hn Hl) as (G1 & G2 & _).
  pose proof (run_sat self p inp out m Hwf Hno Hcols Hrows _ _ Hrun sigma Hs) as Hsat.
  pose proof (run_binary self p inp out m Hwf Hno Hcols Hrows _ _ Hrun sigma Hs k)
    as Hbin.
  cbn [nodevars] in *.
  assert (HR : (sigma (item (fresh_nodes p inp m) k (right_child (tree_ p) n)) == 0)%Q).
  { destruct (Hbin (right_child (tree_ p) n) Hk) as [R|R]; [lia|exact R|].
    pose proof (proj1 (sat_right sigma self _ _ _)
                  (Hsat _ (TC_right self (tree_ p) inp out _ k n Hk Hn Hl)) R) as Hr.
    rewrite Hx in Hr. lra. }
  split; [exact HR|]. intros Ha.
  pose proof (proj1 (sat_le_sum sigma _ _ _)
                (Hsat _ (TC_le_sum self (tree_ p) inp out _ k n Hk Hn Hl))) as Hsum.
  destruct (Hbin (left_child (tree_ p) n) Hk) as [L|L]; [lia| |exact L].
  lra.
Qed.

Lemma converted_threshold_routes_left_witness :
  (exists obj m',
     DecisionTreeRegressorConstr default_options Examples.small_midpoint_tree
       Examples.inp Examples.out Examples.m0 = (Ok obj, m') /\
     forall sigma,
       feasible sigma m' ->
       (sigma (item Examples.inp 0
                 (split_feature (tree_ Examples.small_midpoint_tree) 0)) ==
        Np.float32 (stored_threshold (tree_ Examples.small_midpoint_tree) 0))%Q ->
       (sigma (item (nodevars obj) 0
                 (right_child (tree_ Examples.small_midpoint_tree) 0)) == 0)%Q /\
       ((sigma (item (nodevars obj) 0 0) == 1)%Q ->
        (sigma (item (nodevars obj) 0
                  (left_child (tree_ Examples.small_midpoint_tree) 0)) == 1)%Q)) /\
  (exists obj m',
     DecisionTreeRegressorConstr numpy2_options Examples.small_midpoint_tree
       Examples.inp Examples.out Examples.m0 = (Ok obj, m') /\
     forall sigma,
       feasible sigma m' ->
       (sigma (item Examples.inp 0
                 (split_feature (tree_ Examples.small_midpoint_tree) 0)) ==
        Np.float32 (stored_threshold (tree_ Examples.small_midpoint_tree) 0))%Q ->
       (sigma (item (nodevars obj) 0
                 (right_child (tree_ Examples.small_midpoint_tree) 0)) == 0)%Q /\
       ((sigma (item (nodevars obj) 0 0) == 1)%Q ->
        (sigma (item (nodevars obj) 0
                  (left_child (tree_ Examples.small_midpoint_tree) 0)) == 1)%Q)).
Proof.
  split.
  - apply (converted_threshold_routes_left default_options
             Examples.small_midpoint_tree Examples.inp Examples.out Examples.m0 0 0).
    + reflexivity.
    + reflexivity.
    + reflexivity.
    + simpl. lia.
    + intros thr _. discriminate.
    + simpl. lia.
    + reflexivity.
    + simpl. lia.
    + vm_compute. reflexivity.
  - apply (converted_threshold_routes_left numpy2_options
             Examples.small_midpoint_tree Examples.inp Examples.out Examples.m0 0 0).
    + reflexivity.
    + reflexivity.
    + reflexivity.
    + simpl. lia.
    + intros thr _. discriminate.
    + simpl. lia.
    + reflexivity.
    + simpl. lia.
    + vm_compute. reflexivity.
Defined.

(** C4 as stated fails: with the input fixed exactly to the stored
    threshold of the root, a solution that activates the right child
    (variable 4) is feasible, because the constraints carry the threshold
    rounded down to 32. *)
Lemma stored_threshold_value_can_route_right :
  ~ (forall sigma,
       feasible sigma
         (snd (DecisionTreeRegressorConstr default_options Examples.midpoint_tree
                 Examples.inp Examples.out Examples.m0)) ->
       (sigma (item Examples.inp 0 (split_feature (tree_ Examples.midpoint_tree) 0)) ==
        stored_threshold (tree_ Examples.midpoint_tree) 0)%Q ->
       ~ (sigma (item (fresh_nodes Examples.midpoint_tree Examples.inp Examples.m0) 0
                   (right_child (tree_ Examples.midpoint_tree) 0)) == 1)%Q).
Proof.
  intros H.
  apply (H (Examples.goes_right Examples.midpoint 2)).
  - apply feasibleb_sound. vm_compute. reflexivity.
  - reflexivity.
  - reflexivity.
Qed.

Lemma fold_min_In l : forall x, In (fold_left Qmin l x) (x :: l).
Proof.
  induction l as [|a l IH]; intros x; simpl; [auto|].
  destruct (IH (Qmin x a)) as [H|H]; [|auto].
  rewrite <- H. unfold Qmin, GenericMinMax.gmin.
  destruct (x ?= a)%Q; auto.
Qed.

Lemma fold_max_In l : forall x, In (fold_left Qmax l x) (x :: l).
Proof.
  induction l as [|a l IH]; intros x; simpl; [auto|].
  destruct (IH (Qmax x a)) as [H|H]; [|auto].
  rewrite <- H. unfold Qmax, GenericMinMax.gmax.
  destruct (x ?= a)%Q; auto.
Qed.

Lemma np_min_In a lo : Np.min a = Some lo -> In lo a.
Proof.
  destruct a as [|x l]; [discriminate|]. intros H. inversion H; subst.
  apply fold_min_In.
Qed.

Lemma np_max_In a hi : Np.max a = Some hi -> In hi a.
Proof.
  destruct a as [|x l]; [discriminate|]. intros H. inversion H; subst.
  apply fold_max_In.
Qed.

Lemma leaf_values_In t v : In v (leaf_values t) -> In v (Np.ravel (value t)).
Proof.
  unfold leaf_values. intros H. apply in_flat_map in H as (n & _ & H).
  destruct (value00 t n) as [v'|] eqn:E; [|destruct H].
  destruct H as [<-|[]]. exact (value00_In t n v' E).
Qed.

(** C8, as amended.  Whenever the encoder completes, every output variable
    declared in the model has as lower and upper bound the minimum and the
    maximum of the whole array [tree.value], which holds the values of all
    nodes, split nodes included; every node value, so every leaf value, lies
    between the two; and the two bounds are the least and the greatest leaf
    value when no entry of [tree.value] lies outside the range of the leaf
    values. *)
Theorem output_bounds_span_all_node_values self p inp out m obj m' :
  DecisionTreeRegressorConstr self p inp out m = (Ok obj, m') ->
  exists lo hi,
    Np.min (Np.ravel (value (tree_ p))) = Some lo /\
    Np.max (Np.ravel (value (tree_ p))) = Some hi /\
    (forall k j d,
       k < shape0 out -> j < shape1 out ->
       nth_error (Vars m) (item out k j) = Some d ->
       exists d',
         nth_error (Vars m') (item out k j) = Some d' /\
         LB d' = Some lo /\ UB d' = Some hi) /\
    (forall n v, value00 (tree_ p) n = Some v -> (lo <= v <= hi)%Q) /\
    (forall least greatest,
       Np.min (leaf_values (tree_ p)) = Some least ->
       Np.max (leaf_values (tree_ p)) = Some greatest ->
       (forall v, In v (Np.ravel (value (tree_ p))) -> (least <= v <= greatest)%Q) ->
       (lo == least)%Q /\ (hi == greatest)%Q).
Proof.
  intros Hrun. apply DecisionTreeRegressorConstr_Ok in Hrun as (_ & Hrun & _).
  apply mip_model_Ok in Hrun as (_ & _ & cs & lo & hi & _ & Hlo & Hhi & ->).
  exists lo, hi. split; [assumption|]. split; [assumption|].
  split; [|split].
  - intros k j d Hk Hj Hd. simpl. rewrite tree_vars_nth.
    rewrite nth_error_app1 by (apply nth_error_Some; congruence).
    rewrite Hd. simpl. rewrite mvar_mem_item by assumption.
    eexists. split; [reflexivity|]. simpl. auto.
  - intros n v Hv. split.
    + apply (np_min_le _ _ _ Hlo). now apply value00_In with n.
    + apply (np_max_ge _ _ _ Hhi). now apply value00_In with n.
  - intros least greatest Hleast Hgreatest Hrange. split.
    + apply Qle_antisym.
      * apply (np_min_le _ _ _ Hlo), leaf_values_In, (np_min_In _ _ Hleast).
      * apply Hrange, (np_min_In _ _ Hlo).
    + apply Qle_antisym.
      * apply Hrange, (np_max_In _ _ Hhi).
      * apply (np_max_ge _ _ _ Hhi), leaf_values_In, (np_max_In _ _ Hgreatest).
Qed.

Lemma output_bounds_span_all_node_values_witness :
  exists lo hi,
    Np.min (Np.ravel (value (tree_ Examples.exact_tree))) = Some lo /\
    Np.max (Np.ravel (value (tree_ Examples.exact_tree))) = Some hi /\
    (forall k j d,
       k < shape0 Examples.out -> j < shape1 Examples.out ->
       nth_error (Vars Examples.m0) (item Examples.out k j) = Some d ->
       exists d',
         nth_error (Vars exact_model) (item Examples.out k j) = Some d' /\
         LB d' = Some lo /\ UB d' = Some hi) /\
    (forall n v, value00 (tree_ Examples.exact_tree) n = Some v -> (lo <= v <= hi)%Q) /\
    (forall least greatest,
       Np.min (leaf_values (tree_ Examples.exact_tree)) = Some least ->
       Np.max (leaf_values (tree_ Examples.exact_tree)) = Some greatest ->
       (forall v, In v (Np.ravel (value (tree_ Examples.exact_tree))) ->
                  (least <= v <= greatest)%Q) ->
       (lo == least)%Q /\ (hi == greatest)%Q).
Proof.
  apply (output_bounds_span_all_node_values default_options Examples.exact_tree
           Examples.inp Examples.out Examples.m0 exact_obj).
  reflexivity.
Defined.

(** C8 as stated fails: on a tree whose root stores the value 0 while its
    leaves store 5 and 7, the lower bound of the output becomes 0, not the
    least leaf value 5. *)
Lemma output_bounds_are_not_leaf_bounds :
  ~ (exists d,
       nth_error
         (Vars (snd (DecisionTreeRegressorConstr default_options
                       Examples.updated_tree Examples.inp Examples.out Examples.m0)))
         (item Examples.out 0 0) = Some d /\
       LB d = Np.min (leaf_values (tree_ Examples.updated_tree)) /\
       UB d = Np.max (leaf_values (tree_ Examples.updated_tree))).
Proof.
  intros (d & Hd & Hlb & _). vm_compute in Hd. inversion Hd; subst d.
  vm_compute in Hlb. discriminate.
Qed.

(** C9.  The [scale] option does not reach the model: for every value of
    it the encoder behaves as with [scale = 1], exception or not, and
    leaves the same model. *)
Theorem scale_has_no_effect e s ft p inp out m :
  DecisionTree._mip_model (mkTreeOptions e s ft) p inp out m =
  DecisionTree._mip_model (mkTreeOptions e 1 ft) p inp out m /\
  snd (DecisionTreeRegressorConstr (mkTreeOptions e s ft) p inp out m) =
  snd (DecisionTreeRegressorConstr (mkTreeOptions e 1 ft) p inp out m).
Proof.
  assert (H : DecisionTree._mip_model (mkTreeOptions e s ft) p inp out m =
              DecisionTree._mip_model (mkTreeOptions e 1 ft) p inp out m)
    by reflexivity.
  split; [exact H|].
  unfold DecisionTreeRegressorConstr, AbstractPredictorConstr_init.
  destruct (negb (n_outputs_ p =? 1)%Z); [reflexivity|].
  unfold bind. rewrite H.
  now destruct (DecisionTree._mip_model (mkTreeOptions e 1 ft) p inp out m) as [[nodes|ex] m1].
Qed.

(** C10.  For a split node of a well-formed tree and every example, the
    model the encoder leaves contains the two branch indicators, and the
    threshold in their constants is the stored threshold converted by
    [float_type], not the stored threshold: the left branch carries
    [float_type threshold], the right branch the float sum of
    [float_type threshold] and [eps].  In a feasible solution an input
    above the converted threshold deactivates the left child and an input
    below the constant of the right branch deactivates the right child,
    wherever the stored threshold lies. *)
Theorem branch_constant_is_converted_threshold self p inp out m n k :
  tree_wf (tree_ p) (shape1 inp) = true ->
  n_outputs_ p = 1%Z -> shape1 out = 1 -> shape0 inp <= shape0 out ->
  no_zero_division self (tree_ p) ->
  n < capacity (tree_ p) -> is_leaf (tree_ p) n = false -> k < shape0 inp ->
  exists obj m',
    DecisionTreeRegressorConstr self p inp out m = (Ok obj, m') /\
    In (Indicator (item (nodevars obj) k (left_child (tree_ p) n))
          (mkTemp (Lin.scale 1 (Lin.of_var (item inp k (split_feature (tree_ p) n))))
                  LESS_EQUAL
                  (Lin.of_const (1 * float_type self (stored_threshold (tree_ p) n))%Q)))
       (Constrs m') /\
    In (Indicator (item (nodevars obj) k (right_child (tree_ p) n))
          (mkTemp (Lin.scale 1 (Lin.of_var (item inp k (split_feature (tree_ p) n))))
                  GREATER_EQUAL
                  (Lin.of_const
                     (add_float (float_type self)
                        (1 * float_type self (stored_threshold (tree_ p) n))%Q
                        (eps self)))))
       (Constrs m') /\
    forall sigma,
      feasible sigma m' ->
      ((float_type self (stored_threshold (tree_ p) n) <
        sigma (item inp k (split_feature (tree_ p) n)))%Q ->
       (sigma (item (nodevars obj) k (left_child (tree_ p) n)) == 0)%Q) /\
      ((sigma (item inp k (split_feature (tree_ p) n)) <
        add_float (float_type self)
          (1 * float_type self (stored_threshold (tree_ p) n))%Q (eps self))%Q ->
       (sigma (item (nodevars obj) k (right_child (tree_ p) n)) == 0)%Q).
Proof.
  intros Hwf Hno Hcols Hrows Hdiv Hn Hl Hk.
  destruct (DecisionTreeRegressorConstr_wf self p inp out m Hwf Hno Hcols Hrows Hdiv)
    as (cs & lo & hi & Hrun & _ & _ & Hin).
  eexists _, _. split; [exact Hrun|].
  destruct (wf_children _ _ Hwf n Hn Hl) as (G1 & G2 & _).
  split; [|split].
  - simpl. apply in_app_iff. right. apply Hin.
    exact (TC_left self (tree_ p) inp out _ k n Hk Hn Hl).
  - simpl. apply in_app_iff. right. apply Hin.
    exact (TC_right self (tree_ p) inp out _ k n Hk Hn Hl).
  - intros sigma Hf.
    pose proof (feasible_respects_self _ _ Hf) as Hs.
    pose proof (run_sat self p inp out m Hwf Hno Hcols Hrows _ _ Hrun sigma Hs) as Hsat.
    pose proof (run_binary self p inp out m Hwf Hno Hcols Hrows _ _ Hrun sigma Hs k)
      as Hbin.
    cbn [nodevars] in *.
    fold (right_constant self (stored_threshold (tree_ p) n)).
    split; intros Hx.
    + destruct (Hbin (left_child (tree_ p) n) Hk) as [L|L]; [lia|exact L|].
      pose proof (proj1 (sat_left sigma self _ _ _)
                    (Hsat _ (TC_left self (tree_ p) inp out _ k n Hk Hn Hl)) L).
      lra.
    + destruct (Hbin (right_child (tree_ p) n) Hk) as [R|R]; [lia|exact R|].
      pose proof (proj1 (sat_right sigma self _ _ _)
                    (Hsat _ (TC_right self (tree_ p) inp out _ k n Hk Hn Hl)) R).
      lra.
Qed.

Lemma branch_constant_is_converted_threshold_witness :
  (exists obj m',
     DecisionTreeRegressorConstr default_options Examples.small_midpoint_tree
       Examples.inp Examples.out Examples.m0 = (Ok obj, m') /\
     In (Indicator (item (nodevars obj) 0
                      (left_child (tree_ Examples.small_midpoint_tree) 0))
           (mkTemp (Lin.scale 1 (Lin.of_var
                      (item Examples.inp 0
                         (split_feature (tree_ Examples.small_midpoint_tree) 0))))
                   LESS_EQUAL
                   (Lin.of_const
                      (1 * Np.float32
                             (stored_threshold (tree_ Examples.small_midpoint_tree) 0))%Q)))
        (Constrs m') /\
     In (Indicator (item (nodevars obj) 0
                      (right_child (tree_ Examples.small_midpoint_tree) 0))
           (mkTemp (Lin.scale 1 (Lin.of_var
                      (item Examples.inp 0
                         (split_feature (tree_ Examples.small_midpoint_tree) 0))))
                   GREATER_EQUAL
                   (Lin.of_const
                      (Np.float64
                         (1 * Np.float32
                                (stored_threshold (tree_ Examples.small_midpoint_tree) 0)
                          + eps_default)%Q))))
        (Constrs m') /\
     forall sigma,
       feasible sigma m' ->
       ((Np.float32 (stored_threshold (tree_ Examples.small_midpoint_tree) 0) <
         sigma (item Examples.inp 0
                  (split_feature (tree_ Examples.small_midpoint_tree) 0)))%Q ->
        (sigma (item (nodevars obj) 0
                  (left_child (tree_ Examples.small_midpoint_tree) 0)) == 0)%Q) /\
       ((sigma (item Examples.inp 0
                  (split_feature (tree_ Examples.small_midpoint_tree) 0)) <
         (Np.float64
                         (1 * Np.float32
                                (stored_threshold (tree_ Examples.small_midpoint_tree) 0)
                          + eps_default)%Q))%Q ->
        (sigma (item (nodevars obj) 0
                  (right_child (tree_ Examples.small_midpoint_tree) 0)) == 0)%Q)) /\
  (exists obj m',
     DecisionTreeRegressorConstr numpy2_options Examples.small_midpoint_tree
       Examples.inp Examples.out Examples.m0 = (Ok obj, m') /\
     In (Indicator (item (nodevars obj) 0
                      (left_child (tree_ Examples.small_midpoint_tree) 0))
           (mkTemp (Lin.scale 1 (Lin.of_var
                      (item Examples.inp 0
                         (split_feature (tree_ Examples.small_midpoint_tree) 0))))
                   LESS_EQUAL
                   (Lin.of_const
                      (1 * Np.float32
                             (stored_threshold (tree_ Examples.small_midpoint_tree) 0))%Q)))
        (Constrs m') /\
     In (Indicator (item (nodevars obj) 0
                      (right_child (tree_ Examples.small_midpoint_tree) 0))
           (mkTemp (Lin.scale 1 (Lin.of_var
                      (item Examples.inp 0
                         (split_feature (tree_ Examples.small_midpoint_tree) 0))))
                   GREATER_EQUAL
                   (Lin.of_const
                      (Np.float32
                         (1 * Np.float32
                                (stored_threshold (tree_ Examples.small_midpoint_tree) 0)
                          + Np.float32 eps_default)%Q))))
        (Constrs m') /\
     forall sigma,
       feasible sigma m' ->
       ((Np.float32 (stored_threshold (tree_ Examples.small_midpoint_tree) 0) <
         sigma (item Examples.inp 0
                  (split_feature (tree_ Examples.small_midpoint_tree) 0)))%Q ->
        (sigma (item (nodevars obj) 0
                  (left_child (tree_ Examples.small_midpoint_tree) 0)) == 0)%Q) /\
       ((sigma (item Examples.inp 0
                  (split_feature (tree_ Examples.small_midpoint_tree) 0)) <
         (Np.float32
                         (1 * Np.float32
                                (stored_threshold (tree_ Examples.small_midpoint_tree) 0)
                          + Np.float32 eps_default)%Q))%Q ->
        (sigma (item (nodevars obj) 0
                  (right_child (tree_ Examples.small_midpoint_tree) 0)) == 0)%Q)).
Proof.
  split.
  - apply (branch_constant_is_converted_threshold default_options
             Examples.small_midpoint_tree Examples.inp Examples.out Examples.m0 0 0).
    + reflexivity.
    + reflexivity.
    + reflexivity.
    + simpl. lia.
    + intros thr _. discriminate.
    + simpl. lia.
    + reflexivity.
    + simpl. lia.
  - apply (branch_constant_is_converted_threshold numpy2_options
             Examples.small_midpoint_tree Examples.inp Examples.out Examples.m0 0 0).
    + reflexivity.
    + reflexivity.
    + reflexivity.
    + simpl. lia.
    + intros thr _. discriminate.
    + simpl. lia.
    + reflexivity.
    + simpl. lia.
Defined.

(** The stored thresholds of the examples and their binary32 images
    differ. *)
Example midpoint_is_rounded_down :
  Np.float32 Examples.midpoint = 32%Q /\ (32 < Examples.midpoint)%Q.
Proof. split; reflexivity. Qed.

Example small_midpoint_is_rounded_down :
  Np.float32 Examples.small_midpoint = (1 # 2)%Q /\
  ((1 # 2) < Examples.small_midpoint)%Q.
Proof. split; reflexivity. Qed.

(** The two counterexamples on the threshold 32 + 2^-19 do not depend on
    the promotion rules: the solution that goes right with the input fixed
    to the stored threshold is feasible under those of NumPy 2 as well. *)
Example midpoint_goes_right_under_numpy2 :
  feasible (Examples.goes_right Examples.midpoint 2)
    (snd (DecisionTreeRegressorConstr numpy2_options Examples.midpoint_tree
            Examples.inp Examples.out Examples.m0)).
Proof. apply feasibleb_sound. vm_compute. reflexivity. Qed.

(** The float sum can absorb [eps].  At the threshold 2^40 the constant of
    the right branch is the threshold itself, under the promotion rules of
    NumPy 1 and of NumPy 2; under those of NumPy 2 this already happens at
    the threshold 32. *)
Example margin_lost_at_large_threshold :
  right_constant default_options Examples.large_threshold
  = Np.float32 Examples.large_threshold /\
  right_constant numpy2_options Examples.large_threshold
  = Np.float32 Examples.large_threshold /\
  right_constant numpy2_options 32 = Np.float32 32.
Proof. repeat split; vm_compute; reflexivity. Qed.

(** Where the margin is lost the encoding admits both leaves: with the
    input fixed to the threshold 2^40, the solution that goes left (output
    1) and the one that goes right (output 2) are both feasible. *)
Example large_threshold_admits_both_leaves :
  let model := snd (DecisionTreeRegressorConstr default_options Examples.large_tree
                      Examples.inp Examples.out Examples.m0) in
  feasible (Examples.goes_left Examples.large_threshold 1) model /\
  feasible (Examples.goes_right Examples.large_threshold 2) model.
Proof.
  split; apply feasibleb_sound; vm_compute; reflexivity.
Qed.

(** With Python's [float] as float type, a split at zero makes the encoder
    raise ZeroDivisionError; with [np.float32] it completes. *)
Example zero_threshold_divides :
  fst (DecisionTreeRegressorConstr (mkTreeOptions eps_default 1 py_float)
         Examples.zero_tree Examples.inp Examples.out Examples.m0)
  = Raise ZeroDivisionError /\
  is_ok (fst (DecisionTreeRegressorConstr default_options
                Examples.zero_tree Examples.inp Examples.out Examples.m0)) = true.
Proof. split; vm_compute; reflexivity. Qed.

(* ================================================================== *)
(** ** The ensemble encoders *)
(* ================================================================== *)


Lemma forM_extends {A B} (body : A -> M B) l :
  (forall a m1 b m2, body a m1 = (Ok b, m2) -> extends m1 m2) ->
  forall m bs m', forM l body m = (Ok bs, m') -> extends m m'.
Proof.
  intros Hbody. induction l as [|a l IH]; intros m bs m' H; simpl in H.
  - apply ret_Ok in H as [_ ->]. apply extends_refl.
  - apply bind_Ok in H as (b & m1 & Hb & H).
    apply bind_Ok in H as (bs' & m2 & Hbs & H).
    apply ret_Ok in H as [_ ->].
    eapply extends_trans; [eapply Hbody; eassumption|eapply IH; eassumption].
Qed.

Lemma index_nat_Some {A} (a : list A) i x :
  Np.index a (Z.of_nat i) = Some x -> nth_error a i = Some x.
Proof.
  unfold Np.index, Np.normalize_index.
  destruct ((0 <=? Z.of_nat i)%Z && (Z.of_nat i <? Z.of_nat (length a))%Z) eqn:E.
  - now rewrite Nat2Z.id.
  - destruct ((- Z.of_nat (length a) <=? Z.of_nat i)%Z && (Z.of_nat i <? 0)%Z) eqn:E2;
      [|discriminate].
    apply andb_prop in E2 as [_ E2]. apply Z.ltb_lt in E2. lia.
Qed.


Lemma with_constrs_extends m cs : extends m (with_constrs m cs).
Proof.
  split; simpl; [eauto|]. intros c Hc. apply in_app_iff. auto.
Qed.


Lemma sat_eq_scaled_sum_plus sigma x r xs c :
  sat sigma (Linear (mkTemp (Lin.of_var x) EQUAL
                       (Lin.add (Lin.scale r (Lin.sum xs)) (Lin.of_const c)))) <->
  (sigma x == r * Qsum (map sigma xs) + c)%Q.
Proof.
  unfold sat, holds. cbn [csense lhs rhs].
  assert (H : (eval sigma (Lin.add (Lin.scale r (Lin.sum xs)) (Lin.of_const c)) ==
               r * Qsum (map sigma xs) + c)%Q).
  { unfold eval, Lin.add, Lin.scale, Lin.sum, Lin.of_const; simpl.
    rewrite app_nil_r, map_map. simpl.
    assert (G : (eval_terms sigma (map (fun y => ((r * 1)%Q, y)) xs) ==
                 r * Qsum (map sigma xs))%Q).
    { induction xs as [|y ys IH]; simpl; [ring|]. rewrite IH. ring. }
    rewrite G. ring. }
  rewrite H. unfold eval; simpl. split; intros; lra.
Qed.

(** *** Random forest *)

Lemma forest_mip_model_Ok p inp out m est m' :
  RandomForest._mip_model p inp out m = (Ok est, m') ->
  let N := rf_n_estimators p in
  let tv := fresh_matrix m (shape0 inp) N in
  let m1 := mkModel (Vars m ++ aux_decls (shape0 inp) (N))
                    (Constrs m) in
  exists m2,
    forM (seq 0 N)
      (fun i =>
         tree <- lookup (Np.index (rf_estimators_ p) (Z.of_nat i)) ;;
         DecisionTreeRegressorConstr default_options tree inp (column tv i)) m1
    = (Ok est, m2) /\
    0 < shape1 out /\ shape0 out = shape0 inp /\
    m' = with_constrs m2
           (entries (shape0 out) 1
              (fun k _ =>
                 Linear (mkTemp (Lin.scale (inject_Z (Z.of_nat N))
                                   (Lin.of_var (item out k 0)))
                                EQUAL
                                (Lin.sum (map (item tv k) (seq 0 N)))))).
Proof.
  intros H N tv m1. unfold RandomForest._mip_model in H.
  apply bind_Ok in H as (tv' & m1' & H1 & H).
  unfold addMVar in H1. inversion H1; subst tv' m1'; clear H1.
  fold N tv m1 in H.
  apply bind_Ok in H as (est' & m2 & Hest & H).
  apply bind_Ok in H as (out0 & m3 & H3 & H). apply lookup_Ok in H3 as [E3 ->].
  apply bind_Ok in H as (cs & m3 & H4 & H). apply checked_Ok in H4 as [E4 ->].
  apply bind_Ok in H as (u & m3 & H5 & H). apply addConstr_Ok in H5 as ->.
  apply ret_Ok in H as [-> ->].
  unfold column0 in E3. destruct (0 <? shape1 out) eqn:Ec; [|discriminate].
  apply Nat.ltb_lt in Ec. inversion E3; subst out0; clear E3.
  unfold compare, same_shape in E4. simpl in E4.
  destruct (shape0 out =? shape0 inp) eqn:Er; [|discriminate].
  apply Nat.eqb_eq in Er. simpl in E4. inversion E4; subst cs; clear E4.
  exists m2. repeat split; assumption.
Qed.



Lemma run_of_is_ok {A} (r : result A * Model) (d : A) :
  is_ok (fst r) = true ->
  r = (Ok (match fst r with Ok o => o | Raise _ => d end), snd r).
Proof.
  destruct r as [[o|e] m]; simpl; [reflexivity|discriminate].
Defined.

(** *** Gradient boosting, [decisiontrees.py] *)

Lemma boosting_mip_model_Ok p inp out m est m' :
  GradientBoosting._mip_model p inp out m = (Ok est, m') ->
  let M := gb_n_estimators_ p in
  let tv := fresh_matrix m (shape0 inp) M in
  let m1 := mkModel (Vars m ++ aux_decls (shape0 inp) (M))
                    (Constrs m) in
  exists m2 c,
    shape1 out = 1 /\
    forM (seq 0 M)
      (fun i =>
         tree0 <- lookup (GradientBoosting.stage p i) ;;
         DecisionTreeRegressorConstr default_options tree0 inp (column tv i)) m1
    = (Ok est, m2) /\
    GradientBoosting.constant00 p = Some c /\
    shape0 out = shape0 inp /\
    m' = with_constrs m2
           (entries (shape0 out) 1
              (fun k _ =>
                 Linear (mkTemp (Lin.of_var (item out k 0)) EQUAL
                           (Lin.add (Lin.scale (gb_learning_rate p)
                                       (Lin.sum (map (item tv k) (seq 0 M))))
                                    (Lin.of_const c))))).
Proof.
  intros H M tv m1. unfold GradientBoosting._mip_model in H.
  destruct (shape1 out =? 1) eqn:Ed; simpl in H; [|discriminate].
  apply Nat.eqb_eq in Ed.
  apply bind_Ok in H as (tv' & m1' & H1 & H).
  unfold addMVar in H1. inversion H1; subst tv' m1'; clear H1.
  fold M tv m1 in H.
  apply bind_Ok in H as (est' & m2 & Hest & H).
  apply bind_Ok in H as (out0 & m3 & H3 & H). apply lookup_Ok in H3 as [E3 ->].
  apply bind_Ok in H as (c & m3 & H6 & H). apply lookup_Ok in H6 as [E6 ->].
  apply bind_Ok in H as (cs & m3 & H4 & H). apply checked_Ok in H4 as [E4 ->].
  apply bind_Ok in H as (u & m3 & H5 & H). apply addConstr_Ok in H5 as ->.
  apply ret_Ok in H as [-> ->].
  unfold column0 in E3. rewrite Ed in E3. simpl in E3.
  inversion E3; subst out0; clear E3.
  unfold compare, same_shape in E4. simpl in E4.
  destruct (shape0 out =? shape0 inp) eqn:Er; [|discriminate].
  apply Nat.eqb_eq in Er. simpl in E4. inversion E4; subst cs; clear E4.
  exists m2, c. repeat split; assumption.
Qed.

Lemma boosting_stage_extends p inp tv i m1 e m2 :
  (tree0 <- lookup (GradientBoosting.stage p i) ;;
   DecisionTreeRegressorConstr default_options tree0 inp (column tv i)) m1 = (Ok e, m2) ->
  extends m1 m2.
Proof.
  intros H. apply bind_Ok in H as (tree & m & H1 & H).
  apply lookup_Ok in H1 as [_ ->]. eapply run_extends_any; eassumption.
Qed.


(** *** Gradient boosting, [gradient_boosting_regressor.py] *)

Section Boosting2.

Variable Kwargs : Type.
Variable TreeConstr : Type.
Variable add_tree : Kwargs -> DecisionTreeRegressor -> MVar -> MVar -> M TreeConstr.

(** The single-tree encoder keeps what the model holds. *)
Hypothesis add_tree_extends : forall kw t i o m1 e m2,
  add_tree kw t i o m1 = (Ok e, m2) -> extends m1 m2.


End Boosting2.



(* ================================================================== *)
(** ** Unsupported shapes *)
(* ================================================================== *)

(** C5, as amended.  The single-tree and the forest encoder, given a
    predictor whose [n_outputs_] is not 1 (2, say), raise NoModel carrying
    that predictor and leave the model untouched.  The boosting encoders
    never read an output dimension of the predictor: they look at the
    number of columns of the output array, and when it is not 1 the one of
    [decisiontrees.py] raises NoModel carrying the predictor while the one
    of [gradient_boosting_regressor.py] fails an assertion, both leaving
    the model untouched.  The single-tree encoder also fails an assertion
    when the output array has not as many columns as the tree has
    outputs. *)
Theorem unsupported_shape_errors :
  (forall self p inp out m,
     n_outputs_ p <> 1%Z ->
     DecisionTreeRegressorConstr self p inp out m =
     (Raise (NoModel (PTree p) (tree_shape_message (n_outputs_ p))), m)) /\
  (forall p inp out m,
     rf_n_outputs_ p <> 1%Z ->
     RandomForestRegressorConstr p inp out m =
     (Raise (NoModel (PForest p) (tree_shape_message (rf_n_outputs_ p))), m)) /\
  (forall p inp out m,
     shape1 out <> 1 ->
     GradientBoostingRegressorConstr p inp out m =
     (Raise (NoModel (PBoosting p)
               (regression_shape_message (Z.of_nat (shape1 out)))), m)) /\
  (forall Kwargs TreeConstr
          (add_tree : Kwargs -> DecisionTreeRegressor -> MVar -> MVar -> M TreeConstr)
          p inp out kwargs m,
     shape1 out <> 1 ->
     GradientBoosting2.GradientBoostingRegressorConstr Kwargs TreeConstr add_tree
       p inp out kwargs m = (Raise AssertionError, m)) /\
  (forall self p inp out m,
     n_outputs_ p = 1%Z -> shape1 out <> 1 ->
     DecisionTreeRegressorConstr self p inp out m = (Raise AssertionError, m)).
Proof.
  repeat split.
  - intros self p inp out m H. unfold DecisionTreeRegressorConstr.
    apply Z.eqb_neq in H. now rewrite H.
  - intros p inp out m H. unfold RandomForestRegressorConstr.
    apply Z.eqb_neq in H. now rewrite H.
  - intros p inp out m H.
    unfold GradientBoostingRegressorConstr, AbstractPredictorConstr_init,
      GradientBoosting._mip_model, bind.
    apply Nat.eqb_neq in H. now rewrite H.
  - intros Kwargs TreeConstr add_tree p inp out kwargs m H.
    unfold GradientBoosting2.GradientBoostingRegressorConstr,
      AbstractPredictorConstr_init, GradientBoosting2._mip_model, bind.
    apply Nat.eqb_neq in H. now rewrite H.
  - intros self p inp out m Hn H.
    unfold DecisionTreeRegressorConstr, AbstractPredictorConstr_init,
      DecisionTree._mip_model, bind.
    rewrite Hn. simpl.
    assert (E : (Z.of_nat (shape1 out) =? 1)%Z = false) by (apply Z.eqb_neq; lia).
    now rewrite E.
Qed.

Lemma unsupported_shape_errors_witness :
  DecisionTreeRegressorConstr default_options Examples.two_output_tree
    Examples.inp Examples.out2 Examples.m0 =
  (Raise (NoModel (PTree Examples.two_output_tree) (tree_shape_message 2)),
   Examples.m0) /\
  RandomForestRegressorConstr
    (mkRandomForestRegressor 1 [Examples.two_output_tree] 2)
    Examples.inp Examples.out2 Examples.m0 =
  (Raise (NoModel (PForest (mkRandomForestRegressor 1 [Examples.two_output_tree] 2))
            (tree_shape_message 2)), Examples.m0) /\
  GradientBoostingRegressorConstr Examples.boosting Examples.inp Examples.out2
    Examples.m0 =
  (Raise (NoModel (PBoosting Examples.boosting) (regression_shape_message 2)),
   Examples.m0) /\
  GradientBoosting2.GradientBoostingRegressorConstr TreeOptions
    DecisionTreeRegressorConstr_obj DecisionTreeRegressorConstr
    Examples.boosting Examples.inp Examples.out2 default_options Examples.m0 =
  (Raise AssertionError, Examples.m0) /\
  DecisionTreeRegressorConstr default_options Examples.exact_tree
    Examples.inp Examples.out2 Examples.m0 = (Raise AssertionError, Examples.m0).
Proof.
  destruct unsupported_shape_errors as (H1 & H2 & H3 & H4 & H5).
  split; [|split; [|split; [|split]]].
  - apply (H1 default_options Examples.two_output_tree). discriminate.
  - apply (H2 (mkRandomForestRegressor 1 [Examples.two_output_tree] 2)). discriminate.
  - apply (H3 Examples.boosting Examples.inp Examples.out2). discriminate.
  - apply (H4 TreeOptions DecisionTreeRegressorConstr_obj DecisionTreeRegressorConstr
              Examples.boosting Examples.inp Examples.out2). discriminate.
  - apply (H5 default_options Examples.exact_tree Examples.inp Examples.out2).
    + reflexivity.
    + discriminate.
Defined.

(** C5 as stated fails: with an output of dimension 2 the boosting encoder
    of [gradient_boosting_regressor.py] does not raise NoModel; it fails
    an assertion, a second kind of error leaving this layer. *)
Lemma boosting2_does_not_raise_NoModel :
  ~ (exists predictor msg,
       fst (GradientBoosting2.GradientBoostingRegressorConstr TreeOptions
              DecisionTreeRegressorConstr_obj DecisionTreeRegressorConstr
              Examples.boosting Examples.inp Examples.out2 default_options
              Examples.m0) = Raise (NoModel predictor msg)).
Proof.
  intros (predictor & msg & H). vm_compute in H. discriminate.
Qed.

(* ================================================================== *)
(** ** Further properties of the single-tree encoder *)
(* ================================================================== *)

Lemma run_shapes self p inp out m obj m' :
  DecisionTreeRegressorConstr self p inp out m = (Ok obj, m') ->
  n_outputs_ p = 1%Z /\ shape1 out = 1 /\ nodevars obj = fresh_nodes p inp m.
Proof.
  intros H. apply DecisionTreeRegressorConstr_Ok in H as (Hno & H & _).
  apply mip_model_Ok in H as (Hd & Hn & _). rewrite Hno in Hd.
  repeat split; [assumption|lia|assumption].
Qed.

Section TreeFacts.

Variable self : TreeOptions.
Variable p : DecisionTreeRegressor.
Variables inp out : MVar.
Variables m m' : Model.
Variable obj : DecisionTreeRegressorConstr_obj.
Variable sigma : var -> Q.

Hypothesis Hwf : tree_wf (tree_ p) (shape1 inp) = true.
Hypothesis Hrows : shape0 inp <= shape0 out.
Hypothesis Hrun : DecisionTreeRegressorConstr self p inp out m = (Ok obj, m').
Hypothesis Hf : feasible sigma m'.

Local Abbreviation act := (fun k n => sigma (item (nodevars obj) k n)).

Lemma facts_sat c :
  tree_constr self (tree_ p) inp out (nodevars obj) c -> sat sigma c.
Proof.
  destruct (run_shapes _ _ _ _ _ _ _ Hrun) as (Hno & Hcols & _).
  exact (run_sat self p inp out m Hwf Hno Hcols Hrows obj m' Hrun sigma
           (feasible_respects_self _ _ Hf) c).
Qed.

Lemma facts_binary k n :
  k < shape0 inp -> n < capacity (tree_ p) -> is_binary (act k n).
Proof.
  destruct (run_shapes _ _ _ _ _ _ _ Hrun) as (Hno & Hcols & _).
  exact (run_binary self p inp out m Hwf Hno Hcols Hrows obj m' Hrun sigma
           (feasible_respects_self _ _ Hf) k n).
Qed.

Lemma exactly_one_leaf_active_helper k :
  k < shape0 inp ->
  exists leaf, In leaf (leaf_nodes (tree_ p)) /\
               (sigma (item (nodevars obj) k leaf) == 1)%Q.
Proof.
  intros Hk.
  assert (H : sat sigma (one_leaf_constr
                           (map (item (nodevars obj) k) (leaf_nodes (tree_ p)))))
    by (apply facts_sat; now apply TC_one_leaf).
  apply sat_one_leaf in H. rewrite map_map in H.
  apply (Qsum_binary_one (fun n => sigma (item (nodevars obj) k n))); [|exact H].
  intros n Hn. apply (leaf_nodes_In _ _ Hwf) in Hn as [Hn _].
  now apply facts_binary.
Qed.

(** X1.  The root is on every path: for a well-formed tree, every feasible
    solution activates node 0 for every example. *)
Theorem root_is_active k :
  k < shape0 inp -> (sigma (item (nodevars obj) k 0) == 1)%Q.
Proof.
  intros Hk.
  apply (root_active (tree_ p) (shape1 inp) Hwf (act k)
           (repeat 0%Q (shape1 inp)) (repeat_length _ _)).
  - intros n Hn. now apply facts_binary.
  - intros n Hn Hl. apply sat_ge, facts_sat. now apply TC_ge_left.
  - intros n Hn Hl. apply sat_ge, facts_sat. now apply TC_ge_right.
  - assert (H : sat sigma (one_leaf_constr
                             (map (item (nodevars obj) k) (leaf_nodes (tree_ p)))))
      by (apply facts_sat; now apply TC_one_leaf).
    apply sat_one_leaf in H. rewrite map_map in H. exact H.
Qed.

(** X2.  Activation is conserved along the tree: at a split node of a
    well-formed tree, the activation of the node is the sum of the
    activations of its two children, so an active split node has exactly
    one active child and an inactive one has none. *)
Theorem split_activation_is_sum_of_children k n :
  k < shape0 inp -> n < capacity (tree_ p) -> is_leaf (tree_ p) n = false ->
  (sigma (item (nodevars obj) k n) ==
   sigma (item (nodevars obj) k (left_child (tree_ p) n)) +
   sigma (item (nodevars obj) k (right_child (tree_ p) n)))%Q.
Proof.
  intros Hk Hn Hl.
  destruct (wf_children _ _ Hwf n Hn Hl) as (G1 & G2 & _).
  pose proof (proj1 (sat_ge sigma _ _)
                (facts_sat _ (TC_ge_left self (tree_ p) inp out _ k n Hk Hn Hl))) as H1.
  pose proof (proj1 (sat_ge sigma _ _)
                (facts_sat _ (TC_ge_right self (tree_ p) inp out _ k n Hk Hn Hl))) as H2.
  pose proof (proj1 (sat_le_sum sigma _ _ _)
                (facts_sat _ (TC_le_sum self (tree_ p) inp out _ k n Hk Hn Hl))) as H3.
  pose proof (proj1 (sat_sum_le_one sigma _ _)
                (facts_sat _ (TC_exclusive self (tree_ p) inp out _ k n Hk Hn Hl))) as H4.
  destruct (facts_binary k (left_child (tree_ p) n) Hk) as [L|L]; [lia| |];
    destruct (facts_binary k (right_child (tree_ p) n) Hk) as [R|R]; try lia;
    lra.
Qed.

(** X3.  The two branch constants leave a gap: in a feasible solution the
    split feature of an active split node is at most the constant of the
    left branch, the converted threshold, or at least the constant of the
    right branch, the float sum of the converted threshold and [eps].  The
    root being always active, a root split whose feature is fixed strictly
    between the two constants makes the model infeasible. *)
Theorem active_split_excludes_gap k n :
  k < shape0 inp -> n < capacity (tree_ p) -> is_leaf (tree_ p) n = false ->
  (sigma (item (nodevars obj) k n) == 1)%Q ->
  (sigma (item inp k (split_feature (tree_ p) n))
   <= float_type self (stored_threshold (tree_ p) n))%Q \/
  (right_constant self (stored_threshold (tree_ p) n)
   <= sigma (item inp k (split_feature (tree_ p) n)))%Q.
Proof.
  intros Hk Hn Hl Ha.
  destruct (wf_children _ _ Hwf n Hn Hl) as (G1 & G2 & _).
  pose proof (proj1 (sat_le_sum sigma _ _ _)
                (facts_sat _ (TC_le_sum self (tree_ p) inp out _ k n Hk Hn Hl))) as Hsum.
  destruct (facts_binary k (left_child (tree_ p) n) Hk) as [L|L]; [lia| |].
  - right.
    apply (sat_right sigma self (item (nodevars obj) k (right_child (tree_ p) n))).
    + apply facts_sat. now apply TC_right.
    + destruct (facts_binary k (right_child (tree_ p) n) Hk) as [R|R];
        [lia| |exact R]. lra.
  - left.
    apply (sat_left sigma self (item (nodevars obj) k (left_child (tree_ p) n))).
    + apply facts_sat. now apply TC_left.
    + exact L.
Qed.

(** X4.  Whatever the inputs, the output of every example is the value of a
    leaf: the one leaf that is active for the example. *)
Theorem output_is_value_of_active_leaf k :
  k < shape0 inp ->
  exists leaf v,
    In leaf (leaf_nodes (tree_ p)) /\
    (sigma (item (nodevars obj) k leaf) == 1)%Q /\
    value00 (tree_ p) leaf = Some v /\
    (sigma (item out k 0) == v)%Q.
Proof.
  intros Hk.
  destruct (exactly_one_leaf_active_helper k Hk) as (leaf & Hin & Ha).
  pose proof (proj1 (leaf_nodes_In _ _ Hwf leaf) Hin) as [Hn Hl].
  destruct (wf_value _ _ Hwf leaf Hn) as (v & Hv).
  exists leaf, v. repeat split; try assumption.
  apply (sat_leaf sigma (item (nodevars obj) k leaf)); [|exact Ha].
  apply facts_sat. now apply TC_leaf.
Qed.

End TreeFacts.

Lemma root_is_active_witness :
  (left_solution (item (nodevars exact_obj) 0 0) == 1)%Q.
Proof.
  apply (root_is_active default_options Examples.exact_tree Examples.inp
           Examples.out Examples.m0 exact_model exact_obj left_solution).
  - reflexivity.
  - simpl. lia.
  - reflexivity.
  - apply feasibleb_sound. vm_compute. reflexivity.
  - simpl. lia.
Defined.

Lemma split_activation_is_sum_of_children_witness :
  (left_solution (item (nodevars exact_obj) 0 0) ==
   left_solution (item (nodevars exact_obj) 0
                    (left_child (tree_ Examples.exact_tree) 0)) +
   left_solution (item (nodevars exact_obj) 0
                    (right_child (tree_ Examples.exact_tree) 0)))%Q.
Proof.
  apply (split_activation_is_sum_of_children default_options Examples.exact_tree
           Examples.inp Examples.out Examples.m0 exact_model exact_obj left_solution).
  - reflexivity.
  - simpl. lia.
  - reflexivity.
  - apply feasibleb_sound. vm_compute. reflexivity.
  - simpl. lia.
  - simpl. lia.
  - reflexivity.
Defined.

Lemma active_split_excludes_gap_witness :
  (left_solution (item Examples.inp 0 (split_feature (tree_ Examples.exact_tree) 0))
   <= Np.float32 (stored_threshold (tree_ Examples.exact_tree) 0))%Q \/
  (right_constant default_options (stored_threshold (tree_ Examples.exact_tree) 0)
   <= left_solution (item Examples.inp 0
                       (split_feature (tree_ Examples.exact_tree) 0)))%Q.
Proof.
  apply (active_split_excludes_gap default_options Examples.exact_tree
           Examples.inp Examples.out Examples.m0 exact_model exact_obj left_solution
           ltac:(reflexivity) ltac:(simpl; lia) ltac:(reflexivity)
           ltac:(apply feasibleb_sound; vm_compute; reflexivity) 0 0).
  - simpl. lia.
  - simpl. lia.
  - reflexivity.
  - reflexivity.
Defined.

Lemma output_is_value_of_active_leaf_witness :
  exists leaf v,
    In leaf (leaf_nodes (tree_ Examples.exact_tree)) /\
    (left_solution (item (nodevars exact_obj) 0 leaf) == 1)%Q /\
    value00 (tree_ Examples.exact_tree) leaf = Some v /\
    (left_solution (item Examples.out 0 0) == v)%Q.
Proof.
  apply (output_is_value_of_active_leaf default_options Examples.exact_tree
           Examples.inp Examples.out Examples.m0 exact_model exact_obj left_solution).
  - reflexivity.
  - simpl. lia.
  - reflexivity.
  - apply feasibleb_sound. vm_compute. reflexivity.
  - simpl. lia.
Defined.

Lemma length_update_vars a f ds : length (update_vars a f ds) = length ds.
Proof.
  unfold update_vars. rewrite length_map, length_combine, length_seq. lia.
Qed.

Lemma run_var_count self p inp out m obj m' :
  DecisionTreeRegressorConstr self p inp out m = (Ok obj, m') ->
  length (Vars m') = length (Vars m) + shape0 inp * capacity (tree_ p).
Proof.
  intros H. apply DecisionTreeRegressorConstr_Ok in H as (_ & H & _).
  apply mip_model_Ok in H as (_ & _ & cs & lo & hi & _ & _ & _ & ->).
  simpl. unfold tree_vars.
  unfold node_decls. now rewrite !length_update_vars, length_app, length_new_vars.
Qed.

(** X5.  The single-tree encoder only adds to the model: existing constraints
    stay, in place, before the new ones; [examples * capacity] variables are
    appended; an existing variable keeps its type and name, and a variable
    outside the output array keeps its whole declaration (the bounds of the
    output variables are the only thing rewritten). *)
Theorem tree_encoder_only_adds self p inp out m obj m' :
  DecisionTreeRegressorConstr self p inp out m = (Ok obj, m') ->
  (exists cs, Constrs m' = Constrs m ++ cs) /\
  length (Vars m') = length (Vars m) + shape0 inp * capacity (tree_ p) /\
  forall x d, nth_error (Vars m) x = Some d ->
    exists d',
      nth_error (Vars m') x = Some d' /\
      VType d' = VType d /\ VarName d' = VarName d /\
      (mvar_mem out x = false -> d' = d).
Proof.
  intros H. apply DecisionTreeRegressorConstr_Ok in H as (_ & H & _).
  apply mip_model_Ok in H as (_ & _ & cs & lo & hi & _ & _ & _ & ->).
  simpl. split; [eauto|]. split.
  - unfold tree_vars. unfold node_decls. now rewrite !length_update_vars, length_app, length_new_vars.
  - intros x d Hd. rewrite tree_vars_nth.
    rewrite nth_error_app1 by (apply nth_error_Some; congruence).
    rewrite Hd. simpl. eexists. split; [reflexivity|].
    destruct (mvar_mem out x); simpl; repeat split; auto. discriminate.
Qed.

Lemma tree_encoder_only_adds_witness :
  (exists cs, Constrs exact_model = Constrs Examples.m0 ++ cs) /\
  length (Vars exact_model) =
    length (Vars Examples.m0) +
    shape0 Examples.inp * capacity (tree_ Examples.exact_tree) /\
  forall x d, nth_error (Vars Examples.m0) x = Some d ->
    exists d',
      nth_error (Vars exact_model) x = Some d' /\
      VType d' = VType d /\ VarName d' = VarName d /\
      (mvar_mem Examples.out x = false -> d' = d).
Proof.
  apply (tree_encoder_only_adds default_options Examples.exact_tree Examples.inp
           Examples.out Examples.m0 exact_obj exact_model).
  reflexivity.
Defined.

(** X6.  The node variables are new: each lies beyond the variables the model
    had and within those it has afterwards, is declared binary there, and
    distinct (example, node) pairs get distinct variables. *)
Theorem node_variables_are_fresh self p inp out m obj m' k n :
  DecisionTreeRegressorConstr self p inp out m = (Ok obj, m') ->
  k < shape0 inp -> n < capacity (tree_ p) ->
  length (Vars m) <= item (nodevars obj) k n < length (Vars m') /\
  (exists d, nth_error (Vars m') (item (nodevars obj) k n) = Some d /\
             VType d = GRB_BINARY) /\
  forall k' n', k' < shape0 inp -> n' < capacity (tree_ p) ->
    item (nodevars obj) k n = item (nodevars obj) k' n' -> k = k' /\ n = n'.
Proof.
  intros H Hk Hn.
  pose proof (run_var_count _ _ _ _ _ _ _ H) as Hlen.
  apply DecisionTreeRegressorConstr_Ok in H as (_ & H & _).
  apply mip_model_Ok in H as (_ & Hnodes & cs & lo & hi & _ & _ & _ & ->).
  rewrite Hnodes, Hlen. simpl. split; [nia|]. split.
  - exact (fresh_nodes_binary p inp out m lo hi k n Hk Hn).
  - intros k' n' Hk' Hn' E.
    assert (E' : k * capacity (tree_ p) + n = k' * capacity (tree_ p) + n') by lia.
    assert (Hkk : k = k') by nia. subst k'. split; [reflexivity|lia].
Qed.

Lemma node_variables_are_fresh_witness :
  length (Vars Examples.m0) <= item (nodevars exact_obj) 0 1
    < length (Vars exact_model) /\
  (exists d, nth_error (Vars exact_model) (item (nodevars exact_obj) 0 1) = Some d /\
             VType d = GRB_BINARY) /\
  forall k' n', k' < shape0 Examples.inp -> n' < capacity (tree_ Examples.exact_tree) ->
    item (nodevars exact_obj) 0 1 = item (nodevars exact_obj) k' n' ->
    0 = k' /\ 1 = n'.
Proof.
  apply (node_variables_are_fresh default_options Examples.exact_tree Examples.inp
           Examples.out Examples.m0 exact_obj exact_model 0 1).
  - reflexivity.
  - simpl. lia.
  - simpl. lia.
Defined.


(* ================================================================== *)
(** ** Further properties of the ensemble encoders *)
(* ================================================================== *)

Lemma forM_Ok_In {A B} (body : A -> M B) l : forall m bs m',
  forM l body m = (Ok bs, m') ->
  forall b, In b bs -> exists a m1 m2, In a l /\ body a m1 = (Ok b, m2).
Proof.
  induction l as [|a l IH]; intros m bs m' H b Hb; simpl in H.
  - apply ret_Ok in H as [-> _]. destruct Hb.
  - apply bind_Ok in H as (b0 & m1 & Hb0 & H).
    apply bind_Ok in H as (bs' & m2 & Hbs & H).
    apply ret_Ok in H as [-> ->]. destruct Hb as [<-|Hb].
    + exists a, m, m1. simpl. auto.
    + destruct (IH _ _ _ Hbs b Hb) as (a' & ma & mb & Hin & Hr).
      exists a', ma, mb. simpl. auto.
Qed.

(** X7.  The ensemble encoders of [decisiontrees.py] hand none of their keyword
    arguments to the single-tree encoders they build: every member is
    encoded with the default [eps], [scale] and [float_type], on the inputs
    of the ensemble. *)
Theorem members_use_default_options :
  (forall p inp out m obj m',
     RandomForestRegressorConstr p inp out m = (Ok obj, m') ->
     forall e, In e (estimators_ obj) ->
       dt_options e = default_options /\ dt_input e = inp) /\
  (forall p inp out m obj m',
     GradientBoostingRegressorConstr p inp out m = (Ok obj, m') ->
     forall e, In e (estimators_ obj) ->
       dt_options e = default_options /\ dt_input e = inp).
Proof.
  split; intros p inp out m obj m' Hrun e He.
  - unfold RandomForestRegressorConstr in Hrun.
    destruct (negb (rf_n_outputs_ p =? 1)%Z); [discriminate|].
    apply bind_Ok in Hrun as (est & m1 & Hrun & Hret).
    apply ret_Ok in Hret as [-> ->]. simpl in He.
    apply forest_mip_model_Ok in Hrun as (m2 & Hloop & _).
    destruct (forM_Ok_In _ _ _ _ _ Hloop e He) as (i & ma & mb & _ & Hb).
    apply bind_Ok in Hb as (tree & mc & _ & Hb).
    apply DecisionTreeRegressorConstr_Ok in Hb as (_ & _ & ->). auto.
  - unfold GradientBoostingRegressorConstr in Hrun.
    apply bind_Ok in Hrun as (est & m1 & Hrun & Hret).
    apply ret_Ok in Hret as [-> ->]. simpl in He.
    apply boosting_mip_model_Ok in Hrun as (m2 & c & _ & Hloop & _).
    destruct (forM_Ok_In _ _ _ _ _ Hloop e He) as (i & ma & mb & _ & Hb).
    apply bind_Ok in Hb as (tree & mc & _ & Hb).
    apply DecisionTreeRegressorConstr_Ok in Hb as (_ & _ & ->). auto.
Qed.

Lemma members_use_default_options_witness :
  (forall e, In e (estimators_ Examples.forest_obj) ->
     dt_options e = default_options /\ dt_input e = Examples.inp) /\
  (forall e, In e (estimators_ Examples.boosting_obj) ->
     dt_options e = default_options /\ dt_input e = Examples.inp).
Proof.
  split.
  - exact (proj1 members_use_default_options Examples.forest Examples.inp
             Examples.out Examples.m0 Examples.forest_obj Examples.forest_model
             (run_of_is_ok Examples.forest_run (mkEnsembleConstr 0 [])
                ltac:(vm_compute; reflexivity))).
  - exact (proj2 members_use_default_options Examples.boosting Examples.inp
             Examples.out Examples.m0 Examples.boosting_obj Examples.boosting_model
             (run_of_is_ok Examples.boosting_run (mkEnsembleConstr 0 [])
                ltac:(vm_compute; reflexivity))).
Defined.


Lemma forM_Ok_nth_extends {A B} (body : A -> M B) l :
  (forall a m1 b m2, body a m1 = (Ok b, m2) -> extends m1 m2) ->
  forall m bs m',
    forM l body m = (Ok bs, m') ->
    forall i a, nth_error l i = Some a ->
      exists b m1 m2,
        nth_error bs i = Some b /\ body a m1 = (Ok b, m2) /\ extends m2 m'.
Proof.
  intros Hbody. induction l as [|a l IH]; intros m bs m' H i x Hx; simpl in H.
  - destruct i; discriminate.
  - apply bind_Ok in H as (b & m1 & Hb & H).
    apply bind_Ok in H as (bs' & m2 & Hbs & H).
    apply ret_Ok in H as [-> ->]. destruct i as [|i]; simpl in Hx.
    + inversion Hx; subst x. exists b, m, m1.
      split; [reflexivity|]. split; [exact Hb|].
      exact (forM_extends body l Hbody _ _ _ Hbs).
    + destruct (IH _ _ _ Hbs i x Hx) as (b' & ma & mb & H1 & H2 & H3).
      exists b', ma, mb. auto.
Qed.

Lemma Qsum_seq_nth {A} (d : A) (g : A -> Q) (l : list A) : forall (f : nat -> Q),
  (forall i, i < length l -> (f i == g (nth i l d))%Q) ->
  (Qsum (map f (seq 0 (length l))) == Qsum (map g l))%Q.
Proof.
  induction l as [|a l IH]; intros f Hf; simpl; [reflexivity|].
  rewrite <- seq_shift, map_map.
  rewrite (IH (fun i => f (S i))).
  - rewrite (Hf 0) by (simpl; lia). simpl. reflexivity.
  - intros i Hi. apply (Hf (S i)). simpl. lia.
Qed.

(** What a member contributes: its auxiliary variable carries its
    prediction. *)
Lemma member_output_is_prediction tree inp tv i m1 e m2 m' sigma X k :
  DecisionTreeRegressorConstr default_options tree inp (column tv i) m1 = (Ok e, m2) ->
  extends m2 m' -> feasible sigma m' ->
  tree_wf (tree_ tree) (shape1 inp) = true ->
  margin_kept default_options (tree_ tree) ->
  shape0 tv = shape0 inp ->
  length X = shape1 inp -> k < shape0 inp ->
  (forall f, f < shape1 inp -> (sigma (item inp k f) == nth f X 0)%Q) ->
  (exists v, predict_with Np.float32 (tree_ tree) X = Some v) /\
  (sigma (item tv k i) == member_prediction X tree)%Q.
Proof.
  intros Hrun Hext Hf Hwf Hmargin Hrows HX Hk Hfix.
  destruct (run_shapes _ _ _ _ _ _ _ Hrun) as (Hno & _ & _).
  destruct (run_routed default_options tree inp (column tv i) m1 Hwf Hno eq_refl
              ltac:(simpl; lia) e m2 Hrun sigma (feasible_respects _ _ _ Hext Hf)
              X k Hmargin HX Hk Hfix) as (v & Hp & Hv).
  simpl in Hp, Hv. split; [eauto|].
  unfold member_prediction. now rewrite Hp.
Qed.




(** The loop of the boosting encoder and what follows it. *)
Lemma boosting_helper p inp out m obj m' :
  GradientBoostingRegressorConstr p inp out m = (Ok obj, m') ->
  let M := gb_n_estimators_ p in
  let tv := fresh_matrix m (shape0 inp) M in
  exists m2 c,
    forM (seq 0 M)
      (fun i =>
         tree0 <- lookup (GradientBoosting.stage p i) ;;
         DecisionTreeRegressorConstr default_options tree0 inp (column tv i))
      (mkModel (Vars m ++ aux_decls (shape0 inp) (M)) (Constrs m))
    = (Ok (estimators_ obj), m2) /\
    extends m2 m' /\
    GradientBoosting.constant00 p = Some c /\
    forall sigma, feasible sigma m' ->
      forall k, k < shape0 inp ->
        (sigma (item out k 0) ==
         gb_learning_rate p * aux_sum sigma M (item tv) k + c)%Q.
Proof.
  intros Hrun M tv. unfold GradientBoostingRegressorConstr in Hrun.
  apply bind_Ok in Hrun as (est & m1 & Hrun & Hret).
  apply ret_Ok in Hret as [-> ->]. simpl.
  unfold AbstractPredictorConstr_init in Hrun.
  apply boosting_mip_model_Ok in Hrun as (m2 & c & Hd & Hloop & Hc & Hr & ->).
  exists m2, c. split; [exact Hloop|]. split; [apply with_constrs_extends|].
  split; [exact Hc|].
  intros sigma Hf k Hk. unfold aux_sum. rewrite <- (map_map (item tv k) sigma).
  apply sat_eq_scaled_sum_plus. apply (proj2 Hf). simpl.
  apply in_app_iff. right. apply In_entries. exists k, 0.
  split; [lia|]. split; [lia|reflexivity].
Qed.

(** X8.  The boosting encoding of [decisiontrees.py] composes with the tree
    encodings: for stages with well-formed trees that keep the margin with
    the default options and an example whose inputs are fixed to the sample
    [X], every feasible solution satisfies
    [output = learning_rate * sum of the stages' predictions + constant],
    each stage predicting with its thresholds converted to binary32. *)
Theorem boosting_encodes_scaled_sum_of_predictions p inp out m obj m' sigma X k :
  GradientBoostingRegressorConstr p inp out m = (Ok obj, m') ->
  length (gb_estimators_ p) = gb_n_estimators_ p ->
  (forall stage tree, In stage (gb_estimators_ p) -> Np.index stage 0 = Some tree ->
     tree_wf (tree_ tree) (shape1 inp) = true /\
     default_margin_kept (tree_ tree)) ->
  feasible sigma m' ->
  length X = shape1 inp -> k < shape0 inp ->
  (forall f, f < shape1 inp -> (sigma (item inp k f) == nth f X 0)%Q) ->
  exists c,
    GradientBoosting.constant00 p = Some c /\
    (sigma (item out k 0) ==
     gb_learning_rate p * Qsum (map (stage_prediction X) (gb_estimators_ p)) + c)%Q.
Proof.
  intros Hrun Hlen Hwf Hf HX Hk Hfix.
  destruct (boosting_helper p inp out m obj m' Hrun)
    as (m2 & c & Hloop & Hext & Hc & Hsum).
  set (tv := fresh_matrix m (shape0 inp) (gb_n_estimators_ p)) in *.
  exists c. split; [exact Hc|].
  rewrite (Hsum sigma Hf k Hk).
  assert (E : (aux_sum sigma (gb_n_estimators_ p) (item tv) k ==
               Qsum (map (stage_prediction X) (gb_estimators_ p)))%Q).
  { unfold aux_sum. rewrite <- Hlen.
    apply (Qsum_seq_nth [] (stage_prediction X)). intros i Hi.
    assert (Hi' : i < gb_n_estimators_ p) by (rewrite <- Hlen; exact Hi).
    destruct (forM_Ok_nth_extends _ _
                (fun i ma e mb => boosting_stage_extends p inp tv i ma e mb)
                _ _ _ Hloop i i) as (e & ma & mb & _ & Hb & Hmb).
    { rewrite nth_error_seq. apply Nat.ltb_lt in Hi'. now rewrite Hi'. }
    apply bind_Ok in Hb as (tree & mc & H1 & Hb).
    apply lookup_Ok in H1 as [Ht ->]. unfold GradientBoosting.stage in Ht.
    destruct (Np.index (gb_estimators_ p) (Z.of_nat i)) as [stage|] eqn:Es;
      [|discriminate].
    apply index_nat_Some in Es.
    rewrite (nth_error_nth _ _ [] Es).
    unfold stage_prediction. rewrite Ht.
    destruct (Hwf stage tree (nth_error_In _ _ Es) Ht) as [Hwf' [Hmargin _]].
    apply (member_output_is_prediction tree inp tv i ma e mb m'); auto.
    eapply extends_trans; [exact Hmb|exact Hext]. }
  rewrite E. reflexivity.
Qed.

Lemma boosting_encodes_scaled_sum_of_predictions_witness :
  exists c,
    GradientBoosting.constant00 Examples.boosting = Some c /\
    (boosting_solution (item Examples.out 0 0) ==
     gb_learning_rate Examples.boosting *
     Qsum (map (stage_prediction [(1 # 2)%Q]) (gb_estimators_ Examples.boosting)) + c)%Q.
Proof.
  apply (boosting_encodes_scaled_sum_of_predictions Examples.boosting Examples.inp
           Examples.out Examples.m0 Examples.boosting_obj Examples.boosting_model
           boosting_solution [(1 # 2)%Q] 0
           (run_of_is_ok Examples.boosting_run (mkEnsembleConstr 0 [])
              ltac:(vm_compute; reflexivity))).
  - reflexivity.
  - intros stage tree [<-|[<-|[]]] H; vm_compute in H; inversion H;
      (split; [reflexivity|]); split;
      intros n Hn Hl; destruct n as [|[|[|n]]];
      try discriminate Hl; try (simpl in Hn; lia); vm_compute; reflexivity.
  - apply feasibleb_sound. vm_compute. reflexivity.
  - reflexivity.
  - simpl. lia.
  - intros f Hf. replace f with 0 by (simpl in Hf; lia). reflexivity.
Defined.

(* ================================================================== *)
(** ** Size of the encoding *)
(* ================================================================== *)

Lemma length_entries rows cols f : length (entries rows cols f) = rows * cols.
Proof.
  unfold entries.
  assert (G : forall l, length (flat_map (fun k => map (f k) (seq 0 cols)) l)
                        = length l * cols).
  { induction l as [|k l IH]; simpl; [reflexivity|].
    now rewrite length_app, length_map, length_seq, IH. }
  now rewrite G, length_seq.
Qed.

Lemma length_concat_map {A B} (g : A -> list B) l :
  length (concat (map g l)) = list_sum (map (fun a => length (g a)) l).
Proof.
  induction l as [|a l IH]; simpl; [reflexivity|]. now rewrite length_app, IH.
Qed.

Lemma count_leaves_and_splits (cl : list Z) (F : nat -> bool) a b : forall s,
  (forall j, j < length cl -> F (s + j) = (nth j cl (-1) <? 0)%Z) ->
  list_sum (map (fun n => if F n then a else b) (seq s (length cl))) =
  a * length (Np.nonzero_from s (map (fun c => (c <? 0)%Z) cl)) +
  b * length (Np.nonzero_from s (map (fun c => (0 <=? c)%Z) cl)).
Proof.
  induction cl as [|c cl IH]; intros s HF; simpl; [lia|].
  pose proof (HF 0 ltac:(simpl; lia)) as H0. rewrite Nat.add_0_r in H0.
  simpl in H0. rewrite H0.
  rewrite (IH (S s)).
  - destruct (c <? 0)%Z eqn:E.
    + apply Z.ltb_lt in E. assert (E' : (0 <=? c)%Z = false) by (apply Z.leb_gt; lia).
      rewrite E'. simpl. lia.
    + apply Z.ltb_ge in E. assert (E' : (0 <=? c)%Z = true) by (apply Z.leb_le; lia).
      rewrite E'. simpl. lia.
  - intros j Hj. replace (S s + j) with (s + S j) by lia.
    rewrite HF by (simpl; lia). reflexivity.
Qed.

Lemma nodes_partition t :
  length (children_left t) = capacity t ->
  length (split_nodes t) + length (leaf_nodes t) = capacity t.
Proof.
  intros Hlen.
  pose proof (count_leaves_and_splits (children_left t)
                (fun n => (nth n (children_left t) (-1) <? 0)%Z) 1 1 0
                ltac:(intros j Hj; reflexivity)) as H.
  assert (G : forall l, list_sum (map (fun n : nat =>
                if (nth n (children_left t) (-1) <? 0)%Z then 1 else 1) l) = length l).
  { induction l as [|n l IH]; simpl; [reflexivity|].
    rewrite IH. now destruct (nth n (children_left t) (-1) <? 0)%Z. }
  rewrite G, length_seq in H. unfold split_nodes, leaf_nodes, Np.nonzero. lia.
Qed.

(** X9.  The size of the encoding of a well-formed tree with [S] split nodes
    and [L] leaves, for [E] examples: [E * (S + L)] binary variables and
    [E * (6 * S + L + 1)] constraints are added, four bulk constraints and
    two indicators per split node, one indicator per leaf and one
    choice-of-leaf constraint, for each example. *)
Theorem encoding_size self p inp out m obj m' :
  tree_wf (tree_ p) (shape1 inp) = true ->
  shape0 inp <= shape0 out ->
  DecisionTreeRegressorConstr self p inp out m = (Ok obj, m') ->
  let S := length (split_nodes (tree_ p)) in
  let L := length (leaf_nodes (tree_ p)) in
  length (Vars m') = length (Vars m) + shape0 inp * (S + L) /\
  length (Constrs m') = length (Constrs m) + shape0 inp * (6 * S + L + 1).
Proof.
  intros Hwf Hrows Hrun S L.
  pose proof (run_var_count _ _ _ _ _ _ _ Hrun) as Hvars.
  destruct (run_shapes _ _ _ _ _ _ _ Hrun) as (Hno & Hcols & Hnodes).
  split.
  - rewrite Hvars. unfold S, L.
    now rewrite (nodes_partition _ (wf_length_left _ _ Hwf)).
  - apply DecisionTreeRegressorConstr_Ok in Hrun as (_ & Hrun & _).
    apply mip_model_Ok in Hrun as (_ & _ & cs & lo & hi & Hcs & _ & _ & ->).
    rewrite Hnodes in Hcs. simpl. rewrite length_app. f_equal.
    set (N := fresh_nodes p inp m) in *.
    assert (HrN : shape0 N = shape0 inp) by reflexivity.
    assert (HcN : shape1 N = capacity (tree_ p)) by reflexivity.
    unfold tree_constraints in Hcs.
    unfold DecisionTree.parent_ge_child, DecisionTree.parent_le_children,
      DecisionTree.children_exclusive, DecisionTree.one_leaf in Hcs.
    rewrite (take_mask_notleafs p inp N Hwf HcN) in Hcs.
    rewrite (select_children p inp Hwf _ (wf_length_left _ _ Hwf)) in Hcs.
    rewrite (take_children p inp N Hwf HcN (children_left (tree_ p))) in Hcs
      by (intros n Hn Hl; pose proof (wf_split _ _ Hwf n Hn Hl); lia).
    rewrite (select_children p inp Hwf _ (wf_length_right _ _ Hwf)) in Hcs.
    rewrite (take_children p inp N Hwf HcN (children_right (tree_ p))) in Hcs
      by (intros n Hn Hl; pose proof (wf_split _ _ Hwf n Hn Hl); lia).
    rewrite (children_sum_wf p inp N Hwf HrN HcN) in Hcs.
    unfold compare, same_shape in Hcs. simpl in Hcs.
    rewrite ?length_map, !Nat.eqb_refl in Hcs. simpl in Hcs.
    rewrite (mapM_Some _ (fun n =>
               if is_leaf (tree_ p) n
               then map (fun k => match value00 (tree_ p) n with
                                  | Some v => leaf_constr (item N k n) (item out k 0) v
                                  | None => leaf_constr (item N k n) (item out k 0) 0
                                  end) (seq 0 (shape0 inp))
               else map (fun k => left_constr self (item N k (left_child (tree_ p) n))
                                    (item inp k (split_feature (tree_ p) n))
                                    (stored_threshold (tree_ p) n))
                        (seq 0 (shape0 inp))
                    ++ map (fun k => right_constr self
                                    (item N k (right_child (tree_ p) n))
                                    (item inp k (split_feature (tree_ p) n))
                                    (stored_threshold (tree_ p) n))
                        (seq 0 (shape0 inp)))) in Hcs
      by (intros n Hn; apply in_seq in Hn;
          apply (node_constraints_wf self p inp out N Hwf HrN HcN Hrows ltac:(lia)); lia).
    unfold take_mask in Hcs. unfold DecisionTree.leafs at 1 in Hcs.
    rewrite length_map, (wf_length_left _ _ Hwf), HcN, Nat.eqb_refl in Hcs.
    inversion Hcs; subst cs; clear Hcs.
    unfold compare_const. simpl.
    rewrite !length_app, !length_entries, length_concat_map.
    rewrite (map_ext_in _ (fun n => if is_leaf (tree_ p) n
                                    then shape0 inp else 2 * shape0 inp)).
    + rewrite <- (wf_length_left _ _ Hwf) at 1.
      rewrite (count_leaves_and_splits (children_left (tree_ p))
                 (is_leaf (tree_ p)) (shape0 inp) (2 * shape0 inp) 0)
        by (intros j Hj; reflexivity).
      fold (Np.nonzero (map (fun c => (c <? 0)%Z) (children_left (tree_ p)))).
      fold (Np.nonzero (map (fun c => (0 <=? c)%Z) (children_left (tree_ p)))).
      fold (leaf_nodes (tree_ p)) (split_nodes (tree_ p)).
      fold (DecisionTree.notleafs p). fold (DecisionTree.leafs p).
      change (Np.nonzero (DecisionTree.notleafs p)) with (split_nodes (tree_ p)).
      change (Np.nonzero (DecisionTree.leafs p)) with (leaf_nodes (tree_ p)).
      fold S L. lia.
    + intros n Hn. destruct (is_leaf (tree_ p) n).
      * now rewrite length_map, length_seq.
      * rewrite length_app, !length_map, length_seq. lia.
Qed.

Lemma encoding_size_witness :
  let S := length (split_nodes (tree_ Examples.exact_tree)) in
  let L := length (leaf_nodes (tree_ Examples.exact_tree)) in
  length (Vars exact_model) =
    length (Vars Examples.m0) + shape0 Examples.inp * (S + L) /\
  length (Constrs exact_model) =
    length (Constrs Examples.m0) + shape0 Examples.inp * (6 * S + L + 1).
Proof.
  apply (encoding_size default_options Examples.exact_tree Examples.inp
           Examples.out Examples.m0 exact_obj exact_model).
  - reflexivity.
  - simpl. lia.
  - reflexivity.
Defined.

(* ================================================================== *)
(** ** Completion of the ensemble encoders *)
(* ================================================================== *)

(** With NumPy's [np.float32], the default, no quotient raises. *)
Lemma default_no_zero_division t : no_zero_division default_options t.
Proof. intros thr _. discriminate. Qed.

Lemma forM_completes {A B} (body : A -> M B) l :
  (forall a, In a l -> forall m, exists b m', body a m = (Ok b, m')) ->
  forall m, exists bs m', forM l body m = (Ok bs, m').
Proof.
  induction l as [|a l IH]; intros Hbody m; simpl.
  - eexists _, _. reflexivity.
  - destruct (Hbody a (or_introl eq_refl) m) as (b & m1 & Hb).
    destruct (IH (fun a' H => Hbody a' (or_intror H)) m1) as (bs & m2 & Hbs).
    exists (b :: bs), m2. apply bind_Ok. exists b, m1. split; [exact Hb|].
    apply bind_Ok. exists bs, m2. split; [exact Hbs|reflexivity].
Qed.

(** X10.  On a forest whose [estimators_] holds [n_estimators] well-formed
    single-output trees, with an output array of one column and as many
    rows as the input array, the forest encoder raises nothing. *)
Theorem forest_encoder_completes p inp out m :
  rf_n_outputs_ p = 1%Z ->
  length (rf_estimators_ p) = rf_n_estimators p ->
  (forall tree, In tree (rf_estimators_ p) ->
     tree_wf (tree_ tree) (shape1 inp) = true /\ n_outputs_ tree = 1%Z) ->
  0 < shape1 out -> shape0 out = shape0 inp ->
  exists obj m', RandomForestRegressorConstr p inp out m = (Ok obj, m').
Proof.
  intros Hno Hlen Htrees Hc Hr.
  unfold RandomForestRegressorConstr, AbstractPredictorConstr_init,
    RandomForest._mip_model.
  rewrite Hno. simpl.
  set (tv := mkMVar (shape0 inp) (rf_n_estimators p)
               (fun k j => length (Vars m) + k * rf_n_estimators p + j)).
  set (m1 := mkModel (Vars m ++ aux_decls (shape0 inp) (rf_n_estimators p)) (Constrs m)).
  destruct (forM_completes
              (fun i =>
                 tree <- lookup (Np.index (rf_estimators_ p) (Z.of_nat i)) ;;
                 DecisionTreeRegressorConstr default_options tree inp (column tv i))
              (seq 0 (rf_n_estimators p))) with (m := m1) as (est & m2 & Hloop).
  { intros i Hi ma. apply in_seq in Hi.
    assert (Hi' : i < length (rf_estimators_ p)) by lia.
    destruct (Htrees (nth i (rf_estimators_ p) Examples.exact_tree)) as (Hwf & Hn).
    { now apply nth_In. }
    destruct (DecisionTreeRegressorConstr_wf default_options
                (nth i (rf_estimators_ p) Examples.exact_tree) inp (column tv i) ma
                Hwf Hn eq_refl ltac:(simpl; lia) (default_no_zero_division _))
      as (cs & lo & hi & Hrun & _).
    eexists _, _. apply bind_Ok. eexists _, ma. split; [|exact Hrun].
    apply lookup_Ok. split; [|reflexivity]. now apply index_nat. }
  eexists _, _. apply bind_Ok. exists est. eexists. split; [|reflexivity].
  apply bind_Ok. exists tv, m1. split; [reflexivity|].
  apply bind_Ok. exists est, m2. split; [exact Hloop|].
  apply bind_Ok. exists (column out 0), m2. split.
  { apply lookup_Ok. split; [|reflexivity]. unfold column0.
    apply Nat.ltb_lt in Hc. now rewrite Hc. }
  apply bind_Ok. eexists _, m2. split.
  { apply checked_Ok. split; [|reflexivity].
    unfold compare, same_shape. simpl. rewrite Hr, Nat.eqb_refl. reflexivity. }
  apply bind_Ok. eexists tt, _. split; [reflexivity|]. reflexivity.
Qed.

Lemma forest_encoder_completes_witness :
  exists obj m',
    RandomForestRegressorConstr Examples.forest Examples.inp Examples.out Examples.m0
    = (Ok obj, m').
Proof.
  apply (forest_encoder_completes Examples.forest Examples.inp Examples.out
           Examples.m0).
  - reflexivity.
  - reflexivity.
  - intros tree [<-|[<-|[]]]; split; reflexivity.
  - simpl. lia.
  - reflexivity.
Defined.

(** X11.  On an ensemble whose [estimators_] holds [n_estimators_] stages, each
    with a well-formed single-output tree in first place, with an initial
    constant and an output array of one column and as many rows as the
    input array, the boosting encoder of [decisiontrees.py] raises
    nothing. *)
Theorem boosting_encoder_completes p inp out m :
  length (gb_estimators_ p) = gb_n_estimators_ p ->
  (forall stage, In stage (gb_estimators_ p) ->
     exists tree, Np.index stage 0 = Some tree /\
                  tree_wf (tree_ tree) (shape1 inp) = true /\ n_outputs_ tree = 1%Z) ->
  (exists c, GradientBoosting.constant00 p = Some c) ->
  shape1 out = 1 -> shape0 out = shape0 inp ->
  exists obj m', GradientBoostingRegressorConstr p inp out m = (Ok obj, m').
Proof.
  intros Hlen Hstages (c & Hconst) Hc Hr.
  unfold GradientBoostingRegressorConstr, AbstractPredictorConstr_init,
    GradientBoosting._mip_model.
  rewrite Hc. simpl.
  set (tv := mkMVar (shape0 inp) (gb_n_estimators_ p)
               (fun k j => length (Vars m) + k * gb_n_estimators_ p + j)).
  set (m1 := mkModel (Vars m ++ aux_decls (shape0 inp) (gb_n_estimators_ p)) (Constrs m)).
  destruct (forM_completes
              (fun i =>
                 tree0 <- lookup (GradientBoosting.stage p i) ;;
                 DecisionTreeRegressorConstr default_options tree0 inp (column tv i))
              (seq 0 (gb_n_estimators_ p))) with (m := m1) as (est & m2 & Hloop).
  { intros i Hi ma. apply in_seq in Hi.
    assert (Hi' : i < length (gb_estimators_ p)) by lia.
    destruct (Hstages (nth i (gb_estimators_ p) [])) as (tree & Ht & Hwf & Hn).
    { now apply nth_In. }
    destruct (DecisionTreeRegressorConstr_wf default_options tree inp (column tv i) ma
                Hwf Hn eq_refl ltac:(simpl; lia) (default_no_zero_division _))
      as (cs & lo & hi & Hrun & _).
    eexists _, _. apply bind_Ok. eexists _, ma. split; [|exact Hrun].
    apply lookup_Ok. split; [|reflexivity]. unfold GradientBoosting.stage.
    now rewrite (index_nat [] _ _ Hi'). }
  eexists _, _. apply bind_Ok. exists est. eexists. split; [|reflexivity].
  apply bind_Ok. exists tv, m1. split; [reflexivity|].
  apply bind_Ok. exists est, m2. split; [exact Hloop|].
  apply bind_Ok. exists (column out 0), m2. split.
  { apply lookup_Ok. split; [|reflexivity]. unfold column0. now rewrite Hc. }
  apply bind_Ok. exists c, m2. split; [apply lookup_Ok; auto|].
  apply bind_Ok. eexists _, m2. split.
  { apply checked_Ok. split; [|reflexivity].
    unfold compare, same_shape. simpl. rewrite Hr, Nat.eqb_refl. reflexivity. }
  apply bind_Ok. eexists tt, _. split; [reflexivity|]. reflexivity.
Qed.

Lemma boosting_encoder_completes_witness :
  exists obj m',
    GradientBoostingRegressorConstr Examples.boosting Examples.inp Examples.out
      Examples.m0 = (Ok obj, m').
Proof.
  apply (boosting_encoder_completes Examples.boosting Examples.inp Examples.out
           Examples.m0).
  - reflexivity.
  - intros stage [<-|[<-|[]]]; eexists; repeat split; reflexivity.
  - exists 3%Q. reflexivity.
  - reflexivity.
  - reflexivity.
Defined.

(* ================================================================== *)
(** ** The report of the boosting encoder *)
(* ================================================================== *)

Lemma string_append_nil_r (s : string) : (s ++ "")%string = s.
Proof. induction s as [|c s IH]; simpl; [reflexivity|now rewrite IH]. Qed.

Lemma string_append_assoc (a b c : string) :
  ((a ++ b) ++ c)%string = (a ++ b ++ c)%string.
Proof. induction a as [|x a IH]; simpl; [reflexivity|now rewrite IH]. Qed.

Section ReportLayout.

Local Open Scope string_scope.

Variable Estimator : Type.
Variable super_print_stats : bool -> string -> string.
Variable estimator_print_stats : Estimator -> bool -> string -> string.
Variable super_text : bool -> string.
Variable estimator_text : Estimator -> string.

(** The printers this one calls write after what the stream holds. *)
Hypothesis super_appends : forall abbrev stream,
  super_print_stats abbrev stream = stream ++ super_text abbrev.
Hypothesis estimator_appends : forall estimator stream,
  estimator_print_stats estimator true stream = stream ++ estimator_text estimator.

Lemma print_estimators_appends estimators : forall stream,
  Report.print_estimators Estimator estimator_print_stats estimators stream =
  stream ++ Report.estimator_lines estimator_text estimators.
Proof.
  induction estimators as [|e rest IH]; intros stream; simpl.
  - now rewrite string_append_nil_r.
  - rewrite IH. unfold Report.print. rewrite estimator_appends. simpl.
    now rewrite !string_append_assoc.
Qed.

(** X12.  Layout of the report.  With [abbrev] the encoder prints what the base
    class prints and nothing more.  Otherwise it adds a blank line, a rule
    of dashes, the header, the sub-header and a rule of equals signs, then
    the abbreviated summary of every recorded estimator in order, each on
    a line of its own, and a closing rule of dashes; header, sub-header and
    rules are all 80 characters wide. *)
Theorem print_stats_layout estimators stream :
  Report.print_stats Estimator super_print_stats estimator_print_stats
    estimators true stream = stream ++ super_text true /\
  Report.print_stats Estimator super_print_stats estimator_print_stats
    estimators false stream =
  stream ++ super_text false ++ Report.newline
         ++ Report.times Report.dash 80 ++ Report.newline
         ++ Report.header ++ Report.newline
         ++ Report.subheader ++ Report.newline
         ++ Report.times Report.equals 80 ++ Report.newline
         ++ Report.estimator_lines estimator_text estimators
         ++ Report.times Report.dash 80 ++ Report.newline /\
  String.length Report.header = 80 /\
  String.length Report.subheader = 80.
Proof.
  split; [|split; [|split; reflexivity]].
  - unfold Report.print_stats. apply super_appends.
  - unfold Report.print_stats. cbv zeta.
    rewrite print_estimators_appends. unfold Report.print.
    rewrite super_appends.
    change (String.length Report.header) with 80.
    rewrite !string_append_assoc. reflexivity.
Qed.

End ReportLayout.

Lemma print_stats_layout_witness :
  Report.print_stats nat (fun _ s => (s ++ "base")%string)
    (fun n _ s => (s ++ Report.times Report.dash n)%string)
    [1; 2] true "" = ("" ++ "base")%string /\
  Report.print_stats nat (fun _ s => (s ++ "base")%string)
    (fun n _ s => (s ++ Report.times Report.dash n)%string)
    [1; 2] false "" =
  ("" ++ "base" ++ Report.newline
      ++ Report.times Report.dash 80 ++ Report.newline
      ++ Report.header ++ Report.newline
      ++ Report.subheader ++ Report.newline
      ++ Report.times Report.equals 80 ++ Report.newline
      ++ Report.estimator_lines (Report.times Report.dash) [1; 2]
      ++ Report.times Report.dash 80 ++ Report.newline)%string /\
  String.length Report.header = 80 /\
  String.length Report.subheader = 80.
Proof.
  apply (print_stats_layout nat (fun _ s => (s ++ "base")%string)
           (fun n _ s => (s ++ Report.times Report.dash n)%string)
           (fun _ => "base"%string) (Report.times Report.dash)).
  - reflexivity.
  - reflexivity.
Defined.

(* ================================================================== *)
(** ** The encoding admits the direct evaluation *)
(* ================================================================== *)

Section PathFacts.

Variable t : Tree.
Variable n_features : nat.
Hypothesis Hwf : tree_wf t n_features = true.
Variable conv : Q -> Q.
Variable X : list Q.
Hypothesis HX : length X = n_features.

Lemma chosen_child_cases n :
  chosen_child conv t X n = left_child t n \/
  chosen_child conv t X n = right_child t n.
Proof. unfold chosen_child. destruct (Qle_bool _ _); auto. Qed.

Lemma chosen_child_bounds n :
  n < capacity t -> is_leaf t n = false ->
  n < chosen_child conv t X n < capacity t.
Proof.
  intros Hn Hl. destruct (wf_children _ _ Hwf n Hn Hl) as (G1 & G2 & _).
  destruct (chosen_child_cases n) as [-> | ->]; assumption.
Qed.

Lemma path_from_bounds fuel : forall start n,
  start < capacity t -> In n (path_from conv t X fuel start) ->
  start <= n < capacity t.
Proof.
  induction fuel as [|fuel IH]; intros start n Hs Hn; simpl in Hn; [destruct Hn|].
  destruct (is_leaf t start) eqn:Hl.
  - destruct Hn as [<-|[]]. lia.
  - destruct Hn as [<-|Hn]; [lia|].
    pose proof (chosen_child_bounds start Hs Hl) as Hc.
    apply IH in Hn; lia.
Qed.

Lemma path_from_start fuel start :
  0 < fuel -> In start (path_from conv t X fuel start).
Proof.
  intros Hf. destruct fuel as [|fuel]; [lia|]. simpl.
  destruct (is_leaf t start); simpl; auto.
Qed.

(** A visited split node is followed by its chosen child. *)
Lemma path_from_step fuel : forall start n,
  start < capacity t -> capacity t - start <= fuel ->
  In n (path_from conv t X fuel start) -> is_leaf t n = false ->
  In (chosen_child conv t X n) (path_from conv t X fuel start).
Proof.
  induction fuel as [|fuel IH]; intros start n Hs Hf Hn Hl; simpl in *; [destruct Hn|].
  destruct (is_leaf t start) eqn:Hls.
  - destruct Hn as [<-|[]]. congruence.
  - pose proof (chosen_child_bounds start Hs Hls) as Hc.
    destruct Hn as [<-|Hn].
    + right. apply path_from_start. lia.
    + right. apply IH; auto; lia.
Qed.

(** A visited node other than the first was chosen at a visited split
    node. *)
Lemma path_from_pred fuel : forall start n,
  In n (path_from conv t X fuel start) -> n <> start ->
  exists q, In q (path_from conv t X fuel start) /\ is_leaf t q = false /\
            chosen_child conv t X q = n.
Proof.
  induction fuel as [|fuel IH]; intros start n Hn Hne; simpl in *; [destruct Hn|].
  destruct (is_leaf t start) eqn:Hls.
  - destruct Hn as [<-|[]]. congruence.
  - destruct Hn as [<-|Hn]; [congruence|].
    destruct (Nat.eq_dec n (chosen_child conv t X start)) as [->|Hne'].
    + exists start. simpl. auto.
    + destruct (IH _ _ Hn Hne') as (q & Hq & Hlq & Hcq).
      exists q. simpl. auto.
Qed.

(** The walk ends at the one leaf it visits, the leaf [apply_from]
    returns. *)
Lemma path_from_leaf fuel : forall start,
  start < capacity t -> capacity t - start <= fuel ->
  exists leaf,
    apply_from conv t X fuel start = Some leaf /\
    In leaf (path_from conv t X fuel start) /\ is_leaf t leaf = true /\
    forall n, In n (path_from conv t X fuel start) -> is_leaf t n = true -> n = leaf.
Proof.
  induction fuel as [|fuel IH]; intros start Hs Hf; [lia|]. simpl.
  rewrite (index_nat (-1)%Z) by (now rewrite (wf_length_left _ _ Hwf)).
  fold (is_leaf t start). destruct (is_leaf t start) eqn:Hl.
  - exists start. repeat split; simpl; auto. intros n [<-|[]] _. reflexivity.
  - destruct (wf_split _ _ Hwf start Hs Hl) as (S1 & S2 & S3).
    pose proof (chosen_child_bounds start Hs Hl) as Hc.
    rewrite (index_nat (-1)%Z) by (now rewrite (wf_length_right _ _ Hwf)).
    rewrite (index_nat (-2)%Z) by (now rewrite (wf_length_feature _ _ Hwf)).
    rewrite (index_nat 0%Q) by (now rewrite (wf_length_threshold _ _ Hwf)).
    rewrite (index_nonneg 0%Q) by (rewrite HX; lia).
    fold (split_feature t start) (stored_threshold t start)
         (left_child t start) (right_child t start).
    destruct (IH (chosen_child conv t X start)) as (leaf & Ha & Hin & Hlf & Huniq);
      [lia|lia|].
    exists leaf. unfold chosen_child in Ha.
    split; [|split; [simpl; auto|split; [exact Hlf|]]].
    + destruct (Qle_bool _ _); exact Ha.
    + intros n [<-|Hn] Hln; [congruence|]. now apply Huniq.
Qed.

End PathFacts.

Lemma distinct_children_sound t :
  distinct_children t = true ->
  (forall n, n < capacity t -> is_leaf t n = false ->
             left_child t n <> right_child t n) /\
  (forall n n', n < capacity t -> n' < capacity t ->
                is_leaf t n = false -> is_leaf t n' = false -> n <> n' ->
                left_child t n <> left_child t n' /\
                left_child t n <> right_child t n' /\
                right_child t n <> left_child t n' /\
                right_child t n <> right_child t n').
Proof.
  intros H. unfold distinct_children in H. rewrite forallb_forall in H.
  split.
  - intros n Hn Hl. specialize (H n ltac:(apply in_seq; lia)).
    rewrite Hl in H. simpl in H. apply andb_prop in H as [H _].
    apply negb_true_iff, Nat.eqb_neq in H. exact H.
  - intros n n' Hn Hn' Hl Hl' Hne. specialize (H n ltac:(apply in_seq; lia)).
    rewrite Hl in H. simpl in H. apply andb_prop in H as [_ H].
    rewrite forallb_forall in H. specialize (H n' ltac:(apply in_seq; lia)).
    rewrite Hl' in H. simpl in H.
    apply Nat.eqb_neq in Hne. rewrite Hne in H. simpl in H.
    unfold children_apart in H.
    repeat (apply andb_prop in H as [H ?]).
    repeat match goal with
           | G : negb (_ =? _) = true |- _ => apply negb_true_iff, Nat.eqb_neq in G
           end.
    auto.
Qed.

Lemma Qsum_indicator {A} (f : A -> Q) (l : list A) (a : A) :
  NoDup l -> In a l ->
  (f a == 1)%Q -> (forall b, In b l -> b <> a -> (f b == 0)%Q) ->
  (Qsum (map f l) == 1)%Q.
Proof.
  induction l as [|x l IH]; intros Hnd Ha H1 H0; [destruct Ha|].
  inversion Hnd as [|? ? Hx Hnd']; subst. simpl.
  destruct Ha as [->|Ha].
  - assert (Hz : (Qsum (map f l) == 0)%Q).
    { clear IH Hnd Hnd'. induction l as [|y l IHl]; simpl; [reflexivity|].
      rewrite (H0 y) by (simpl; auto; intros ->; apply Hx; simpl; auto).
      rewrite IHl; [reflexivity| |].
      - intros Hin. apply Hx. simpl. auto.
      - intros b Hb Hne. apply H0; simpl in *; tauto. }
    rewrite Hz, H1. reflexivity.
  - rewrite (H0 x) by (simpl; auto; intros ->; contradiction).
    rewrite IH; auto; [reflexivity|]. intros b Hb Hne. apply H0; simpl; auto.
Qed.

Section Completeness.

Variable self : TreeOptions.
Variable t : Tree.
Variables inp out nodes : MVar.
Variable sigma : var -> Q.
Variable Xs : nat -> list Q.

Hypothesis Hwf : tree_wf t (shape1 inp) = true.
Hypothesis Hdistinct : distinct_children t = true.
Hypothesis HXs : forall k, k < shape0 inp -> length (Xs k) = shape1 inp.
Hypothesis Hinp : forall k f, k < shape0 inp -> f < shape1 inp ->
  (sigma (item inp k f) == nth f (Xs k) 0)%Q.
Hypothesis Hon : forall k n, k < shape0 inp ->
  In n (path (float_type self) t (Xs k)) -> (sigma (item nodes k n) == 1)%Q.
Hypothesis Hoff : forall k n, k < shape0 inp -> n < capacity t ->
  ~ In n (path (float_type self) t (Xs k)) -> (sigma (item nodes k n) == 0)%Q.
Hypothesis Hout : forall k v, k < shape0 inp ->
  predict_with (float_type self) t (Xs k) = Some v -> (sigma (item out k 0) == v)%Q.
Hypothesis Hgap : forall k n, k < shape0 inp ->
  In n (path (float_type self) t (Xs k)) -> is_leaf t n = false ->
  (nth (split_feature t n) (Xs k) 0 <= float_type self (stored_threshold t n))%Q \/
  (right_constant self (stored_threshold t n)
   <= nth (split_feature t n) (Xs k) 0)%Q.

Local Abbreviation P := (fun k => path (float_type self) t (Xs k)).

Lemma on_path_dec k n : {In n (P k)} + {~ In n (P k)}.
Proof. apply in_dec, Nat.eq_dec. Qed.

(** On the path, a child of a split node was chosen at that node. *)
Lemma child_on_path k n c :
  k < shape0 inp -> n < capacity t -> is_leaf t n = false ->
  c = left_child t n \/ c = right_child t n ->
  In c (P k) ->
  In n (P k) /\ chosen_child (float_type self) t (Xs k) n = c.
Proof.
  intros Hk Hn Hl Hc Hin.
  destruct (wf_children _ _ Hwf n Hn Hl) as (G1 & G2 & _).
  destruct (path_from_pred t (float_type self) (Xs k) _ _ _ Hin) as (q & Hq & Hlq & Hcq).
  { destruct Hc; lia. }
  pose proof (path_from_bounds t _ Hwf (float_type self) (Xs k) (HXs k Hk)
                _ _ _ (wf_capacity _ _ Hwf) Hq) as [_ Hqc].
  destruct (Nat.eq_dec q n) as [->|Hne]; [auto|]. exfalso.
  destruct (proj2 (distinct_children_sound t Hdistinct) q n Hqc Hn Hlq Hl Hne)
    as (D1 & D2 & D3 & D4).
  destruct (chosen_child_cases t (float_type self) (Xs k) q) as [E|E];
    rewrite E in Hcq; destruct Hc; subst c; congruence.
Qed.

(** Every kind of constraint the encoder writes holds under the
    assignment that follows the paths. *)
Lemma path_assignment_sat c :
  tree_constr self t inp out nodes c -> sat sigma c.
Proof.
  pose proof (proj1 (distinct_children_sound t Hdistinct)) as Hlr.
  intros Hc. destruct Hc as [k n Hk Hn Hl|k n Hk Hn Hl|k n Hk Hn Hl|k n Hk Hn Hl
                            |k n Hk Hn Hl|k n Hk Hn Hl|k n v Hk Hn Hl Hv|k Hk].
  - (* parent >= left child *)
    apply sat_ge. destruct (wf_children _ _ Hwf n Hn Hl) as (G1 & G2 & _).
    destruct (on_path_dec k (left_child t n)) as [Hin|Hnin].
    + destruct (child_on_path k n _ Hk Hn Hl (or_introl eq_refl) Hin) as [Hp _].
      rewrite (Hon k _ Hk Hin), (Hon k n Hk Hp). apply Qle_refl.
    + rewrite (Hoff k _ Hk (proj2 G1) Hnin).
      destruct (on_path_dec k n) as [Hp|Hp];
        [rewrite (Hon k n Hk Hp)|rewrite (Hoff k n Hk Hn Hp)]; lra.
  - (* parent >= right child *)
    apply sat_ge. destruct (wf_children _ _ Hwf n Hn Hl) as (G1 & G2 & _).
    destruct (on_path_dec k (right_child t n)) as [Hin|Hnin].
    + destruct (child_on_path k n _ Hk Hn Hl (or_intror eq_refl) Hin) as [Hp _].
      rewrite (Hon k _ Hk Hin), (Hon k n Hk Hp). apply Qle_refl.
    + rewrite (Hoff k _ Hk (proj2 G2) Hnin).
      destruct (on_path_dec k n) as [Hp|Hp];
        [rewrite (Hon k n Hk Hp)|rewrite (Hoff k n Hk Hn Hp)]; lra.
  - (* parent <= sum of children *)
    apply sat_le_sum. destruct (wf_children _ _ Hwf n Hn Hl) as (G1 & G2 & _).
    destruct (on_path_dec k n) as [Hp|Hp].
    + pose proof (path_from_step t _ Hwf (float_type self) (Xs k) (HXs k Hk)
                    (capacity t) 0 n (wf_capacity _ _ Hwf) (Nat.le_sub_l _ _) Hp Hl) as Hch.
      rewrite (Hon k n Hk Hp).
      destruct (chosen_child_cases t (float_type self) (Xs k) n) as [E|E];
        rewrite E in Hch; rewrite (Hon k _ Hk Hch).
      * destruct (on_path_dec k (right_child t n)) as [Hr|Hr];
          [rewrite (Hon k _ Hk Hr)|rewrite (Hoff k _ Hk (proj2 G2) Hr)]; lra.
      * destruct (on_path_dec k (left_child t n)) as [Hr|Hr];
          [rewrite (Hon k _ Hk Hr)|rewrite (Hoff k _ Hk (proj2 G1) Hr)]; lra.
    + rewrite (Hoff k n Hk Hn Hp).
      destruct (on_path_dec k (right_child t n)) as [Hr|Hr];
        [rewrite (Hon k _ Hk Hr)|rewrite (Hoff k _ Hk (proj2 G2) Hr)];
        (destruct (on_path_dec k (left_child t n)) as [Hq|Hq];
         [rewrite (Hon k _ Hk Hq)|rewrite (Hoff k _ Hk (proj2 G1) Hq)]); lra.
  - (* the children exclude each other *)
    apply sat_sum_le_one. destruct (wf_children _ _ Hwf n Hn Hl) as (G1 & G2 & _).
    destruct (on_path_dec k (right_child t n)) as [Hr|Hr];
      destruct (on_path_dec k (left_child t n)) as [Hq|Hq].
    + exfalso.
      destruct (child_on_path k n _ Hk Hn Hl (or_intror eq_refl) Hr) as [_ E1].
      destruct (child_on_path k n _ Hk Hn Hl (or_introl eq_refl) Hq) as [_ E2].
      apply (Hlr n Hn Hl). congruence.
    + rewrite (Hon k _ Hk Hr), (Hoff k _ Hk (proj2 G1) Hq). lra.
    + rewrite (Hoff k _ Hk (proj2 G2) Hr), (Hon k _ Hk Hq). lra.
    + rewrite (Hoff k _ Hk (proj2 G2) Hr), (Hoff k _ Hk (proj2 G1) Hq). lra.
  - (* left branch *)
    apply sat_left. intros Ha.
    destruct (wf_children _ _ Hwf n Hn Hl) as (G1 & G2 & G3).
    destruct (on_path_dec k (left_child t n)) as [Hq|Hq];
      [|rewrite (Hoff k _ Hk (proj2 G1) Hq) in Ha; lra].
    destruct (child_on_path k n _ Hk Hn Hl (or_introl eq_refl) Hq) as [Hp E].
    rewrite (Hinp k _ Hk G3). unfold chosen_child in E.
    destruct (Qle_bool _ _) eqn:Hb.
    + now apply Qle_bool_iff.
    + exfalso. apply (Hlr n Hn Hl). congruence.
  - (* right branch *)
    apply sat_right. intros Ha.
    destruct (wf_children _ _ Hwf n Hn Hl) as (G1 & G2 & G3).
    destruct (on_path_dec k (right_child t n)) as [Hq|Hq];
      [|rewrite (Hoff k _ Hk (proj2 G2) Hq) in Ha; lra].
    destruct (child_on_path k n _ Hk Hn Hl (or_intror eq_refl) Hq) as [Hp E].
    rewrite (Hinp k _ Hk G3). unfold chosen_child in E.
    destruct (Qle_bool _ _) eqn:Hb.
    + exfalso. apply (Hlr n Hn Hl). congruence.
    + destruct (Hgap k n Hk Hp Hl) as [Hle|Hge]; [|exact Hge].
      apply Qle_bool_iff in Hle. congruence.
  - (* leaf value *)
    apply sat_leaf. intros Ha.
    destruct (on_path_dec k n) as [Hp|Hp];
      [|rewrite (Hoff k n Hk Hn Hp) in Ha; lra].
    destruct (path_from_leaf t _ Hwf (float_type self) (Xs k) (HXs k Hk) (capacity t) 0
                (wf_capacity _ _ Hwf) (Nat.le_sub_l _ _)) as (leaf & Hap & _ & _ & Huniq).
    assert (n = leaf) by (apply Huniq; assumption). subst leaf.
    apply Hout; [exact Hk|]. unfold predict_with. rewrite Hap. exact Hv.
  - (* one leaf *)
    apply sat_one_leaf. rewrite map_map.
    destruct (path_from_leaf t _ Hwf (float_type self) (Xs k) (HXs k Hk) (capacity t) 0
                (wf_capacity _ _ Hwf) (Nat.le_sub_l _ _)) as (leaf & _ & Hin & Hlf & Huniq).
    pose proof (path_from_bounds t _ Hwf (float_type self) (Xs k) (HXs k Hk)
                  _ _ _ (wf_capacity _ _ Hwf) Hin) as [_ Hlc].
    apply (Qsum_indicator _ _ leaf).
    + apply NoDup_leaf_nodes.
    + apply (leaf_nodes_In _ _ Hwf). auto.
    + apply Hon; [exact Hk|exact Hin].
    + intros b Hb Hne. apply (leaf_nodes_In _ _ Hwf) in Hb as [Hbc Hbl].
      apply Hoff; [exact Hk|exact Hbc|]. intros Hbin. apply Hne. now apply Huniq.
Qed.

End Completeness.

Lemma mvar_mem_inv a x :
  mvar_mem a x = true ->
  exists k j, k < shape0 a /\ j < shape1 a /\ x = item a k j.
Proof.
  unfold mvar_mem. intros H.
  apply existsb_exists in H as (k & Hk & H).
  apply existsb_exists in H as (j & Hj & H).
  apply in_seq in Hk, Hj. apply Nat.eqb_eq in H.
  exists k, j. repeat split; auto; lia.
Qed.

Lemma fresh_nodes_inv p inp m x :
  length (Vars m) <= x < length (Vars m) + shape0 inp * capacity (tree_ p) ->
  exists k n, k < shape0 inp /\ n < capacity (tree_ p) /\
              x = item (fresh_nodes p inp m) k n.
Proof.
  intros Hx. set (c := capacity (tree_ p)) in *.
  assert (Hc : 0 < c) by (destruct c; [lia|lia]).
  exists ((x - length (Vars m)) / c), ((x - length (Vars m)) mod c).
  pose proof (Nat.div_mod_eq (x - length (Vars m)) c) as E.
  pose proof (Nat.mod_upper_bound (x - length (Vars m)) c ltac:(lia)) as Hm.
  split; [|split; [exact Hm|]].
  - apply Nat.Div0.div_lt_upper_bound. lia.
  - simpl. fold c. nia.
Qed.

(** X13.  The encoding admits the direct evaluation.  Take a well-formed
    one-output tree in which no node is the child of two nodes, options
    under which no quotient raises, a solution feasible for the model
    before the encoder runs, and samples [Xs k], one per example, none of
    which falls strictly between the two branch constants (the converted
    threshold and its float sum with [eps]) at a split node its walk
    visits.  If the solution gives the input variables the sample values,
    the value 1 to the node variables on each sample's walk and 0 to the
    others, and to each output variable the value of the leaf the walk ends
    in, then the encoder completes and the solution is feasible for the
    model it leaves: every variable type and bound, the rewritten output
    bounds included, and every constraint holds. *)
Theorem direct_evaluation_is_feasible self p inp out m sigma (Xs : nat -> list Q) :
  tree_wf (tree_ p) (shape1 inp) = true ->
  distinct_children (tree_ p) = true ->
  n_outputs_ p = 1%Z -> shape1 out = 1 -> shape0 out = shape0 inp ->
  no_zero_division self (tree_ p) ->
  (forall k, k < shape0 inp -> length (Xs k) = shape1 inp) ->
  feasible sigma m ->
  (forall k f, k < shape0 inp -> f < shape1 inp ->
     (sigma (item inp k f) == nth f (Xs k) 0)%Q) ->
  (forall k n, k < shape0 inp ->
     In n (path (float_type self) (tree_ p) (Xs k)) ->
     (sigma (item (fresh_nodes p inp m) k n) == 1)%Q) ->
  (forall k n, k < shape0 inp -> n < capacity (tree_ p) ->
     ~ In n (path (float_type self) (tree_ p) (Xs k)) ->
     (sigma (item (fresh_nodes p inp m) k n) == 0)%Q) ->
  (forall k v, k < shape0 inp ->
     predict_with (float_type self) (tree_ p) (Xs k) = Some v ->
     (sigma (item out k 0) == v)%Q) ->
  (forall k n, k < shape0 inp ->
     In n (path (float_type self) (tree_ p) (Xs k)) ->
     is_leaf (tree_ p) n = false ->
     (nth (split_feature (tree_ p) n) (Xs k) 0
      <= float_type self (stored_threshold (tree_ p) n))%Q \/
     (right_constant self (stored_threshold (tree_ p) n)
      <= nth (split_feature (tree_ p) n) (Xs k) 0)%Q) ->
  exists obj m',
    DecisionTreeRegressorConstr self p inp out m = (Ok obj, m') /\
    feasible sigma m'.
Proof.
  intros Hwf Hd Hno Hcols Hrows Hdiv HXs [Hvars Hcons] Hinp Hon Hoff Hout Hgap.
  destruct (DecisionTreeRegressorConstr_wf self p inp out m Hwf Hno Hcols
              ltac:(lia) Hdiv) as (cs & lo & hi & Hrun & Hlo & Hhi & Hcs).
  eexists _, _. split; [exact Hrun|].
  assert (Hnode : forall k n, k < shape0 inp -> n < capacity (tree_ p) ->
            is_binary (sigma (item (fresh_nodes p inp m) k n))).
  { intros k n Hk Hn.
    destruct (in_dec Nat.eq_dec n (path (float_type self) (tree_ p) (Xs k)));
      [right; now apply Hon|left; now apply Hoff]. }
  assert (Hbound : forall x, mvar_mem out x = true -> (lo <= sigma x <= hi)%Q).
  { intros x Hx. apply mvar_mem_inv in Hx as (k & j & Hk & Hj & ->).
    assert (j = 0) by lia. subst j. rewrite Hrows in Hk.
    destruct (path_from_leaf _ _ Hwf (float_type self) (Xs k) (HXs k Hk)
                (capacity (tree_ p)) 0 (wf_capacity _ _ Hwf) (Nat.le_sub_l _ _))
      as (leaf & Hap & Hin & _ & _).
    pose proof (path_from_bounds _ _ Hwf (float_type self) (Xs k) (HXs k Hk)
                  _ _ _ (wf_capacity _ _ Hwf) Hin) as [_ Hlc].
    destruct (wf_value _ _ Hwf leaf Hlc) as (v & Hv).
    rewrite (Hout k v Hk) by (unfold predict_with; rewrite Hap; exact Hv).
    apply value00_In in Hv.
    split; [exact (np_min_le _ _ _ Hlo Hv)|exact (np_max_ge _ _ _ Hhi Hv)]. }
  split; simpl.
  - intros x d Hx. rewrite tree_vars_nth in Hx.
    destruct (nth_error (Vars m ++ _) x) as [d0|] eqn:E; [|discriminate].
    simpl in Hx.
    assert (Hd0 : var_ok sigma x d0).
    { destruct (Nat.lt_ge_cases x (length (Vars m))) as [Hlt|Hge].
      - rewrite nth_error_app1 in E by exact Hlt. now apply Hvars.
      - assert (Hxlt : x < length (Vars m) + shape0 inp * capacity (tree_ p)).
        { assert (Hs : nth_error (Vars m ++ node_decls p inp) x <> None)
            by (rewrite E; discriminate).
          apply nth_error_Some in Hs. unfold node_decls in Hs.
          rewrite length_app, length_new_vars in Hs. exact Hs. }
        rewrite nth_error_app2 in E by exact Hge.
        apply nth_error_In, In_new_vars in E as (Et & El & Eu).
        destruct (fresh_nodes_inv p inp m x ltac:(lia)) as (k & n & Hk & Hn & ->).
        specialize (Hnode k n Hk Hn). unfold var_ok.
        rewrite Et, El, Eu. cbn [default_ub].
        destruct Hnode as [E0|E1];
          (split; [rewrite ?E0, ?E1; lra|split; [rewrite ?E0, ?E1; lra|]]);
          [left; exact E0|right; exact E1]. }
    destruct (mvar_mem out x) eqn:Hmem; inversion Hx; subst d; [|exact Hd0].
    destruct (Hbound x Hmem) as [B1 B2].
    destruct Hd0 as (_ & _ & Ht). unfold var_ok, with_UB, with_LB.
    cbn [LB UB VType]. auto.
  - intros c Hc. apply in_app_or in Hc as [Hc|Hc]; [now apply Hcons|].
    apply Hcs in Hc.
    exact (path_assignment_sat self (tree_ p) inp out (fresh_nodes p inp m) sigma Xs
             Hwf Hd HXs Hinp Hon Hoff Hout Hgap c Hc).
Qed.

Lemma direct_evaluation_is_feasible_witness :
  exists obj m',
    DecisionTreeRegressorConstr default_options Examples.exact_tree Examples.inp
      Examples.out Examples.m0 = (Ok obj, m') /\
    feasible left_solution m'.
Proof.
  apply (direct_evaluation_is_feasible default_options Examples.exact_tree
           Examples.inp Examples.out Examples.m0 left_solution
           (fun _ => [(1 # 2)%Q])).
  - reflexivity.
  - reflexivity.
  - reflexivity.
  - reflexivity.
  - reflexivity.
  - intros thr _. discriminate.
  - intros k _. reflexivity.
  - apply feasibleb_sound. reflexivity.
  - intros k f Hk Hf. simpl in Hk, Hf.
    assert (k = 0) by lia. assert (f = 0) by lia. subst. reflexivity.
  - intros k n Hk Hn. simpl in Hk. assert (k = 0) by lia. subst k.
    vm_compute in Hn. destruct Hn as [<-|[<-|[]]]; reflexivity.
  - intros k n Hk Hn Hp. simpl in Hk, Hn. assert (k = 0) by lia. subst k.
    destruct n as [|[|[|n]]]; [| |reflexivity|lia];
      exfalso; apply Hp; vm_compute; auto.
  - intros k v Hk Hv. simpl in Hk. assert (k = 0) by lia. subst k.
    vm_compute in Hv. inversion Hv. reflexivity.
  - intros k n Hk Hn Hl. simpl in Hk. assert (k = 0) by lia. subst k.
    vm_compute in Hn. destruct Hn as [<-|[<-|[]]].
    + left. vm_compute. discriminate.
    + vm_compute in Hl. discriminate.
Defined.
